(** * The MaxScale CDC connector: a shallow embedding of cdc_connector.{h,cpp}

    The development follows the two source files.  Pure helpers
    ([bin2hex], [generateAuthString], [json_to_string], [is_schema]) are
    functions; the methods of [CDC::Connection] run in a state monad over the
    object's fields, the operating system and the heap of rows.  Undefined
    behaviour of the C++ code is [None]: the failure of that monad for a
    [std::string] built from a null pointer or a store past the end of a
    buffer, the missing result of a vector access past its end. *)

From Stdlib Require Import ZArith String Ascii List Lia Bool.
From Stdlib Require Import DecimalString RelationClasses.
Import ListNotations.

#[local] Set Warnings "-register-all".
#[local] Open Scope string_scope.
#[local] Open Scope Z_scope.

(** ** Byte strings *)

(** A [std::string] is a sequence of bytes and may contain NUL bytes.  A
    function that receives it as a [const char*] sees only the bytes before
    the first NUL: that is [c_str]. *)
Definition NUL : ascii := Ascii.zero.

Fixpoint c_str (s : string) : string :=
  match s with
  | EmptyString => EmptyString
  | String c rest => if Ascii.eqb c NUL then EmptyString else String c (c_str rest)
  end.

Definition byte_val (c : ascii) : Z := Z.of_N (N_of_ascii c).

(** [s[i]] of a [std::string]: the byte at [i], and the terminating NUL at
    [i = size()].  Past that the standard leaves the read undefined; the only
    such read of the program ([dest[2]] on a one-byte [dest] in [readRow]) is
    combined by [&] with a comparison that is already false, so the model reads
    the NUL padding there as well. *)
Definition char_at (s : string) (i : nat) : ascii :=
  match String.get i s with
  | Some c => c
  | None => NUL
  end.

Fixpoint str_has (c : ascii) (s : string) : bool :=
  match s with
  | EmptyString => false
  | String d rest => Ascii.eqb d c || str_has c rest
  end.

(** No embedded NUL byte. *)
Definition nul_free (s : string) : Prop := str_has NUL s = false.

(** [needle] occurs in [hay] ([std::string::find] is not [npos]). *)
Fixpoint contains (needle hay : string) : bool :=
  String.prefix needle hay ||
  match hay with
  | EmptyString => false
  | String _ rest => contains needle rest
  end.

(** ** cdc_connector.cpp, anonymous namespace *)

Definition hexconvtab : string := "0123456789abcdef".

(** The loop of [bin2hex]: [i] runs from its current value for [steps] more
    iterations, each appending two digits to [result].  (The index is an [int]
    compared with a [size_t]; buffers are shorter than 2^31 bytes.) *)
Fixpoint bin2hex_loop (data : string) (i : nat) (steps : nat) (result : string) : string :=
  match steps with
  | O => result
  | S k =>
      let d := byte_val (char_at data i) in
      let result := result ++ String (char_at hexconvtab (Z.to_nat (Z.shiftr d 4))) EmptyString in
      let result := result ++ String (char_at hexconvtab (Z.to_nat (Z.land d 15))) EmptyString in
      bin2hex_loop data (S i) k result
  end.

Definition bin2hex (data : string) (len : nat) : string :=
  bin2hex_loop data 0 len "".

Definition SHA_DIGEST_LENGTH : nat := 20.

(** A C [double], as its IEEE 754 binary64 bit pattern. *)
Inductive double : Type :=
| Binary64 (bits : Z).

(** The JSON value tree of jansson ([json_t]).  An object keeps its members
    in insertion order; a real is a C [double]. *)
Inductive json : Type :=
| JObject (members : list (string * json))
| JArray (elems : list json)
| JString (s : string)
| JInteger (i : Z)
| JReal (r : double)
| JTrue
| JFalse
| JNull.

Inductive json_type : Type :=
| JSON_OBJECT | JSON_ARRAY | JSON_STRING | JSON_INTEGER
| JSON_REAL | JSON_TRUE | JSON_FALSE | JSON_NULL.

Definition json_typeof (j : json) : json_type :=
  match j with
  | JObject _ => JSON_OBJECT
  | JArray _ => JSON_ARRAY
  | JString _ => JSON_STRING
  | JInteger _ => JSON_INTEGER
  | JReal _ => JSON_REAL
  | JTrue => JSON_TRUE
  | JFalse => JSON_FALSE
  | JNull => JSON_NULL
  end.

(** *** The jansson accessors the connector calls

    A [json_t*] may be null: [option json].  Every accessor answers null (or
    zero) on a null pointer and on a value of the wrong type, as jansson
    documents. *)
Fixpoint assoc_get (key : string) (members : list (string * json)) : option json :=
  match members with
  | [] => None
  | (k, v) :: rest => if String.eqb k key then Some v else assoc_get key rest
  end.

(** [json_object_get(json, key)]: [key] is a [const char*]. *)
Definition json_object_get (j : option json) (key : string) : option json :=
  match j with
  | Some (JObject members) => assoc_get (c_str key) members
  | _ => None
  end.

Definition json_is_array (j : option json) : bool :=
  match j with
  | Some (JArray _) => true
  | _ => false
  end.

Definition json_is_string (j : option json) : bool :=
  match j with
  | Some (JString _) => true
  | _ => false
  end.

Definition json_array_elems (j : option json) : list json :=
  match j with
  | Some (JArray elems) => elems
  | _ => []
  end.

Definition json_array_size (j : option json) : nat :=
  List.length (json_array_elems j).

Definition json_array_get (j : option json) (i : nat) : option json :=
  nth_error (json_array_elems j) i.

(** [json_string_value]: the string's buffer, or a null pointer when the value
    is not a string. *)
Definition json_string_value (j : option json) : option string :=
  match j with
  | Some (JString s) => Some s
  | _ => None
  end.

Definition json_integer_value (j : json) : Z :=
  match j with
  | JInteger i => i
  | _ => 0
  end.

Definition json_real_value (j : json) : double :=
  match j with
  | JReal r => r
  | _ => Binary64 0
  end.

(** [ss << long long]: the decimal numeral, with a minus sign when negative. *)
Definition integer_to_string (i : Z) : string :=
  NilZero.string_of_int (Z.to_int i).

(** ** What the connector takes from outside the repository

    OpenSSL's [SHA1], jansson's [json_loads] (called with [JSON_ALLOW_NUL];
    it answers a tree or the text of [json_error_t]), libc's [inet_aton] and
    [strerror_r], and the stream formatting of a [double]. *)
Class Platform : Type := {
  SHA1 : string -> string;
  SHA1_length : forall msg, String.length (SHA1 msg) = SHA_DIGEST_LENGTH;
  json_loads : string -> json + string;
  inet_aton : string -> bool;
  strerror : Z -> string;
  real_to_string : double -> string
}.

Section Helpers.
Context {P : Platform}.

Definition generateAuthString (user password : string) : string :=
  let digest := SHA1 password in
  let auth_str := user in
  let auth_str := auth_str ++ ":" in
  let part1 := bin2hex auth_str (String.length auth_str) in
  let part2 := bin2hex digest SHA_DIGEST_LENGTH in
  part1 ++ part2.

Definition json_to_string (j : json) : string :=
  match json_typeof j with
  | JSON_STRING =>
      match json_string_value (Some j) with
      | Some s => c_str s
      | None => ""
      end
  | JSON_INTEGER => integer_to_string (json_integer_value j)
  | JSON_REAL => real_to_string (json_real_value j)
  | JSON_TRUE => "true"
  | JSON_FALSE => "false"
  | JSON_NULL => ""
  | _ => ""
  end.

End Helpers.

(** ** cdc_connector.h: [InternalRow] *)

Module InternalRow.

Record t : Type := mk {
  m_keys : list string;
  m_types : list string;
  m_values : list string
}.

Definition fieldCount (r : t) : nat := List.length (m_values r).

(** [operator[]] of a vector is defined below [size()] only: [None] is the
    undefined access. *)
Definition value_at (r : t) (i : nat) : option string := nth_error (m_values r) i.

(** [std::find(begin, end, str) - begin]: the first position that holds
    [str], and the size of the list when none does. *)
Fixpoint find (str : string) (l : list string) : nat :=
  match l with
  | [] => O
  | x :: rest => if String.eqb x str then O else S (find str rest)
  end.

Definition value (r : t) (str : string) : option string :=
  let it := find str (m_keys r) in
  nth_error (m_values r) it.

Definition gtid (r : t) : option string :=
  let s := "" in
  match value r "domain" with
  | None => None
  | Some d =>
      let s := s ++ d in
      let s := s ++ "-" in
      match value r "server_id" with
      | None => None
      | Some i =>
          let s := s ++ i in
          let s := s ++ "-" in
          match value r "sequence" with
          | None => None
          | Some q => Some (s ++ q)
          end
      end
  end.

Definition key (r : t) (i : nat) : option string := nth_error (m_keys r) i.

Definition type (r : t) (i : nat) : option string := nth_error (m_types r) i.

End InternalRow.

(** ** cdc_connector.h: [Connection] *)

Record Connection : Type := mkConnection {
  m_fd : Z;
  m_port : Z;
  m_address : string;
  m_user : string;
  m_password : string;
  m_error : string;
  m_schema : string;
  m_keys : list string;
  m_types : list string;
  m_timeout : Z
}.

Definition set_fd (fd : Z) (c : Connection) : Connection :=
  mkConnection fd (m_port c) (m_address c) (m_user c) (m_password c)
    (m_error c) (m_schema c) (m_keys c) (m_types c) (m_timeout c).

Definition set_error (e : string) (c : Connection) : Connection :=
  mkConnection (m_fd c) (m_port c) (m_address c) (m_user c) (m_password c)
    e (m_schema c) (m_keys c) (m_types c) (m_timeout c).

Definition set_schema (s : string) (c : Connection) : Connection :=
  mkConnection (m_fd c) (m_port c) (m_address c) (m_user c) (m_password c)
    (m_error c) s (m_keys c) (m_types c) (m_timeout c).

Definition set_keys (l : list string) (c : Connection) : Connection :=
  mkConnection (m_fd c) (m_port c) (m_address c) (m_user c) (m_password c)
    (m_error c) (m_schema c) l (m_types c) (m_timeout c).

Definition set_types (l : list string) (c : Connection) : Connection :=
  mkConnection (m_fd c) (m_port c) (m_address c) (m_user c) (m_password c)
    (m_error c) (m_schema c) (m_keys c) l (m_timeout c).

(** The constructor. *)
Definition new_Connection (address : string) (port : Z) (user password : string)
    (timeout : Z) : Connection :=
  mkConnection (-1) port address user password "" "" [] [] timeout.

Definition getSchema (c : Connection) : string := m_schema c.

Definition getError (c : Connection) : string := m_error c.

(** ** The operating system

    Each system call takes its answer from a script held by the environment
    and appends itself to a trace.  A script that has run out answers as an
    idle peer does: [poll] times out, [read] and [write] transfer nothing, the
    other calls fail. *)
Inductive call_reply : Type :=
| Returns (ret : Z)
| Fails (errno : Z).

Inductive poll_reply : Type :=
| PollTimeout
| PollReady (revents : Z)
| PollFail (errno : Z).

Inductive read_reply : Type :=
| ReadData (bytes : string)
| ReadFail (errno : Z).

Inductive syscall : Type :=
| SysSocket
| SysConnect (fd : Z) (address : string) (port : Z)
| SysFcntl (fd cmd arg : Z)
| SysPoll (fd events timeout_ms : Z)
| SysRead (fd : Z) (size : nat)
| SysWrite (fd : Z) (data : string)
| SysClose (fd : Z).

Record World : Type := mkWorld {
  w_calls : list call_reply;   (* socket, connect, fcntl *)
  w_polls : list poll_reply;
  w_reads : list read_reply;
  w_writes : list call_reply;
  w_errno : Z;
  w_stack : string;            (* what an uninitialised stack buffer holds *)
  w_trace : list syscall
}.

(** The rows live on the heap behind shared pointers: a [Row] is a null
    pointer or the address of an [InternalRow]. *)
Definition Row : Type := option nat.

Record Machine : Type := mkMachine {
  conn : Connection;
  world : World;
  heap : list InternalRow.t
}.

Definition deref (m : Machine) (r : Row) : option InternalRow.t :=
  match r with
  | Some a => nth_error (heap m) a
  | None => None
  end.

(** *** The monad of the methods: state, and [None] for undefined behaviour *)
Definition M (A : Type) : Type := Machine -> option (A * Machine).

Definition ret {A : Type} (a : A) : M A := fun s => Some (a, s).

Definition bind {A B : Type} (m : M A) (k : A -> M B) : M B :=
  fun s =>
    match m s with
    | Some (a, s') => k a s'
    | None => None
    end.

Definition undefined {A : Type} : M A := fun _ => None.

Declare Scope cdc_scope.
Delimit Scope cdc_scope with cdc.
Notation "x <- m ;; k" := (bind m (fun x => k))
  (at level 61, m at next level, right associativity) : cdc_scope.
Notation "m ;; k" := (bind m (fun _ => k))
  (at level 61, right associativity) : cdc_scope.
#[local] Open Scope cdc_scope.

Definition this : M Connection := fun s => Some (conn s, s).

Definition assign (f : Connection -> Connection) : M unit :=
  fun s => Some (tt, mkMachine (f (conn s)) (world s) (heap s)).

Definition env : M World := fun s => Some (world s, s).

Definition set_env (w : World) : M unit :=
  fun s => Some (tt, mkMachine (conn s) w (heap s)).

Definition errno : M Z := fun s => Some (w_errno (world s), s).

(** [new InternalRow(...)] wrapped in a [Row]. *)
Definition new_row (r : InternalRow.t) : M Row :=
  fun s => Some (Some (List.length (heap s)), mkMachine (conn s) (world s) (heap s ++ [r])).

Definition log (e : syscall) (w : World) : World :=
  mkWorld (w_calls w) (w_polls w) (w_reads w) (w_writes w) (w_errno w) (w_stack w)
    (w_trace w ++ [e]).

Definition with_errno (e : Z) (w : World) : World :=
  mkWorld (w_calls w) (w_polls w) (w_reads w) (w_writes w) e (w_stack w) (w_trace w).

Definition with_calls (l : list call_reply) (w : World) : World :=
  mkWorld l (w_polls w) (w_reads w) (w_writes w) (w_errno w) (w_stack w) (w_trace w).

Definition with_polls (l : list poll_reply) (w : World) : World :=
  mkWorld (w_calls w) l (w_reads w) (w_writes w) (w_errno w) (w_stack w) (w_trace w).

Definition with_reads (l : list read_reply) (w : World) : World :=
  mkWorld (w_calls w) (w_polls w) l (w_writes w) (w_errno w) (w_stack w) (w_trace w).

Definition with_writes (l : list call_reply) (w : World) : World :=
  mkWorld (w_calls w) (w_polls w) (w_reads w) l (w_errno w) (w_stack w) (w_trace w).

Definition EINTR : Z := 4.
Definition EBADF : Z := 9.
Definition EAGAIN : Z := 11.
Definition EWOULDBLOCK : Z := 11.

Definition POLLIN : Z := 1.
Definition POLLPRI : Z := 2.
Definition POLLOUT : Z := 4.
Definition POLLERR : Z := 8.
Definition POLLHUP : Z := 16.
Definition POLLNVAL : Z := 32.
Definition POLLRDHUP : Z := 8192.

Definition F_GETFL : Z := 3.
Definition F_SETFL : Z := 4.
Definition O_NONBLOCK : Z := 2048.

(** *** [int] arithmetic

    An [int] has 32 bits.  The product of two [int]s is the mathematical
    product when that fits; the standard leaves an overflowing product
    undefined, and the two's-complement machines the connector runs on deliver
    it wrapped, which is what [int_mul] writes out. *)
Definition INT_MIN : Z := -2147483648.
Definition INT_MAX : Z := 2147483647.

Definition fits_int (z : Z) : Prop := INT_MIN <= z <= INT_MAX.

Definition int_wrap (z : Z) : Z := (z - INT_MIN) mod 2 ^ 32 + INT_MIN.

Definition int_mul (a b : Z) : Z := int_wrap (a * b).

Arguments int_wrap : simpl never.
Arguments int_mul : simpl never.

(** The timeout in milliseconds, [m_timeout * 1000], does not overflow. *)
Definition timeout_fits (c : Connection) : Prop := fits_int (m_timeout c * 1000).

(** A call that returns an [int]: [socket], [connect], [fcntl]. *)
Definition sys_call (e : syscall) : M Z :=
  w <- env ;;
  let w := log e w in
  match w_calls w with
  | Returns r :: rest => set_env (with_calls rest w) ;; ret r
  | Fails en :: rest => set_env (with_errno en (with_calls rest w)) ;; ret (-1)
  | [] => set_env (with_errno EBADF w) ;; ret (-1)
  end.

(** [poll] on one descriptor: the return value and [revents]. *)
Definition sys_poll (fd events timeout_ms : Z) : M (Z * Z) :=
  w <- env ;;
  let w := log (SysPoll fd events timeout_ms) w in
  match w_polls w with
  | PollReady revents :: rest => set_env (with_polls rest w) ;; ret (1, revents)
  | PollTimeout :: rest => set_env (with_polls rest w) ;; ret (0, 0)
  | PollFail en :: rest => set_env (with_errno en (with_polls rest w)) ;; ret (-1, 0)
  | [] => set_env w ;; ret (0, 0)
  end.

Fixpoint take (n : nat) (s : string) : string :=
  match n, s with
  | S k, String c rest => String c (take k rest)
  | _, _ => EmptyString
  end.

Fixpoint drop (n : nat) (s : string) : string :=
  match n, s with
  | S k, String _ rest => drop k rest
  | _, _ => s
  end.

(** [::read(fd, dest, size)]: the return value and the bytes stored in
    [dest] (never more than [size]). *)
Definition sys_read (fd : Z) (size : nat) : M (Z * string) :=
  w <- env ;;
  let w := log (SysRead fd size) w in
  match w_reads w with
  | ReadData bytes :: rest =>
      set_env (with_reads rest w) ;;
      let got := take size bytes in
      ret (Z.of_nat (String.length got), got)
  | ReadFail en :: rest => set_env (with_errno en (with_reads rest w)) ;; ret (-1, "")
  | [] => set_env w ;; ret (0, "")
  end.

(** [::write(fd, src, size)]: the trace keeps the bytes offered. *)
Definition sys_write (fd : Z) (data : string) : M Z :=
  w <- env ;;
  let w := log (SysWrite fd data) w in
  match w_writes w with
  | Returns r :: rest => set_env (with_writes rest w) ;; ret r
  | Fails en :: rest => set_env (with_errno en (with_writes rest w)) ;; ret (-1)
  | [] => set_env w ;; ret 0
  end.

Definition sys_close (fd : Z) : M unit :=
  w <- env ;;
  set_env (log (SysClose fd) w).

(** An uninitialised [char buf[size]]. *)
Definition stack_buffer (size : nat) : M string :=
  w <- env ;;
  ret (take size (w_stack w)).

(** ** cdc_connector.cpp: the methods of [Connection] *)

Definition ERRBUF_SIZE : nat := 512.
Definition READBUF_SIZE : nat := 1024.

Definition CDC_CONNECTOR_VERSION : string := "1.0.0".
Definition OK_RESPONSE : string := String "O" (String "K" (String "010" EmptyString)).
Definition CLOSE_MSG : string := "CLOSE".
Definition REGISTER_MSG : string :=
  "REGISTER UUID=CDC_CONNECTOR-" ++ CDC_CONNECTOR_VERSION ++ ", TYPE=".
Definition REQUEST_MSG : string := "REQUEST-DATA ".

Definition newline : ascii := "010"%char.

Definition is_poll_error (e : Z) : bool :=
  negb (Z.land e (Z.lor (Z.lor POLLERR POLLHUP) POLLNVAL) =? 0).

Definition flag_set (event flag : Z) : bool := negb (Z.land event flag =? 0).

Definition event_to_string (event : Z) : string :=
  let rval := "" in
  let rval := if flag_set event POLLIN then rval ++ "POLLIN " else rval in
  let rval := if flag_set event POLLPRI then rval ++ "POLLPRI " else rval in
  let rval := if flag_set event POLLOUT then rval ++ "POLLOUT " else rval in
  let rval := if flag_set event POLLRDHUP then rval ++ "POLLRDHUP " else rval in
  let rval := if flag_set event POLLERR then rval ++ "POLLERR " else rval in
  let rval := if flag_set event POLLHUP then rval ++ "POLLHUP " else rval in
  let rval := if flag_set event POLLNVAL then rval ++ "POLLNVAL " else rval in
  rval.

(** [memcmp(a, b, n) != 0] *)
Definition memcmp_differs (a b : string) (n : nat) : bool :=
  negb (String.eqb (take n a) (take n b)).

(** The test of [readRow] on the accumulated line, with its operators as
    written: [dest[0] == 'E' && dest[1] == 'R' & dest[2] == 'R'], where [&]
    is the bitwise conjunction of the two comparison results. *)
Definition is_err_prefix (dest : string) : bool :=
  Ascii.eqb (char_at dest 0) "E"%char &&
  negb (Z.land (Z.b2z (Ascii.eqb (char_at dest 1) "R"%char))
               (Z.b2z (Ascii.eqb (char_at dest 2) "R"%char)) =? 0).

Definition is_schema (json : option json) : bool :=
  let rval := false in
  let j := json_object_get json "fields" in
  if (match j with Some _ => true | None => false end)
     && json_is_array j && negb (Nat.eqb (json_array_size j) 0)
  then
    match json_object_get (json_array_get j 0) "name" with
    | Some _ => true
    | None => false
    end
  else rval.

Section Methods.
Context {P : Platform}.

Definition wait_for_event (events : Z) : M Z :=
  c <- this ;;
  r <- sys_poll (m_fd c) events (int_mul (m_timeout c) 1000) ;;
  let '(rc, revents) := r in
  if (0 <? rc) && is_poll_error revents then
    assign (fun c => set_error (m_error c ++ "Error when waiting event; ") c) ;;
    assign (fun c => set_error (m_error c ++ event_to_string revents) c) ;;
    ret (-1)
  else if rc <? 0 then
    e <- errno ;;
    assign (set_error ("Failed to wait for event: " ++ strerror e)) ;;
    ret rc
  else ret rc.

(** [while ((rc = ::read(m_fd, dest, size)) < 0 && errno == EINTR) ;]
    Every repetition uses up one scripted answer, so the number of answers
    left bounds the loop. *)
Fixpoint read_retry (fuel : nat) (fd : Z) (size : nat) : M (Z * string) :=
  r <- sys_read fd size ;;
  e <- errno ;;
  if (fst r <? 0) && (e =? EINTR) then
    match fuel with
    | S k => read_retry k fd size
    | O => ret r
    end
  else ret r.

Definition nointr_read (size : nat) : M (Z * string) :=
  let n_bytes := 0 in
  ev <- wait_for_event POLLIN ;;
  if 0 <? ev then
    c <- this ;;
    w <- env ;;
    r <- read_retry (List.length (w_reads w)) (m_fd c) size ;;
    let '(rc, dest) := r in
    e <- errno ;;
    if (rc =? -1) && negb (e =? EWOULDBLOCK) && negb (e =? EAGAIN) then
      assign (set_error ("Failed to read data: " ++ strerror e)) ;;
      ret (-1, dest)
    else if 0 <? rc then ret (n_bytes + rc, dest)
    else ret (n_bytes, dest)
  else ret (n_bytes, "").

Fixpoint write_retry (fuel : nat) (fd : Z) (data : string) : M Z :=
  rc <- sys_write fd data ;;
  e <- errno ;;
  if (rc <? 0) && (e =? EINTR) then
    match fuel with
    | S k => write_retry k fd data
    | O => ret rc
    end
  else ret rc.

Definition nointr_write (src : string) (size : nat) : M Z :=
  let n_bytes := 0 in
  ev <- wait_for_event POLLOUT ;;
  if 0 <? ev then
    c <- this ;;
    w <- env ;;
    rc <- write_retry (List.length (w_writes w)) (m_fd c) (take size src) ;;
    e <- errno ;;
    if (rc <? 0) && negb (e =? EWOULDBLOCK) && negb (e =? EAGAIN) then
      assign (set_error ("Failed to write data: " ++ strerror e)) ;;
      ret (-1)
    else if 0 <? rc then ret (n_bytes + rc)
    else ret n_bytes
  else ret n_bytes.

(** The two handshake steps share their shape: write, read up to
    [READBUF_SIZE] bytes into an uninitialised buffer, compare its first
    three bytes with ["OK\n"].  [buf[bytes] = '\0'] is outside the buffer when
    it was filled completely. *)
Definition doAuth : M bool :=
  c <- this ;;
  let auth_str := generateAuthString (m_user c) (m_password c) in
  wr <- nointr_write auth_str (String.length auth_str) ;;
  if wr =? -1 then
    e <- errno ;;
    assign (set_error ("Failed to write authentication data: " ++ strerror e)) ;;
    ret false
  else
    buf <- stack_buffer READBUF_SIZE ;;
    r <- nointr_read READBUF_SIZE ;;
    let '(bytes, got) := r in
    let buf := got ++ drop (String.length got) buf in
    if bytes =? -1 then
      e <- errno ;;
      assign (set_error ("Failed to read authentication response: " ++ strerror e)) ;;
      ret false
    else if memcmp_differs buf OK_RESPONSE (String.length OK_RESPONSE) then
      if bytes <? Z.of_nat READBUF_SIZE then
        let buf := take (Z.to_nat bytes) buf ++ String NUL EmptyString in
        assign (fun c => set_error ("Authentication failed: " ++ c_str buf) c) ;;
        ret false
      else undefined
    else ret true.

Definition doRegistration : M bool :=
  let reg_msg := REGISTER_MSG in
  let reg_msg := reg_msg ++ "JSON" in
  wr <- nointr_write reg_msg (String.length reg_msg) ;;
  if wr =? -1 then
    e <- errno ;;
    assign (set_error ("Failed to write registration message: " ++ strerror e)) ;;
    ret false
  else
    buf <- stack_buffer READBUF_SIZE ;;
    r <- nointr_read READBUF_SIZE ;;
    let '(bytes, got) := r in
    let buf := got ++ drop (String.length got) buf in
    if bytes =? -1 then
      e <- errno ;;
      assign (set_error ("Failed to read registration response: " ++ strerror e)) ;;
      ret false
    else if memcmp_differs buf OK_RESPONSE (String.length OK_RESPONSE) then
      if bytes <? Z.of_nat READBUF_SIZE then
        let buf := take (Z.to_nat bytes) buf ++ String NUL EmptyString in
        assign (fun c => set_error ("Registration failed: " ++ c_str buf) c) ;;
        ret false
      else undefined
    else ret true.

Definition createConnection : M bool :=
  let rval := false in
  c <- this ;;
  if negb (inet_aton (c_str (m_address c))) then
    assign (set_error ("Invalid address: " ++ m_address c)) ;;
    ret rval
  else
    fd <- sys_call SysSocket ;;
    (if fd =? -1 then
       e <- errno ;;
       assign (set_error ("Failed to create socket: " ++ strerror e))
     else ret tt) ;;
    assign (set_fd fd) ;;
    co <- sys_call (SysConnect fd (c_str (m_address c)) (m_port c)) ;;
    if co =? -1 then
      e <- errno ;;
      assign (set_error ("Failed to connect: " ++ strerror e)) ;;
      ret rval
    else
      fl <- sys_call (SysFcntl fd F_GETFL 0) ;;
      nonblocking <-
        (if fl =? -1 then ret false
         else
           sf <- sys_call (SysFcntl fd F_SETFL (Z.lor fl O_NONBLOCK)) ;;
           ret (negb (sf =? -1))) ;;
      if negb nonblocking then
        e <- errno ;;
        assign (set_error ("Failed to set socket non-blocking: " ++ strerror e)) ;;
        ret rval
      else
        a <- doAuth ;;
        if a then doRegistration else ret rval.

Definition closeConnection : M unit :=
  c <- this ;;
  if negb (m_fd c =? -1) then
    nointr_write CLOSE_MSG (String.length CLOSE_MSG) ;;
    sys_close (m_fd c) ;;
    assign (set_fd (-1))
  else ret tt.


Definition requestData (table gtid : string) : M bool :=
  let rval := true in
  let req_msg := REQUEST_MSG in
  let req_msg := req_msg ++ table in
  let req_msg :=
    if negb (Nat.eqb (String.length gtid) 0) then (req_msg ++ " ") ++ gtid else req_msg in
  wr <- nointr_write req_msg (String.length req_msg) ;;
  if wr =? -1 then
    e <- errno ;;
    assign (set_error ("Failed to write request: " ++ strerror e)) ;;
    ret false
  else ret rval.

(** The body of [json_array_foreach] in [processSchema]: the two
    initialisers, then the two [push_back]s.  A [std::string] constructed from
    the null pointer that [json_string_value] answers for a value that is not
    a string is undefined: [nameval] is [None] then. *)
Definition schema_type (v : json) : option json :=
  let type := json_object_get (Some v) "real_type" in
  match type with
  | None => json_object_get (Some v) "type"
  | Some _ => type
  end.

Definition schema_nameval (v : json) : option string :=
  let name := json_object_get (Some v) "name" in
  match name with
  | Some _ =>
      match json_string_value name with
      | Some s => Some (c_str s)
      | None => None
      end
  | None => Some ""
  end.

Definition schema_typeval (v : json) : string :=
  let type := schema_type v in
  match type with
  | Some _ =>
      if json_is_string type then
        match json_string_value type with
        | Some s => c_str s
        | None => ""
        end
      else "char(50)"
  | None => "undefined"
  end.

Definition processSchema_field (v : json) : M unit :=
  nameval <-
    match schema_nameval v with
    | Some s => ret s
    | None => undefined
    end ;;
  let typeval := schema_typeval v in
  assign (fun c => set_keys (m_keys c ++ [nameval]) c) ;;
  assign (fun c => set_types (m_types c ++ [typeval]) c).

Fixpoint processSchema_loop (elems : list json) : M unit :=
  match elems with
  | [] => ret tt
  | v :: rest => processSchema_field v ;; processSchema_loop rest
  end.

(** [json_dumps] is called and its result dropped: no effect on the state. *)
Definition processSchema (json : option json) : M unit :=
  assign (set_keys []) ;;
  assign (set_types []) ;;
  let arr := json_object_get json "fields" in
  processSchema_loop (json_array_elems arr).

(** The loop of [processRow] over [m_keys], from the iterator's position. *)
Fixpoint processRow_loop (js : option json) (keys : list string) (values : list string)
    : M (list string) :=
  match keys with
  | [] => ret values
  | it :: rest =>
      match json_object_get js it with
      | Some v => processRow_loop js rest (values ++ [json_to_string v])
      | None =>
          assign (set_error "No value for key found: ") ;;
          assign (fun c => set_error (m_error c ++ it) c) ;;
          ret values
      end
  end.

Definition processRow (js : option json) : M Row :=
  assign (set_error "") ;;
  c <- this ;;
  values <- processRow_loop js (m_keys c) [] ;;
  c <- this ;;
  if Nat.eqb (String.length (m_error c)) 0 then
    new_row (InternalRow.mk (m_keys c) (m_types c) values)
  else ret None.

(** The loop of [readRow]; every repetition uses up one answer of [poll]. *)
Fixpoint readRow_loop (fuel : nat) (dest : string) : M (bool * string) :=
  r <- nointr_read 1 ;;
  let '(rc, got) := r in
  if rc =? -1 then
    e <- errno ;;
    assign (set_error ("Failed to read row: " ++ strerror e)) ;;
    ret (false, dest)
  else if rc =? 0 then
    assign (set_error "Request timed out") ;;
    ret (false, dest)
  else
    let buf := char_at got 0 in
    if Ascii.eqb buf newline then ret (true, dest)
    else
      let dest := dest ++ String buf EmptyString in
      if is_err_prefix dest then
        assign (set_error "Server responded with an error: ") ;;
        assign (fun c => set_error (m_error c ++ dest) c) ;;
        ret (false, dest)
      else
        match fuel with
        | S k => readRow_loop k dest
        | O => ret (false, dest)
        end.

Definition readRow (dest : string) : M (bool * string) :=
  w <- env ;;
  readRow_loop (List.length (w_polls w)) dest.

(** [read] calls itself after a schema line; the line it has just read used
    up answers of [poll], which bounds the recursion. *)
Fixpoint read_rec (fuel : nat) : M Row :=
  let rval : Row := None in
  r <- readRow "" ;;
  let '(ok, row) := r in
  if ok then
    match json_loads (c_str row) with
    | inl js =>
        if is_schema (Some js) then
          assign (set_schema row) ;;
          processSchema (Some js) ;;
          match fuel with
          | S k => read_rec k
          | O => ret rval
          end
        else processRow (Some js)
    | inr text =>
        assign (set_error "Failed to parse JSON: ") ;;
        assign (fun c => set_error (m_error c ++ c_str text) c) ;;
        ret rval
    end
  else ret rval.

Definition read : M Row :=
  w <- env ;;
  read_rec (List.length (w_polls w)).

End Methods.

(** ** A reference platform

    The theorems hold for every [Platform].  To run the connector on
    concrete input the development also carries one instance: SHA-1 as
    FIPS 180-4 defines it, and a decoder for the JSON that the CDC service
    emits (objects, arrays, strings, integers, literals; a real is refused). *)
Module Sha1.

Definition w32 (x : Z) : Z := x mod 2 ^ 32.

Definition rotl (n x : Z) : Z :=
  w32 (Z.lor (Z.shiftl x n) (Z.shiftr x (32 - n))).

Definition not32 (x : Z) : Z := Z.lxor x (2 ^ 32 - 1).

Fixpoint bytes_of (s : string) : list Z :=
  match s with
  | EmptyString => []
  | String c rest => byte_val c :: bytes_of rest
  end.

(** The message, the bit 1, zeros to 56 modulo 64, then the bit length on
    eight bytes, most significant first. *)
Definition pad (msg : list Z) : list Z :=
  let len := Z.of_nat (List.length msg) in
  let zeros := Z.to_nat ((55 - len) mod 64) in
  let bits := len * 8 in
  (msg ++ 128 :: repeat 0 zeros ++
   map (fun i => Z.shiftr bits (8 * (7 - Z.of_nat i)) mod 256) (seq 0 8))%list.

Fixpoint words_of (fuel : nat) (bytes : list Z) : list Z :=
  match fuel, bytes with
  | S k, a :: b :: c :: d :: rest =>
      (a * 2 ^ 24 + b * 2 ^ 16 + c * 2 ^ 8 + d) :: words_of k rest
  | _, _ => []
  end.

(** The message schedule, latest word first. *)
Fixpoint schedule (steps : nat) (w : list Z) : list Z :=
  match steps with
  | O => w
  | S k =>
      let x := Z.lxor (Z.lxor (nth 2 w 0) (nth 7 w 0)) (Z.lxor (nth 13 w 0) (nth 15 w 0)) in
      schedule k (rotl 1 x :: w)
  end.

Definition state : Type := (Z * Z * Z * Z * Z)%type.

Definition round (t : nat) (st : state) (wt : Z) : state :=
  let '(a, b, c, d, e) := st in
  let '(f, k) :=
    if (t <? 20)%nat then (Z.lor (Z.land b c) (Z.land (not32 b) d), 1518500249)
    else if (t <? 40)%nat then (Z.lxor (Z.lxor b c) d, 1859775393)
    else if (t <? 60)%nat then
      (Z.lor (Z.lor (Z.land b c) (Z.land b d)) (Z.land c d), 2400959708)
    else (Z.lxor (Z.lxor b c) d, 3395469782) in
  let temp := w32 (rotl 5 a + f + e + k + wt) in
  (temp, a, rotl 30 b, c, d).

Fixpoint rounds (t : nat) (ws : list Z) (st : state) : state :=
  match ws with
  | [] => st
  | wt :: rest => rounds (S t) rest (round t st wt)
  end.

Definition block (st : state) (w16 : list Z) : state :=
  let ws := rev (schedule 64 (rev w16)) in
  let '(a, b, c, d, e) := rounds 0 ws st in
  let '(h0, h1, h2, h3, h4) := st in
  (w32 (h0 + a), w32 (h1 + b), w32 (h2 + c), w32 (h3 + d), w32 (h4 + e)).

Fixpoint blocks (fuel : nat) (ws : list Z) (st : state) : state :=
  match fuel, ws with
  | S k, _ :: _ => blocks k (skipn 16 ws) (block st (firstn 16 ws))
  | _, _ => st
  end.

Definition initial : state :=
  (1732584193, 4023233417, 2562383102, 271733878, 3285377520).

Definition byte_of (x : Z) : ascii := ascii_of_N (Z.to_N (x mod 256)).

Definition word_bytes (x : Z) (tail : string) : string :=
  String (byte_of (Z.shiftr x 24)) (String (byte_of (Z.shiftr x 16))
    (String (byte_of (Z.shiftr x 8)) (String (byte_of x) tail))).

Definition digest_of (st : state) : string :=
  let '(a, b, c, d, e) := st in
  word_bytes a (word_bytes b (word_bytes c (word_bytes d (word_bytes e EmptyString)))).

Definition sha1 (msg : string) : string :=
  let bytes := pad (bytes_of msg) in
  let ws := words_of (List.length bytes) bytes in
  digest_of (blocks (List.length ws) ws initial).

End Sha1.

Module TinyJson.

Definition dquote : ascii := "034"%char.
Definition backslash : ascii := "092"%char.

Definition is_ws (c : ascii) : bool :=
  Ascii.eqb c " "%char || Ascii.eqb c "009"%char ||
  Ascii.eqb c "010"%char || Ascii.eqb c "013"%char.

Fixpoint skip_ws (s : string) : string :=
  match s with
  | String c rest => if is_ws c then skip_ws rest else s
  | EmptyString => s
  end.

Definition digit_of (c : ascii) : option Z :=
  let n := byte_val c in
  if (48 <=? n) && (n <=? 57) then Some (n - 48) else None.

Definition hex_of (c : ascii) : option Z :=
  let n := byte_val c in
  if (48 <=? n) && (n <=? 57) then Some (n - 48)
  else if (97 <=? n) && (n <=? 102) then Some (n - 87)
  else if (65 <=? n) && (n <=? 70) then Some (n - 55)
  else None.

Fixpoint digits (s : string) (acc : Z) : Z * string :=
  match s with
  | String c rest =>
      match digit_of c with
      | Some d => digits rest (acc * 10 + d)
      | None => (acc, s)
      end
  | EmptyString => (acc, s)
  end.

Definition simple_escape (c : ascii) : option ascii :=
  if Ascii.eqb c dquote then Some dquote
  else if Ascii.eqb c backslash then Some backslash
  else if Ascii.eqb c "/"%char then Some "/"%char
  else if Ascii.eqb c "b"%char then Some "008"%char
  else if Ascii.eqb c "f"%char then Some "012"%char
  else if Ascii.eqb c "n"%char then Some "010"%char
  else if Ascii.eqb c "r"%char then Some "013"%char
  else if Ascii.eqb c "t"%char then Some "009"%char
  else None.

(** After the opening quote: the decoded string and what follows the closing
    quote.  Of the [\u] escapes only those below U+0080 are decoded. *)
Fixpoint string_body (s : string) (acc : string) : option (string * string) :=
  match s with
  | EmptyString => None
  | String c rest =>
      if Ascii.eqb c dquote then Some (acc, rest)
      else if Ascii.eqb c backslash then
        match rest with
        | String e rest' =>
            if Ascii.eqb e "u"%char then
              match rest' with
              | String h1 (String h2 (String h3 (String h4 rest''))) =>
                  match hex_of h1, hex_of h2, hex_of h3, hex_of h4 with
                  | Some 0, Some 0, Some a, Some b =>
                      if a <? 8 then
                        string_body rest''
                          (acc ++ String (ascii_of_N (Z.to_N (a * 16 + b))) EmptyString)
                      else None
                  | _, _, _, _ => None
                  end
              | _ => None
              end
            else
              match simple_escape e with
              | Some x => string_body rest' (acc ++ String x EmptyString)
              | None => None
              end
        | EmptyString => None
        end
      else if byte_val c <? 32 then None
      else string_body rest (acc ++ String c EmptyString)
  end.

(** A key parsed twice keeps its place and takes the later value. *)
Fixpoint object_set (key : string) (v : json) (members : list (string * json))
    : list (string * json) :=
  match members with
  | [] => [(key, v)]
  | (k, x) :: rest =>
      if String.eqb k key then (k, v) :: rest else (k, x) :: object_set key v rest
  end.

Definition number (s : string) : option (json * string) :=
  let '(neg, s1) :=
    match s with
    | String c rest => if Ascii.eqb c "-"%char then (true, rest) else (false, s)
    | EmptyString => (false, s)
    end in
  match s1 with
  | String c _ =>
      match digit_of c with
      | None => None
      | Some _ =>
          let '(n, rest) := digits s1 0 in
          match rest with
          | String x _ =>
              if Ascii.eqb x "."%char || Ascii.eqb x "e"%char || Ascii.eqb x "E"%char
              then None
              else Some (JInteger (if neg then - n else n), rest)
          | EmptyString => Some (JInteger (if neg then - n else n), rest)
          end
      end
  | EmptyString => None
  end.

Fixpoint value (fuel : nat) (s : string) : option (json * string) :=
  match fuel with
  | O => None
  | S k =>
      match skip_ws s with
      | EmptyString => None
      | String c rest as s0 =>
          if Ascii.eqb c "{"%char then
            match skip_ws rest with
            | String d rest' as r =>
                if Ascii.eqb d "}"%char then Some (JObject [], rest') else members k r []
            | EmptyString => None
            end
          else if Ascii.eqb c "["%char then
            match skip_ws rest with
            | String d rest' as r =>
                if Ascii.eqb d "]"%char then Some (JArray [], rest') else elements k r []
            | EmptyString => None
            end
          else if Ascii.eqb c dquote then
            match string_body rest "" with
            | Some (str, r) => Some (JString str, r)
            | None => None
            end
          else if String.prefix "true" s0 then Some (JTrue, drop 4 s0)
          else if String.prefix "false" s0 then Some (JFalse, drop 5 s0)
          else if String.prefix "null" s0 then Some (JNull, drop 4 s0)
          else number s0
      end
  end
with members (fuel : nat) (s : string) (acc : list (string * json))
    : option (json * string) :=
  match fuel with
  | O => None
  | S k =>
      match skip_ws s with
      | String c rest =>
          if Ascii.eqb c dquote then
            match string_body rest "" with
            | Some (key, r1) =>
                match skip_ws r1 with
                | String colon r2 =>
                    if Ascii.eqb colon ":"%char then
                      match value k r2 with
                      | Some (v, r3) =>
                          match skip_ws r3 with
                          | String sep r4 =>
                              if Ascii.eqb sep ","%char then members k r4 (object_set key v acc)
                              else if Ascii.eqb sep "}"%char
                              then Some (JObject (object_set key v acc), r4)
                              else None
                          | EmptyString => None
                          end
                      | None => None
                      end
                    else None
                | EmptyString => None
                end
            | None => None
            end
          else None
      | EmptyString => None
      end
  end
with elements (fuel : nat) (s : string) (acc : list json) : option (json * string) :=
  match fuel with
  | O => None
  | S k =>
      match value k s with
      | Some (v, r) =>
          match skip_ws r with
          | String sep r' =>
              if Ascii.eqb sep ","%char then elements k r' (acc ++ [v])
              else if Ascii.eqb sep "]"%char then Some (JArray (acc ++ [v]), r')
              else None
          | EmptyString => None
          end
      | None => None
      end
  end.

(** The whole text must be one object or array. *)
Definition loads (text : string) : json + string :=
  match value (S (String.length text)) text with
  | Some (JObject m, rest) =>
      match skip_ws rest with
      | EmptyString => inl (JObject m)
      | String _ _ => inr "end of file expected"
      end
  | Some (JArray l, rest) =>
      match skip_ws rest with
      | EmptyString => inl (JArray l)
      | String _ _ => inr "end of file expected"
      end
  | Some _ => inr "'[' or '{' expected"
  | None => inr "invalid token"
  end.

End TinyJson.

(** Source text of the examples is written with ['] for the double quote. *)
Fixpoint q (s : string) : string :=
  match s with
  | EmptyString => EmptyString
  | String c rest => String (if Ascii.eqb c "'"%char then TinyJson.dquote else c) (q rest)
  end.

(** Addresses in dotted-decimal form, four numbers up to 255. *)
Fixpoint dotted_quad (parts : nat) (digits : nat) (acc : Z) (cp : string) : bool :=
  match cp with
  | EmptyString => Nat.eqb parts 3 && negb (Nat.eqb digits 0)
  | String c rest =>
      if Ascii.eqb c "."%char then
        negb (Nat.eqb digits 0) && dotted_quad (S parts) 0 0 rest
      else
        match TinyJson.digit_of c with
        | Some d =>
            let acc := acc * 10 + d in
            (acc <=? 255) && dotted_quad parts (S digits) acc rest
        | None => false
        end
  end.

Definition reference_inet_aton (cp : string) : bool := dotted_quad 0 0 0 cp.

Definition reference_strerror (e : Z) : string :=
  "errno " ++ integer_to_string e.

(** The decoder above yields no real, so this platform is never asked to
    format one. *)
Definition reference_real_to_string (r : double) : string := "".

(** The socket has every byte of [bytes] ready, and the connector reads them
    one [poll] and one [read] at a time. *)
Fixpoint ready (events : Z) (bytes : string) : list poll_reply :=
  match bytes with
  | EmptyString => []
  | String _ rest => PollReady events :: ready events rest
  end.

Fixpoint one_by_one (bytes : string) : list read_reply :=
  match bytes with
  | EmptyString => []
  | String b rest => ReadData (String b EmptyString) :: one_by_one rest
  end.

Definition serving (bytes : string) : World :=
  mkWorld [] (ready POLLIN bytes) (one_by_one bytes) [] 0 "" [].

Definition LF : string := String newline EmptyString.

(** ** What the specification's words denote *)

(** Lower-case hexadecimal: two digits per byte, the high one first. *)
Definition hex_digit (n : N) : ascii :=
  ascii_of_N (if (n <? 10)%N then 48 + n else 87 + n)%N.

Fixpoint hex_encode (bytes : string) : string :=
  match bytes with
  | EmptyString => EmptyString
  | String b rest =>
      String (hex_digit (N_of_ascii b / 16)) (String (hex_digit (N_of_ascii b mod 16))
        (hex_encode rest))
  end.

(** The type rule of a schema field as the specification words it: the stored
    type [t] "is the value of real_type if present, else the value of type if
    that value is a plain string, else char(50), else undefined". *)
Definition spec_field_type (v : json) (t : string) : Prop :=
  match json_object_get (Some v) "real_type" with
  | Some x => x = JString t
  | None =>
      match json_object_get (Some v) "type" with
      | Some (JString s) => t = s
      | Some _ => t = "char(50)"
      | None => t = "undefined"
      end
  end.

(** The name rule: "the value of name, empty string if absent". *)
Definition spec_field_name (v : json) (n : string) : Prop :=
  match json_object_get (Some v) "name" with
  | Some x => x = JString n
  | None => n = ""
  end.

(** ** The invariants of the data model *)

Definition registry_ok (c : Connection) : Prop :=
  List.length (m_keys c) = List.length (m_types c).

Definition row_ok (r : InternalRow.t) : Prop :=
  List.length (InternalRow.m_values r) = List.length (InternalRow.m_keys r) /\
  List.length (InternalRow.m_keys r) = List.length (InternalRow.m_types r).

Definition Inv (s : Machine) : Prop :=
  registry_ok (conn s) /\ Forall row_ok (heap s).

(** The public operations of a [Connection]. *)
Inductive operation : Type :=
| Op_createConnection
| Op_requestData (table gtid : string)
| Op_read
| Op_closeConnection.

Definition perform {P : Platform} (op : operation) : M unit :=
  match op with
  | Op_createConnection => createConnection ;; ret tt
  | Op_requestData table gtid => requestData table gtid ;; ret tt
  | Op_read => read ;; ret tt
  | Op_closeConnection => closeConnection
  end.

(** A freshly constructed connection in a given environment. *)
Definition start (c : Connection) (w : World) : Machine := mkMachine c w [].

(** ** Reasoning about the monad *)

(** [keeps R m]: every run of [m] that returns relates the states before and
    after by [R]. *)
Definition keeps {A : Type} (R : Machine -> Machine -> Prop) (m : M A) : Prop :=
  forall s a s', m s = Some (a, s') -> R s s'.

(** [total m]: [m] returns from every state. *)
Definition total {A : Type} (m : M A) : Prop :=
  forall s, exists a s', m s = Some (a, s').

(** The registry and the heap are untouched. *)
Definition registry_frame (s s' : Machine) : Prop :=
  m_keys (conn s') = m_keys (conn s) /\
  m_types (conn s') = m_types (conn s) /\
  heap s' = heap s.

(** The heap only grows: what a [Row] points to stays. *)
Definition heap_grows (s s' : Machine) : Prop :=
  exists more, heap s' = (heap s ++ more)%list.

(** The answers of [poll] are only used up. *)
Definition polls_left (s : Machine) : nat := List.length (w_polls (world s)).

Definition polls_used (s s' : Machine) : Prop := (polls_left s' <= polls_left s)%nat.

(** The trace grows by calls that satisfy [Q]. *)
Definition emits (Q : syscall -> Prop) (s s' : Machine) : Prop :=
  exists evs, w_trace (world s') = (w_trace (world s) ++ evs)%list /\ Forall Q evs.

Definition writes_only (data : string) (e : syscall) : Prop :=
  match e with
  | SysWrite _ d => d = data
  | _ => True
  end.

(** The assignments that leave the registry alone. *)
Definition registry_fields_kept (f : Connection -> Connection) : Prop :=
  forall c, m_keys (f c) = m_keys c /\ m_types (f c) = m_types c.

Definition inv_kept (s s' : Machine) : Prop := Inv s -> Inv s'.

Definition fd_kept (s s' : Machine) : Prop := m_fd (conn s') = m_fd (conn s).

Definition any_call (e : syscall) : Prop := True.

(** ** Closed forms of the schema and row loops *)

(** The names of all fields, when every one of them can be built. *)
Fixpoint schema_namevals (elems : list json) : option (list string) :=
  match elems with
  | [] => Some []
  | v :: rest =>
      match schema_nameval v, schema_namevals rest with
      | Some n, Some ns => Some (n :: ns)
      | _, _ => None
      end
  end.

Definition schema_fields (js : option json) : list json :=
  json_array_elems (json_object_get js "fields").

Definition with_registry (keys types : list string) (s : Machine) : Machine :=
  mkMachine (set_types types (set_keys keys (conn s))) (world s) (heap s).

(** One unfolding of [read_rec]. *)
Definition set_schema_in (row : string) (s : Machine) : Machine :=
  mkMachine (set_schema row (conn s)) (world s) (heap s).

Definition parse_error_in (text : string) (s : Machine) : Machine :=
  mkMachine (set_error ("Failed to parse JSON: " ++ c_str text) (conn s)) (world s) (heap s).

Definition missing_key_error (k : string) : string := "No value for key found: " ++ k.

(** What [processSchema] stores for a field.  A string is stored as the C
    string that [json_string_value] points to, so up to its first NUL byte. *)
Definition stored_name (v : json) (n : string) : Prop :=
  match json_object_get (Some v) "name" with
  | Some (JString x) => n = c_str x
  | Some _ => False
  | None => n = ""
  end.

Definition stored_type (v : json) (t : string) : Prop :=
  match json_object_get (Some v) "real_type" with
  | Some (JString x) => t = c_str x
  | Some _ => t = "char(50)"
  | None =>
      match json_object_get (Some v) "type" with
      | Some (JString x) => t = c_str x
      | Some _ => t = "char(50)"
      | None => t = "undefined"
      end
  end.

Definition name_is_string_if_present (v : json) : Prop :=
  match json_object_get (Some v) "name" with
  | Some x => exists n, x = JString n
  | None => True
  end.


Section RowValues.
Context {P : Platform}.

(** The values collected up to the first key that the object lacks, and that
    key. *)
Fixpoint collect (js : option json) (keys : list string) : list string * option string :=
  match keys with
  | [] => ([], None)
  | k :: rest =>
      match json_object_get js k with
      | Some v => let '(vs, miss) := collect js rest in (json_to_string v :: vs, miss)
      | None => ([], Some k)
      end
  end.

Definition field_value (js : option json) (k : string) : string :=
  match json_object_get js k with
  | Some v => json_to_string v
  | None => ""
  end.

End RowValues.

(** ** The reference platform is a platform *)

Lemma sha1_length (msg : string) : String.length (Sha1.sha1 msg) = SHA_DIGEST_LENGTH.
Proof.
  unfold Sha1.sha1.
  destruct (Sha1.blocks _ _ _) as [[[[a b] c] d] e].
  reflexivity.
Qed.

#[local] Instance reference_platform : Platform := {|
  SHA1 := Sha1.sha1;
  SHA1_length := sha1_length;
  json_loads := TinyJson.loads;
  inet_aton := reference_inet_aton;
  strerror := reference_strerror;
  real_to_string := reference_real_to_string
|}.

(** ** The running example: the lines of the specification *)

Definition example_world : World := serving "".

Definition example_connection : Connection :=
  new_Connection "127.0.0.1" 4001 "maxscale" "maxscale" 10.

(** A connected session: the descriptor is open and the environment is [w]. *)
Definition session (w : World) : Machine :=
  mkMachine (set_fd 3 example_connection) w [].

Definition example_schema : json :=
  JObject [("fields", JArray [
    JObject [("name", JString "domain"); ("real_type", JString "int")];
    JObject [("name", JString "server_id"); ("real_type", JString "int")];
    JObject [("name", JString "sequence"); ("real_type", JString "int")];
    JObject [("name", JString "col1"); ("real_type", JString "varchar(10)")]])].

Definition example_schema_line : string :=
  q "{'fields':[{'name':'domain','real_type':'int'},{'name':'server_id','real_type':'int'},{'name':'sequence','real_type':'int'},{'name':'col1','real_type':'varchar(10)'}]}".

Definition example_row_line : string :=
  q "{'domain':0,'server_id':1,'sequence':5,'col1':'hello'}".

Definition example_row : json :=
  JObject [("domain", JInteger 0); ("server_id", JInteger 1);
           ("sequence", JInteger 5); ("col1", JString "hello")].

(** The connection after the schema of the example has been announced. *)
Definition example_machine : Machine :=
  with_registry ["domain"; "server_id"; "sequence"; "col1"]
                ["int"; "int"; "int"; "varchar(10)"]
                (start example_connection example_world).

(** The stream of the example: the schema line, then the row line. *)
Definition example_stream : World :=
  serving (example_schema_line ++ LF ++ example_row_line ++ LF).

Definition other_schema : json :=
  JObject [("fields", JArray [
    JObject [("name", JString "id"); ("type", JString "long")];
    JObject [("name", JString "note"); ("type", JArray [JString "null"; JString "string"])]])].

Definition bad_schema_line : string := q "{'fields':[{'name':1}]}".

Definition x_nul_y : string := String "x" (String NUL (String "y" EmptyString)).

Definition maxscale_token : string :=
  "6d61787363616c653a9f2a83c4ebdbf57b0e5fd748f2b60bc604212137".

(** ** Notions used by the further properties *)

(** The machine after one [poll] and one one-byte [read] that both took
    the first answer of their scripts. *)
Definition after_byte (s : Machine) : Machine :=
  mkMachine (conn s)
    (with_reads (tl (w_reads (world s)))
       (log (SysRead (m_fd (conn s)) 1)
          (with_polls (tl (w_polls (world s)))
             (log (SysPoll (m_fd (conn s)) POLLIN (int_mul (m_timeout (conn s)) 1000)) (world s)))))
    (heap s).

Fixpoint after_bytes (n : nat) (s : Machine) : Machine :=
  match n with
  | O => s
  | S k => after_bytes k (after_byte s)
  end.

(** The text starts with the error marker. *)
Definition starts_with_marker (text : string) : Prop :=
  exists rest, text = "ERR" ++ rest.

(** The first answer of [poll] does not let a transfer start: the script is
    empty, or the answer is a timeout, a failure, or readiness with an error
    flag. *)
Definition not_ready (polls : list poll_reply) : Prop :=
  match polls with
  | [] => True
  | PollTimeout :: _ => True
  | PollFail _ :: _ => True
  | PollReady revents :: _ => is_poll_error revents = true
  end.

(** The first answer of [read] transfers nothing and is no failure that
    [nointr_read] reports: end of file, or [EAGAIN]. *)
Definition nothing_read (reads : list read_reply) : Prop :=
  match reads with
  | [] => True
  | ReadData bytes :: _ => bytes = ""
  | ReadFail en :: _ => en = EAGAIN
  end.

(** A field, or a tuple of fields, of the connection is as before. *)
Definition conn_kept {A : Type} (proj : Connection -> A) (s s' : Machine) : Prop :=
  proj (conn s') = proj (conn s).

(** What the constructor received. *)
Definition identity (c : Connection) : Z * string * string * string * Z :=
  (m_port c, m_address c, m_user c, m_password c, m_timeout c).

(** What a session has learnt from the stream. *)
Definition session_data (c : Connection) : string * list string * list string :=
  (m_schema c, m_keys c, m_types c).

Definition input_call (e : syscall) : Prop :=
  match e with
  | SysPoll _ _ _ => True
  | SysRead _ _ => True
  | _ => False
  end.

(** The calls of a best-effort write of [data]: polls and writes of [data]. *)
Definition output_call (data : string) (e : syscall) : Prop :=
  match e with
  | SysPoll _ _ _ => True
  | SysWrite _ d => d = data
  | _ => False
  end.

(** The line that [requestData] sends, as its documentation gives it. *)
Definition request_line (table gtid : string) : string :=
  match gtid with
  | EmptyString => "REQUEST-DATA " ++ table
  | String _ _ => "REQUEST-DATA " ++ table ++ " " ++ gtid
  end.

(** The environment after one exchange of the handshake on the machine [s]:
    a [poll] for writing, a [write] of [sent], a [poll] for reading and a
    [read] into the reply buffer, each taking the first answer of its
    script. *)
Definition after_exchange (sent : string) (s : Machine) : World :=
  let fd := m_fd (conn s) in
  let ms := int_mul (m_timeout (conn s)) 1000 in
  let w1 := with_polls (tl (w_polls (world s))) (log (SysPoll fd POLLOUT ms) (world s)) in
  let w2 := with_writes (tl (w_writes w1)) (log (SysWrite fd sent) w1) in
  let w3 := with_polls (tl (w_polls w2)) (log (SysPoll fd POLLIN ms) w2) in
  with_reads (tl (w_reads w3)) (log (SysRead fd READBUF_SIZE) w3).

(** A reply that starts with the three bytes of [OK_RESPONSE]. *)
Definition accepts (reply : string) : Prop := take 3 reply = OK_RESPONSE.

(** [reports m]: whenever [m] returns [false], it has left a message. *)
Definition reports (m : M bool) : Prop :=
  forall s s', m s = Some (false, s') -> getError (conn s') <> "".

(** The two steps of the handshake are the same exchange around different
    texts; [exchange_reply] is the outcome that both have when the write is
    taken and a reply of at least three bytes arrives in one [read]: success
    on an accepting reply, the reply after [prefix] as the error when it is
    shorter than the buffer, and no defined outcome when it fills the buffer
    (the code then stores the terminator one past the end of the buffer). *)
Definition exchange_reply (prefix sent resp : string) (s : Machine) : option (bool * Machine) :=
  if String.eqb (take 3 resp) OK_RESPONSE
  then Some (true, mkMachine (conn s) (after_exchange sent s) (heap s))
  else if (String.length resp <? READBUF_SIZE)%nat
       then Some (false, mkMachine (set_error (prefix ++ c_str resp) (conn s))
                           (after_exchange sent s) (heap s))
       else None.

(** The system calls of a complete handshake on the descriptor [fd], whose
    flags were [fl], for the connection [c]. *)
Definition handshake_calls {P : Platform} (c : Connection) (fd fl : Z) : list syscall :=
  let ms := m_timeout c * 1000 in
  [ SysSocket;
    SysConnect fd (c_str (m_address c)) (m_port c);
    SysFcntl fd F_GETFL 0;
    SysFcntl fd F_SETFL (Z.lor fl O_NONBLOCK);
    SysPoll fd POLLOUT ms;
    SysWrite fd (generateAuthString (m_user c) (m_password c));
    SysPoll fd POLLIN ms;
    SysRead fd READBUF_SIZE;
    SysPoll fd POLLOUT ms;
    SysWrite fd "REGISTER UUID=CDC_CONNECTOR-1.0.0, TYPE=JSON";
    SysPoll fd POLLIN ms;
    SysRead fd READBUF_SIZE ].

(** ** [Connection::getFields]

    A [ValueMap] is a [std::map] from strings to strings: its entries are
    kept in the order of their keys, one entry per key. *)
Definition ValueMap : Type := list (string * string).

(** [fields[k] = v]: the entry of [k] is created when there is none and
    overwritten when there is one. *)
Fixpoint map_assign (k v : string) (fields : ValueMap) : ValueMap :=
  match fields with
  | [] => [(k, v)]
  | (k', v') :: rest =>
      match String.compare k k' with
      | Lt => (k, v) :: fields
      | Eq => (k, v) :: rest
      | Gt => (k', v') :: map_assign k v rest
      end
  end.

(** [fields.find(k)]: the mapped value, if [k] has an entry. *)
Fixpoint map_find (k : string) (fields : ValueMap) : option string :=
  match fields with
  | [] => None
  | (k', v) :: rest => if String.eqb k' k then Some v else map_find k rest
  end.

(** The loop of [getFields], with [n] iterations left at index [i].  Both
    vectors are indexed with [operator[]], which is undefined past the end. *)
Fixpoint getFields_loop (n i : nat) (c : Connection) (fields : ValueMap) : option ValueMap :=
  match n with
  | O => Some fields
  | S n' =>
      match nth_error (m_keys c) i, nth_error (m_types c) i with
      | Some k, Some t => getFields_loop n' (S i) c (map_assign k t fields)
      | _, _ => None
      end
  end.

Definition getFields (c : Connection) : option ValueMap :=
  let fields : ValueMap := [] in
  getFields_loop (List.length (m_keys c)) 0 c fields.

(** * Theorems *)

Example sha1_abc :
  bin2hex (Sha1.sha1 "abc") 20 = "a9993e364706816aba3e25717850c26c9cd0d89d".
Proof. vm_compute. reflexivity. Qed.

(** ** [int] arithmetic *)

Lemma int_mul_fits (a b : Z) : fits_int (a * b) -> int_mul a b = a * b.
Proof.
  unfold fits_int, int_mul, int_wrap, INT_MIN, INT_MAX. intros H.
  rewrite Z.mod_small by lia. lia.
Qed.

(** ** Strings *)

Lemma append_nil_r (s : string) : s ++ "" = s.
Proof. induction s as [|c s IH]; simpl; [reflexivity | now rewrite IH]. Qed.

Lemma append_assoc (a b c : string) : (a ++ b) ++ c = a ++ (b ++ c).
Proof. induction a as [|x a IH]; simpl; [reflexivity | now rewrite IH]. Qed.

Lemma length_append (a b : string) :
  String.length (a ++ b) = (String.length a + String.length b)%nat.
Proof. induction a as [|x a IH]; simpl; [reflexivity | now rewrite IH]. Qed.

Lemma c_str_nul_free (s : string) : nul_free s -> c_str s = s.
Proof.
  unfold nul_free. induction s as [|c s IH]; simpl; [reflexivity|].
  intros H. apply orb_false_iff in H as [Hc Hs].
  rewrite Hc. now rewrite IH.
Qed.

Lemma c_str_is_nul_free (s : string) : nul_free (c_str s).
Proof.
  unfold nul_free. induction s as [|c s IH]; simpl; [reflexivity|].
  destruct (Ascii.eqb c NUL) eqn:E; simpl; [reflexivity|].
  now rewrite E.
Qed.

Lemma c_str_idem (s : string) : c_str (c_str s) = c_str s.
Proof. apply c_str_nul_free, c_str_is_nul_free. Qed.

Lemma char_at_append (pre : string) (c : ascii) (rest : string) :
  char_at (pre ++ String c rest) (String.length pre) = c.
Proof. unfold char_at. induction pre as [|x pre IH]; simpl; [reflexivity | exact IH]. Qed.

Lemma take_length (s : string) : take (String.length s) s = s.
Proof. induction s as [|c s IH]; simpl; [reflexivity | now rewrite IH]. Qed.

(** ** [bin2hex] is the lower-case hexadecimal encoding *)

Lemma hexconvtab_digits (b : ascii) :
  char_at hexconvtab (Z.to_nat (Z.shiftr (byte_val b) 4)) = hex_digit (N_of_ascii b / 16) /\
  char_at hexconvtab (Z.to_nat (Z.land (byte_val b) 15)) = hex_digit (N_of_ascii b mod 16).
Proof.
  destruct b as [[] [] [] [] [] [] [] []]; split; vm_compute; reflexivity.
Qed.

Lemma bin2hex_loop_spec (data pre result : string) :
  bin2hex_loop (pre ++ data) (String.length pre) (String.length data) result
  = result ++ hex_encode data.
Proof.
  revert pre result.
  induction data as [|b data IH]; intros pre result.
  - simpl. now rewrite append_nil_r.
  - cbn [String.length bin2hex_loop hex_encode].
    rewrite char_at_append.
    destruct (hexconvtab_digits b) as [-> ->].
    replace (pre ++ String b data) with ((pre ++ String b "") ++ data)
      by (rewrite append_assoc; reflexivity).
    replace (S (String.length pre)) with (String.length (pre ++ String b ""))
      by (rewrite length_append; simpl; lia).
    rewrite IH, !append_assoc. reflexivity.
Qed.

Lemma bin2hex_spec (data : string) :
  bin2hex data (String.length data) = hex_encode data.
Proof. unfold bin2hex. exact (bin2hex_loop_spec data "" ""). Qed.

Lemma hex_digits_not_newline (b : ascii) :
  Ascii.eqb (hex_digit (N_of_ascii b / 16)) newline = false /\
  Ascii.eqb (hex_digit (N_of_ascii b mod 16)) newline = false.
Proof.
  destruct b as [[] [] [] [] [] [] [] []]; split; vm_compute; reflexivity.
Qed.

Lemma hex_encode_no_newline (data : string) : str_has newline (hex_encode data) = false.
Proof.
  induction data as [|b data IH]; [reflexivity|].
  cbn [hex_encode str_has].
  destruct (hex_digits_not_newline b) as [-> ->]. exact IH.
Qed.

Lemma str_has_append (c : ascii) (a b : string) :
  str_has c (a ++ b) = str_has c a || str_has c b.
Proof.
  induction a as [|x a IH]; [reflexivity|].
  cbn [append str_has]. rewrite IH. now rewrite orb_assoc.
Qed.

(** ** The laws of [keeps] and [total] *)

Section Laws.
Context {A B : Type} (R : Machine -> Machine -> Prop) `{!PreOrder R}.

Lemma keeps_ret (a : A) : keeps R (ret a).
Proof. intros s x s' H. inversion H; subst. reflexivity. Qed.

Lemma keeps_bind (m : M A) (k : A -> M B) :
  keeps R m -> (forall a, keeps R (k a)) -> keeps R (bind m k).
Proof.
  intros Hm Hk s b s' H. unfold bind in H.
  destruct (m s) as [[a s1]|] eqn:E; [|discriminate].
  transitivity s1; [eapply Hm | eapply Hk]; eassumption.
Qed.

Lemma keeps_undefined : keeps R (@undefined A).
Proof. intros s a s' H. discriminate. Qed.

Lemma keeps_this : keeps R this.
Proof. intros s a s' H. inversion H; subst. reflexivity. Qed.

Lemma keeps_env : keeps R env.
Proof. intros s a s' H. inversion H; subst. reflexivity. Qed.

Lemma keeps_errno : keeps R errno.
Proof. intros s a s' H. inversion H; subst. reflexivity. Qed.

Lemma keeps_stack_buffer (n : nat) : keeps R (stack_buffer n).
Proof. intros s a s' H. inversion H; subst. reflexivity. Qed.

End Laws.

Lemma keeps_weaken {A : Type} (R R' : Machine -> Machine -> Prop) (m : M A) :
  (forall s s', R s s' -> R' s s') -> keeps R m -> keeps R' m.
Proof. intros HR Hm s a s' H. apply HR. eapply Hm. eassumption. Qed.

Lemma keeps_assign (R : Machine -> Machine -> Prop) (f : Connection -> Connection) :
  (forall s, R s (mkMachine (f (conn s)) (world s) (heap s))) -> keeps R (assign f).
Proof. intros Hf s a s' H. inversion H; subst. apply Hf. Qed.

Lemma keeps_set_env (R : Machine -> Machine -> Prop) (w : World) :
  (forall s, R s (mkMachine (conn s) w (heap s))) -> keeps R (set_env w).
Proof. intros Hf s a s' H. inversion H; subst. apply Hf. Qed.

Lemma keeps_new_row (R : Machine -> Machine -> Prop) (r : InternalRow.t) :
  (forall s, R s (mkMachine (conn s) (world s) (heap s ++ [r]))) -> keeps R (new_row r).
Proof. intros Hf s a s' H. inversion H; subst. apply Hf. Qed.

Lemma total_ret {A : Type} (a : A) : total (ret a).
Proof. intros s. now exists a, s. Qed.

Lemma total_bind {A B : Type} (m : M A) (k : A -> M B) :
  total m -> (forall a, total (k a)) -> total (bind m k).
Proof.
  intros Hm Hk s. destruct (Hm s) as (a & s1 & E).
  destruct (Hk a s1) as (b & s2 & E2).
  exists b, s2. unfold bind. now rewrite E.
Qed.

Lemma total_this : total this.
Proof. intros s. now eexists _, _. Qed.

Lemma total_env : total env.
Proof. intros s. now eexists _, _. Qed.

Lemma total_errno : total errno.
Proof. intros s. now eexists _, _. Qed.

Lemma total_assign (f : Connection -> Connection) : total (assign f).
Proof. intros s. now eexists _, _. Qed.

Lemma total_set_env (w : World) : total (set_env w).
Proof. intros s. now eexists _, _. Qed.

Lemma total_stack_buffer (n : nat) : total (stack_buffer n).
Proof. intros s. now eexists _, _. Qed.

#[local] Instance registry_frame_preorder : PreOrder registry_frame.
Proof.
  split.
  - intros s. repeat split.
  - intros a b c (H1 & H2 & H3) (H4 & H5 & H6).
    repeat split; congruence.
Qed.

#[local] Instance heap_grows_preorder : PreOrder heap_grows.
Proof.
  split.
  - intros s. exists []. now rewrite app_nil_r.
  - intros a b c [m1 H1] [m2 H2]. exists (m1 ++ m2)%list.
    now rewrite H2, H1, app_assoc.
Qed.

#[local] Instance polls_used_preorder : PreOrder polls_used.
Proof.
  split.
  - intros s. unfold polls_used. lia.
  - intros a b c. unfold polls_used. lia.
Qed.

#[local] Instance emits_preorder (Q : syscall -> Prop) : PreOrder (emits Q).
Proof.
  split.
  - intros s. exists []. split; [now rewrite app_nil_r | constructor].
  - intros a b c (e1 & H1 & F1) (e2 & H2 & F2). exists (e1 ++ e2)%list.
    split; [now rewrite H2, H1, app_assoc | now apply Forall_app].
Qed.

(** One step of a proof that a composed computation keeps a relation or is
    total: peel the outermost constructor of the computation. *)
Ltac monad_step :=
  match goal with
  | |- keeps _ (bind _ _) => apply keeps_bind; [typeclasses eauto | | intros ?]
  | |- keeps _ (ret _) => apply keeps_ret; typeclasses eauto
  | |- keeps _ undefined => apply keeps_undefined
  | |- keeps _ this => apply keeps_this; typeclasses eauto
  | |- keeps _ env => apply keeps_env; typeclasses eauto
  | |- keeps _ errno => apply keeps_errno; typeclasses eauto
  | |- keeps _ (stack_buffer _) => apply keeps_stack_buffer; typeclasses eauto
  | |- total (bind _ _) => apply total_bind; [ | intros ?]
  | |- total (ret _) => apply total_ret
  | |- total this => apply total_this
  | |- total env => apply total_env
  | |- total errno => apply total_errno
  | |- total (assign _) => apply total_assign
  | |- total (set_env _) => apply total_set_env
  | |- total (stack_buffer _) => apply total_stack_buffer
  | |- keeps _ (let '(_, _) := ?x in _) => destruct x
  | |- total (let '(_, _) := ?x in _) => destruct x
  | |- keeps _ (if ?c then _ else _) => destruct c
  | |- total (if ?c then _ else _) => destruct c
  | |- keeps _ (match ?x with _ => _ end) => destruct x
  | |- total (match ?x with _ => _ end) => destruct x
  end.

(** ** The methods that only do input and output

    Whatever relation the system calls and the assignments to [m_error] and
    [m_fd] keep, the transport, the handshake, [requestData],
    [closeConnection] and [readRow] keep as well. *)
Section IO.
Context {P : Platform}.
Context (R : Machine -> Machine -> Prop) `{!PreOrder R}.
Context (W : string -> Prop).
Hypothesis R_error : forall g, keeps R (assign (fun c => set_error (g c) c)).
Hypothesis R_fd : forall fd, keeps R (assign (set_fd fd)).
Hypothesis R_call : forall e, keeps R (sys_call e).
Hypothesis R_poll : forall fd ev t, keeps R (sys_poll fd ev t).
Hypothesis R_read : forall fd n, keeps R (sys_read fd n).
Hypothesis R_write : forall fd d, W d -> keeps R (sys_write fd d).
Hypothesis R_close : forall fd, keeps R (sys_close fd).

Ltac io_step :=
  first
    [ monad_step
    | apply R_error
    | match goal with |- keeps _ (assign (set_error ?e)) => apply (R_error (fun _ => e)) end
    | apply R_fd
    | apply R_call | apply R_poll | apply R_read | apply R_close
    | apply R_write; assumption ].

Lemma io_wait_for_event (events : Z) : keeps R (wait_for_event events).
Proof. unfold wait_for_event. repeat io_step. Qed.

Lemma io_read_retry (fuel : nat) (fd : Z) (size : nat) : keeps R (read_retry fuel fd size).
Proof.
  induction fuel as [|k IH]; cbn [read_retry]; repeat io_step; exact IH.
Qed.

Lemma io_nointr_read (size : nat) : keeps R (nointr_read size).
Proof.
  unfold nointr_read.
  repeat first [ apply io_wait_for_event | apply io_read_retry | io_step ].
Qed.

Lemma io_write_retry (fuel : nat) (fd : Z) (data : string) :
  W data -> keeps R (write_retry fuel fd data).
Proof.
  intros HW.
  induction fuel as [|k IH]; cbn [write_retry]; repeat io_step; exact IH.
Qed.

Lemma io_nointr_write (src : string) (size : nat) :
  W (take size src) -> keeps R (nointr_write src size).
Proof.
  intros HW. unfold nointr_write.
  repeat first [ apply io_wait_for_event | apply io_write_retry; assumption | io_step ].
Qed.

Lemma io_doAuth_at (c : Connection) (s : Machine) (b : bool) (s' : Machine) :
  W (generateAuthString (m_user c) (m_password c)) ->
  conn s = c -> doAuth s = Some (b, s') -> R s s'.
Proof.
  intros HW Hc H. unfold doAuth in H. unfold bind at 1 in H. cbn [this] in H.
  rewrite Hc in H. clear Hc. revert s b s' H.
  match goal with |- forall s b s', ?m s = Some (b, s') -> _ => change (keeps R m) end.
  repeat first
    [ apply io_nointr_read
    | apply io_nointr_write; rewrite take_length; exact HW
    | io_step ].
Qed.

Lemma io_doAuth :
  (forall user password, W (generateAuthString user password)) -> keeps R doAuth.
Proof. intros HW s b s' H. exact (io_doAuth_at (conn s) s b s' (HW _ _) eq_refl H). Qed.

Lemma io_doRegistration : W (REGISTER_MSG ++ "JSON") -> keeps R doRegistration.
Proof.
  intros HW. unfold doRegistration.
  repeat first
    [ apply io_nointr_read
    | apply io_nointr_write; rewrite take_length; apply HW
    | io_step ].
Qed.

Lemma io_closeConnection : W CLOSE_MSG -> keeps R closeConnection.
Proof.
  intros HW. unfold closeConnection.
  repeat first [ apply io_nointr_write; exact HW | io_step ].
Qed.

Lemma io_requestData (table gtid : string) :
  (forall d, W d) -> keeps R (requestData table gtid).
Proof.
  intros HW. unfold requestData.
  repeat first [ apply io_nointr_write; apply HW | io_step ].
Qed.

Lemma io_createConnection : (forall d, W d) -> keeps R createConnection.
Proof.
  intros HW. unfold createConnection.
  repeat first
    [ apply io_doAuth; intros; apply HW
    | apply io_doRegistration; apply HW
    | io_step ].
Qed.

Lemma io_readRow_loop (fuel : nat) (dest : string) : keeps R (readRow_loop fuel dest).
Proof.
  revert dest.
  induction fuel as [|k IH]; intros dest; cbn [readRow_loop];
    repeat first [ apply io_nointr_read | apply IH | io_step ].
Qed.

Lemma io_readRow (dest : string) : keeps R (readRow dest).
Proof. unfold readRow. repeat first [ apply io_readRow_loop | io_step ]. Qed.

End IO.

(** *** Relations that do not look at the environment *)

Section Blind.
Context (R : Machine -> Machine -> Prop) `{!PreOrder R}.
Hypothesis R_env : forall s w, R s (mkMachine (conn s) w (heap s)).

Lemma blind_sys_call (e : syscall) : keeps R (sys_call e).
Proof. unfold sys_call. repeat first [ monad_step | apply keeps_set_env; intros; apply R_env ]. Qed.

Lemma blind_sys_poll (fd ev t : Z) : keeps R (sys_poll fd ev t).
Proof. unfold sys_poll. repeat first [ monad_step | apply keeps_set_env; intros; apply R_env ]. Qed.

Lemma blind_sys_read (fd : Z) (n : nat) : keeps R (sys_read fd n).
Proof. unfold sys_read. repeat first [ monad_step | apply keeps_set_env; intros; apply R_env ]. Qed.

Lemma blind_sys_write (fd : Z) (d : string) : keeps R (sys_write fd d).
Proof. unfold sys_write. repeat first [ monad_step | apply keeps_set_env; intros; apply R_env ]. Qed.

Lemma blind_sys_close (fd : Z) : keeps R (sys_close fd).
Proof. unfold sys_close. repeat first [ monad_step | apply keeps_set_env; intros; apply R_env ]. Qed.

End Blind.

Lemma frame_env (s : Machine) (w : World) : registry_frame s (mkMachine (conn s) w (heap s)).
Proof. repeat split. Qed.

Lemma frame_assign (f : Connection -> Connection) :
  registry_fields_kept f -> keeps registry_frame (assign f).
Proof.
  intros Hf. apply keeps_assign. intros s. destruct (Hf (conn s)) as [H1 H2].
  repeat split; assumption.
Qed.

Section Frame.
Context {P : Platform}.

(** Instantiating the I/O lemmas at [registry_frame]. *)
Ltac frame_side :=
  intros;
  first [ exact I
        | apply frame_assign; intros ?; split; reflexivity
        | apply blind_sys_call; [typeclasses eauto | apply frame_env]
        | apply blind_sys_poll; [typeclasses eauto | apply frame_env]
        | apply blind_sys_read; [typeclasses eauto | apply frame_env]
        | apply blind_sys_write; [typeclasses eauto | apply frame_env]
        | apply blind_sys_close; [typeclasses eauto | apply frame_env] ].

Lemma frame_createConnection : keeps registry_frame createConnection.
Proof. apply (io_createConnection registry_frame (fun _ => True)); frame_side. Qed.

Lemma frame_closeConnection : keeps registry_frame closeConnection.
Proof. apply (io_closeConnection registry_frame (fun _ => True)); frame_side. Qed.

Lemma frame_requestData (table gtid : string) :
  keeps registry_frame (requestData table gtid).
Proof. apply (io_requestData registry_frame (fun _ => True)); frame_side. Qed.

Lemma frame_readRow (dest : string) : keeps registry_frame (readRow dest).
Proof. apply (io_readRow registry_frame); frame_side. Qed.

End Frame.

(** ** [processSchema] and [processRow] in closed form *)

Lemma schema_namevals_length (elems : list json) (names : list string) :
  schema_namevals elems = Some names -> List.length names = List.length elems.
Proof.
  revert names. induction elems as [|v rest IH]; intros names H; simpl in H.
  - inversion H. reflexivity.
  - destruct (schema_nameval v); [|discriminate].
    destruct (schema_namevals rest) as [ns|]; [|discriminate].
    inversion H; subst. simpl. now rewrite (IH ns).
Qed.

Lemma schema_namevals_nth (elems : list json) (names : list string) (i : nat) (v : json) :
  schema_namevals elems = Some names -> nth_error elems i = Some v ->
  exists n, nth_error names i = Some n /\ schema_nameval v = Some n.
Proof.
  revert names i. induction elems as [|x rest IH]; intros names i H Hv; simpl in H.
  - destruct i; discriminate.
  - destruct (schema_nameval x) as [n|] eqn:En; [|discriminate].
    destruct (schema_namevals rest) as [ns|]; [|discriminate].
    inversion H; subst. destruct i as [|i]; simpl in *.
    + inversion Hv; subst. now exists n.
    + now apply IH.
Qed.

Lemma processSchema_loop_eq (elems : list json) (s : Machine) :
  processSchema_loop elems s =
  match schema_namevals elems with
  | Some names =>
      Some (tt, with_registry (m_keys (conn s) ++ names)
                              (m_types (conn s) ++ map schema_typeval elems) s)
  | None => None
  end.
Proof.
  revert s. induction elems as [|v rest IH]; intros s.
  - simpl. unfold ret, with_registry. rewrite !app_nil_r.
    destruct s as [[] w h]; reflexivity.
  - cbn [processSchema_loop schema_namevals map].
    unfold bind at 1. unfold processSchema_field.
    destruct (schema_nameval v) as [n|]; [|reflexivity].
    cbn [bind ret assign]. rewrite IH.
    destruct (schema_namevals rest) as [ns|]; [|reflexivity].
    unfold with_registry. cbn. rewrite <- !app_assoc. reflexivity.
Qed.

Lemma processSchema_eq (js : option json) (s : Machine) :
  processSchema js s =
  match schema_namevals (schema_fields js) with
  | Some names => Some (tt, with_registry names (map schema_typeval (schema_fields js)) s)
  | None => None
  end.
Proof.
  unfold processSchema. cbn [bind assign]. rewrite processSchema_loop_eq.
  fold (schema_fields js).
  destruct (schema_namevals (schema_fields js)); reflexivity.
Qed.

Section Rows.
Context {P : Platform}.

Lemma collect_all (js : option json) (keys : list string) (vs : list string) :
  collect js keys = (vs, None) ->
  vs = map (field_value js) keys /\
  (forall k, In k keys -> json_object_get js k <> None).
Proof.
  revert vs. induction keys as [|k rest IH]; intros vs H; simpl in H.
  - inversion H. split; [reflexivity | intros k []].
  - unfold field_value at 1. cbn [map].
    destruct (json_object_get js k) as [v|] eqn:E; [|discriminate].
    destruct (collect js rest) as [vs' miss]. inversion H; subst.
    destruct (IH vs' eq_refl) as [-> Hall].
    split; [reflexivity|].
    intros k' [<-|Hin]; [congruence | now apply Hall].
Qed.

Lemma collect_first_missing (js : option json) (keys : list string) (vs : list string)
    (k : string) :
  collect js keys = (vs, Some k) ->
  exists pre post,
    keys = (pre ++ k :: post)%list /\
    (forall x, In x pre -> json_object_get js x <> None) /\
    json_object_get js k = None.
Proof.
  revert vs. induction keys as [|x rest IH]; intros vs H; simpl in H; [discriminate|].
  destruct (json_object_get js x) as [v|] eqn:E.
  - destruct (collect js rest) as [vs' miss]. inversion H; subst.
    destruct (IH vs' eq_refl) as (pre & post & -> & Hpre & Hk).
    exists (x :: pre), post. repeat split; [|exact Hk].
    intros y [<-|Hy]; [congruence | now apply Hpre].
  - inversion H; subst. exists [], rest. repeat split; [intros y []|exact E].
Qed.

Lemma collect_complete (js : option json) (keys : list string) :
  (forall k, In k keys -> json_object_get js k <> None) ->
  collect js keys = (map (field_value js) keys, None).
Proof.
  induction keys as [|k rest IH]; intros Hall; simpl; [reflexivity|].
  unfold field_value at 1.
  destruct (json_object_get js k) as [v|] eqn:E.
  - rewrite IH by (intros; apply Hall; now right). reflexivity.
  - exfalso. apply (Hall k); [now left | assumption].
Qed.

Lemma collect_incomplete (js : option json) (keys : list string) (k : string) :
  In k keys -> json_object_get js k = None ->
  exists vs k0, collect js keys = (vs, Some k0).
Proof.
  induction keys as [|x rest IH]; intros Hin Hk; [destruct Hin|].
  simpl. destruct (json_object_get js x) as [v|] eqn:E.
  - destruct Hin as [<-|Hin]; [congruence|].
    destruct (IH Hin Hk) as (vs & k0 & ->). now eexists _, _.
  - now eexists _, _.
Qed.

Lemma processRow_loop_eq (js : option json) (keys values : list string) (s : Machine) :
  processRow_loop js keys values s =
  match collect js keys with
  | (vs, None) => Some (values ++ vs, s)%list
  | (vs, Some k) =>
      Some (values ++ vs,
            mkMachine (set_error (missing_key_error k) (conn s)) (world s) (heap s))%list
  end.
Proof.
  revert values. induction keys as [|k rest IH]; intros values.
  - simpl. now rewrite app_nil_r.
  - cbn [processRow_loop collect].
    destruct (json_object_get js k) as [v|].
    + rewrite IH. destruct (collect js rest) as [vs [k0|]];
        now rewrite <- app_assoc.
    + cbn. now rewrite app_nil_r.
Qed.

Lemma processRow_eq (js : option json) (s : Machine) :
  processRow js s =
  match collect js (m_keys (conn s)) with
  | (vs, None) =>
      Some (Some (List.length (heap s)),
            mkMachine (set_error "" (conn s)) (world s)
              (heap s ++ [InternalRow.mk (m_keys (conn s)) (m_types (conn s)) vs]))
  | (vs, Some k) =>
      Some (None, mkMachine (set_error (missing_key_error k) (conn s)) (world s) (heap s))
  end.
Proof.
  unfold processRow. unfold bind at 1. cbn [assign]. unfold bind at 1. cbn [this].
  unfold bind at 1. rewrite processRow_loop_eq. cbn [conn m_keys set_error].
  destruct (collect js (m_keys (conn s))) as [vs [k|]]; reflexivity.
Qed.

End Rows.

(** ** Classification of a message (C5) *)

Lemma is_schema_shape (js : json) :
  is_schema (Some js) = true <->
  exists first rest name,
    json_object_get (Some js) "fields" = Some (JArray (first :: rest)) /\
    json_object_get (Some first) "name" = Some name.
Proof.
  unfold is_schema. split.
  - destruct (json_object_get (Some js) "fields") as [j|]; [|discriminate].
    destruct j as [m|[|first rest]| | | | | |]; try discriminate.
    change (json_array_get (Some (JArray (first :: rest))) 0) with (Some first).
    destruct (json_object_get (Some first) "name") as [name|] eqn:E.
    + intros _. now exists first, rest, name.
    + simpl. discriminate.
  - intros (first & rest & name & -> & H).
    change (json_array_get (Some (JArray (first :: rest))) 0) with (Some first).
    rewrite H. reflexivity.
Qed.

Section Dispatch.
Context {P : Platform}.

Lemma read_rec_row (fuel : nat) (s s1 : Machine) (line : string) (js : json) :
  readRow "" s = Some ((true, line), s1) ->
  json_loads (c_str line) = inl js ->
  is_schema (Some js) = false ->
  read_rec fuel s = processRow (Some js) s1.
Proof.
  intros Hrow Hjs Hsch.
  destruct fuel; cbn [read_rec]; unfold bind at 1; rewrite Hrow, Hjs, Hsch; reflexivity.
Qed.

(** C5.  A parsed object is a schema announcement exactly when it has a
    ["fields"] key that holds a non-empty array whose first element has a
    ["name"] key; [read] hands every other object to [processRow]. *)
Theorem schema_classification_and_dispatch :
  (forall js : json,
     is_schema (Some js) = true <->
     exists first rest name,
       json_object_get (Some js) "fields" = Some (JArray (first :: rest)) /\
       json_object_get (Some first) "name" = Some name) /\
  (forall (s s1 : Machine) (line : string) (js : json),
     readRow "" s = Some ((true, line), s1) ->
     json_loads (c_str line) = inl js ->
     is_schema (Some js) = false ->
     read s = processRow (Some js) s1).
Proof.
  split; [exact is_schema_shape|].
  intros s s1 line js Hrow Hjs Hsch.
  unfold read. cbn [bind env]. now apply read_rec_row with (line := line).
Qed.

End Dispatch.

(** The dispatch at the data line of the example. *)
Lemma schema_classification_and_dispatch_example :
  let s := mkMachine (conn example_machine) (serving (example_row_line ++ LF)) [] in
  exists s1,
    readRow "" s = Some ((true, example_row_line), s1) /\
    json_loads (c_str example_row_line) = inl example_row /\
    is_schema (Some example_row) = false /\
    read s = processRow (Some example_row) s1.
Proof.
  cbv zeta.
  set (s := mkMachine (conn example_machine) (serving (example_row_line ++ LF)) []).
  destruct (readRow "" s) as [[[[|] line] s1]|] eqn:E;
    try (exfalso; vm_compute in E; discriminate).
  assert (Hline : line = example_row_line)
    by (vm_compute in E; inversion E; reflexivity).
  subst line. exists s1.
  assert (Hjs : json_loads (c_str example_row_line) = inl example_row)
    by (vm_compute; reflexivity).
  repeat split; try assumption.
  exact (proj2 schema_classification_and_dispatch s s1 example_row_line example_row
           E Hjs eq_refl).
Defined.

(** ** The registry after a schema announcement (C4) *)

Lemma schema_nameval_stored (v : json) (n : string) :
  schema_nameval v = Some n -> stored_name v n.
Proof.
  unfold schema_nameval, stored_name.
  generalize (json_object_get (Some v) "name").
  intros [[]|]; cbn; congruence.
Qed.

Lemma schema_typeval_stored (v : json) : stored_type v (schema_typeval v).
Proof.
  unfold schema_typeval, schema_type, stored_type.
  generalize (json_object_get (Some v) "real_type") (json_object_get (Some v) "type").
  intros [[]|] [[]|]; reflexivity.
Qed.

Lemma schema_namevals_defined (elems : list json) :
  Forall name_is_string_if_present elems -> exists names, schema_namevals elems = Some names.
Proof.
  induction 1 as [|v rest Hv _ [names IH]]; [now exists []|].
  simpl. rewrite IH. unfold name_is_string_if_present in Hv. unfold schema_nameval.
  destruct (json_object_get (Some v) "name") as [x|].
  - destruct Hv as [n ->]. cbn. now eexists.
  - now eexists.
Qed.

(** C4, as the specification words it, fails where ["real_type"] is present
    but is not a string: the stored type is then ["char(50)"]. *)
Lemma processSchema_real_type_not_a_string :
  let v := JObject [("name", JString "id"); ("real_type", JInteger 5)] in
  let js := JObject [("fields", JArray [v])] in
  is_schema (Some js) = true /\
  (exists s', processSchema (Some js) (start example_connection example_world) = Some (tt, s') /\
              m_keys (conn s') = ["id"] /\ m_types (conn s') = ["char(50)"]) /\
  ~ (exists s', processSchema (Some js) (start example_connection example_world) = Some (tt, s') /\
                Forall2 spec_field_name [v] (m_keys (conn s')) /\
                Forall2 spec_field_type [v] (m_types (conn s'))).
Proof.
  cbv zeta. split; [reflexivity|]. split.
  - exists (with_registry ["id"] ["char(50)"] (start example_connection example_world)).
    repeat split; vm_compute; reflexivity.
  - intros (s' & H & _ & Ht). vm_compute in H. inversion H; subst. clear H.
    inversion Ht as [|? ? ? ? Hv _]; subst. vm_compute in Hv. discriminate.
Qed.

(** C4, amended.  When every ["name"] present in the elements of ["fields"]
    is a string, [processSchema] replaces the registry by one entry per
    element, in order: the name is the C string of ["name"] (empty if absent);
    the type is the C string of ["real_type"] if that is a string, ["char(50)"]
    if ["real_type"] is present and not a string, and otherwise the C string
    of ["type"], ["char(50)"] if ["type"] is not a string, ["undefined"] if
    there is neither key.  A C string is the string itself when it holds no
    NUL byte. *)
Theorem processSchema_replaces_registry (js : option json) (s : Machine) :
  Forall name_is_string_if_present (schema_fields js) ->
  exists keys types,
    processSchema js s = Some (tt, with_registry keys types s) /\
    List.length keys = List.length (schema_fields js) /\
    List.length types = List.length (schema_fields js) /\
    (forall i v, nth_error (schema_fields js) i = Some v ->
       exists n t, nth_error keys i = Some n /\ nth_error types i = Some t /\
                   stored_name v n /\ stored_type v t) /\
    (forall x, nul_free x -> c_str x = x).
Proof.
  intros Hnames.
  destruct (schema_namevals_defined _ Hnames) as [names Hn].
  exists names, (map schema_typeval (schema_fields js)).
  rewrite processSchema_eq, Hn.
  split; [reflexivity|].
  split; [now apply schema_namevals_length|].
  split; [now rewrite length_map|].
  split; [|exact c_str_nul_free].
  intros i v Hv.
  destruct (schema_namevals_nth _ _ _ _ Hn Hv) as (n & Hi & Hnv).
  exists n, (schema_typeval v).
  split; [assumption|].
  split; [now rewrite nth_error_map, Hv|].
  split; [now apply schema_nameval_stored | apply schema_typeval_stored].
Qed.

(** The registry after the schema of the example. *)
Lemma processSchema_replaces_registry_example :
  Forall name_is_string_if_present (schema_fields (Some example_schema)) /\
  exists keys types,
    processSchema (Some example_schema) (start example_connection example_world)
      = Some (tt, with_registry keys types (start example_connection example_world)) /\
    List.length keys = List.length (schema_fields (Some example_schema)) /\
    List.length types = List.length (schema_fields (Some example_schema)) /\
    (forall i v, nth_error (schema_fields (Some example_schema)) i = Some v ->
       exists n t, nth_error keys i = Some n /\ nth_error types i = Some t /\
                   stored_name v n /\ stored_type v t) /\
    (forall x, nul_free x -> c_str x = x).
Proof.
  assert (H : Forall name_is_string_if_present (schema_fields (Some example_schema))).
  { repeat constructor; cbn; eexists; reflexivity. }
  split; [exact H|].
  exact (processSchema_replaces_registry (Some example_schema)
           (start example_connection example_world) H).
Defined.

(** ** Row construction (C6) *)

Example example_lines_decode :
  TinyJson.loads example_schema_line = inl example_schema /\
  TinyJson.loads example_row_line = inl example_row.
Proof. split; vm_compute; reflexivity. Qed.

Example integer_to_string_examples :
  integer_to_string 0 = "0" /\ integer_to_string 1234567890123 = "1234567890123" /\
  integer_to_string (-42) = "-42".
Proof. repeat split. Qed.

(** C6, as the specification words it, fails on a string with an embedded
    NUL, which [json_loads] delivers because it is called with
    [JSON_ALLOW_NUL]: the value is cut at the NUL. *)
Lemma json_to_string_cuts_at_nul :
  TinyJson.loads (q "{'a':'x\u0000y'}") = inl (JObject [("a", JString x_nul_y)]) /\
  json_to_string (JString x_nul_y) = "x" /\
  json_to_string (JString x_nul_y) <> x_nul_y.
Proof.
  split; [vm_compute; reflexivity|].
  split; [vm_compute; reflexivity|].
  vm_compute. discriminate.
Qed.

Section RowConstruction.
Context {P : Platform}.

(** C6, amended.  A field value is converted as: string to the string up to
    its first NUL byte, so to itself when it has none; integer to its decimal
    numeral; real to its stream format; boolean to ["true"] or ["false"]; null
    and every other kind to the empty string.  When the object has every key
    of the registry, the Row holds the registry's names and types and the
    converted values; when a registry name has no key in the object, no Row is
    returned, the heap is as before, and the error names the first such
    field. *)
Theorem processRow_values_and_missing_field :
  (forall x, json_to_string (JString x) = c_str x) /\
  (forall x, nul_free x -> json_to_string (JString x) = x) /\
  (forall i, json_to_string (JInteger i) = integer_to_string i) /\
  (forall r, json_to_string (JReal r) = real_to_string r) /\
  json_to_string JTrue = "true" /\
  json_to_string JFalse = "false" /\
  json_to_string JNull = "" /\
  (forall m, json_to_string (JObject m) = "") /\
  (forall l, json_to_string (JArray l) = "") /\
  (forall js s,
     (forall k, In k (m_keys (conn s)) -> json_object_get js k <> None) ->
     processRow js s =
     Some (Some (List.length (heap s)),
           mkMachine (set_error "" (conn s)) (world s)
             (heap s ++ [InternalRow.mk (m_keys (conn s)) (m_types (conn s))
                           (map (field_value js) (m_keys (conn s)))]))) /\
  (forall js s k,
     In k (m_keys (conn s)) -> json_object_get js k = None ->
     exists pre k0 post,
       m_keys (conn s) = (pre ++ k0 :: post)%list /\
       (forall x, In x pre -> json_object_get js x <> None) /\
       json_object_get js k0 = None /\
       processRow js s =
       Some (None, mkMachine (set_error ("No value for key found: " ++ k0) (conn s))
                     (world s) (heap s))).
Proof.
  repeat match goal with |- _ /\ _ => split end; try reflexivity.
  - intros x Hx. cbn. now apply c_str_nul_free.
  - intros js s Hall. rewrite processRow_eq, (collect_complete js _ Hall). reflexivity.
  - intros js s k Hin Hk.
    destruct (collect_incomplete js _ k Hin Hk) as (vs & k0 & Hc).
    destruct (collect_first_missing js _ _ _ Hc) as (pre & post & Hkeys & Hpre & Hk0).
    exists pre, k0, post. rewrite processRow_eq, Hc. repeat split; assumption.
Qed.

End RowConstruction.

(** An object that lacks most of the fields of the example schema. *)
Lemma processRow_values_and_missing_field_example :
  In "col1" (m_keys (conn example_machine)) /\
  json_object_get (Some (JObject [("domain", JInteger 0)])) "col1" = None /\
  exists pre k0 post,
    m_keys (conn example_machine) = (pre ++ k0 :: post)%list /\
    (forall x, In x pre ->
       json_object_get (Some (JObject [("domain", JInteger 0)])) x <> None) /\
    json_object_get (Some (JObject [("domain", JInteger 0)])) k0 = None /\
    processRow (Some (JObject [("domain", JInteger 0)])) example_machine =
    Some (None, mkMachine (set_error ("No value for key found: " ++ k0) (conn example_machine))
                  (world example_machine) (heap example_machine)).
Proof.
  assert (Hin : In "col1" (m_keys (conn example_machine))) by (cbn; tauto).
  split; [exact Hin|]. split; [reflexivity|].
  exact (proj2 (proj2 (proj2 (proj2 (proj2 (proj2 (proj2 (proj2 (proj2 (proj2
           processRow_values_and_missing_field)))))))))
           (Some (JObject [("domain", JInteger 0)])) example_machine "col1" Hin eq_refl).
Defined.

(** ** Lookup by name (C10) *)

Lemma find_absent (name : string) (keys : list string) :
  ~ In name keys -> InternalRow.find name keys = List.length keys.
Proof.
  induction keys as [|k rest IH]; intros Hn; simpl; [reflexivity|].
  destruct (String.eqb_spec k name) as [->|Hne].
  - exfalso. apply Hn. now left.
  - rewrite IH; [reflexivity|]. intros Hin. apply Hn. now right.
Qed.

Lemma find_present (name : string) (keys : list string) :
  In name keys -> nth_error keys (InternalRow.find name keys) = Some name.
Proof.
  induction keys as [|k rest IH]; intros Hin; [destruct Hin|].
  simpl. destruct (String.eqb_spec k name) as [->|Hne]; [reflexivity|].
  destruct Hin as [->|Hin]; [congruence | now apply IH].
Qed.

Section Lookup.
Context {P : Platform}.

(** C10.  For a Row that [processRow] built: a name that is not among the
    keys makes [value(name)] index [m_values] at its size, which is outside
    the vector; a name that is the key at index [i] makes it return the value
    at index [i]. *)
Theorem value_by_name_defined_on_keys
    (js : option json) (s s' : Machine) (a : nat) (r : InternalRow.t) :
  processRow js s = Some (Some a, s') ->
  deref s' (Some a) = Some r ->
  (forall name, ~ In name (InternalRow.m_keys r) ->
     InternalRow.find name (InternalRow.m_keys r) = List.length (InternalRow.m_values r) /\
     InternalRow.value r name = None) /\
  (forall i name, InternalRow.key r i = Some name ->
     exists v, InternalRow.value_at r i = Some v /\ InternalRow.value r name = Some v).
Proof.
  intros Hrow Hderef. rewrite processRow_eq in Hrow.
  destruct (collect js (m_keys (conn s))) as [vs [k|]] eqn:Hc; [discriminate|].
  inversion Hrow; subst. clear Hrow.
  cbn [deref heap] in Hderef.
  rewrite nth_error_app2, Nat.sub_diag in Hderef by lia.
  inversion Hderef; subst. clear Hderef.
  destruct (collect_all js _ _ Hc) as [-> _].
  unfold InternalRow.value, InternalRow.value_at, InternalRow.key.
  cbn [InternalRow.m_keys InternalRow.m_values].
  split.
  - intros name Hn. rewrite (find_absent name _ Hn), length_map.
    split; [reflexivity|]. apply nth_error_None. rewrite length_map. lia.
  - intros i name Hi. exists (field_value js name).
    rewrite !nth_error_map, Hi, find_present by (eapply nth_error_In; eassumption).
    split; reflexivity.
Qed.

End Lookup.

(** The Row of the example. *)
Lemma value_by_name_defined_on_keys_example :
  exists s' r,
    processRow (Some example_row) example_machine = Some (Some 0%nat, s') /\
    deref s' (Some 0%nat) = Some r /\
    (forall name, ~ In name (InternalRow.m_keys r) ->
       InternalRow.find name (InternalRow.m_keys r) = List.length (InternalRow.m_values r) /\
       InternalRow.value r name = None) /\
    (forall i name, InternalRow.key r i = Some name ->
       exists v, InternalRow.value_at r i = Some v /\ InternalRow.value r name = Some v).
Proof.
  eexists. eexists.
  assert (H1 : processRow (Some example_row) example_machine =
               Some (Some 0%nat,
                     mkMachine (set_error "" (conn example_machine)) (world example_machine)
                       [InternalRow.mk (m_keys (conn example_machine))
                          (m_types (conn example_machine)) ["0"; "1"; "5"; "hello"]]))
    by (vm_compute; reflexivity).
  split; [exact H1|]. split; [reflexivity|].
  exact (value_by_name_defined_on_keys _ _ _ _ _ H1 eq_refl).
Defined.

(** ** [read] keeps what its parts keep *)

Section ReadKeeps.
Context {P : Platform}.
Context (R : Machine -> Machine -> Prop) `{!PreOrder R}.
Hypothesis R_frame : forall s s', registry_frame s s' -> R s s'.
Hypothesis R_schema : forall js, keeps R (processSchema js).
Hypothesis R_row : forall js, keeps R (processRow js).

Lemma keeps_read_rec (fuel : nat) : keeps R (read_rec fuel).
Proof.
  induction fuel as [|k IH]; cbn [read_rec];
    repeat first
      [ apply (keeps_weaken registry_frame R _ R_frame); apply frame_readRow
      | apply (keeps_weaken registry_frame R _ R_frame); apply frame_assign;
        intros ?; split; reflexivity
      | apply R_schema | apply R_row | apply IH
      | monad_step ].
Qed.

Lemma keeps_read : keeps R read.
Proof. unfold read. repeat first [ apply keeps_read_rec | monad_step ]. Qed.

End ReadKeeps.

(** ** The invariants (C8) *)

#[local] Instance inv_kept_preorder : PreOrder inv_kept.
Proof.
  split.
  - intros s H. exact H.
  - intros a b c H1 H2 H. apply H2, H1, H.
Qed.

Lemma frame_inv_kept (s s' : Machine) : registry_frame s s' -> inv_kept s s'.
Proof.
  intros (Hk & Ht & Hh) [Hreg Hrows]. unfold Inv, registry_ok in *.
  rewrite Hk, Ht, Hh. now split.
Qed.

Lemma inv_processSchema (js : option json) : keeps inv_kept (processSchema js).
Proof.
  intros s a s' H [_ Hrows]. rewrite processSchema_eq in H.
  destruct (schema_namevals (schema_fields js)) as [names|] eqn:E; [|discriminate].
  inversion H; subst. split; [|exact Hrows].
  unfold registry_ok. cbn. rewrite length_map. now apply schema_namevals_length.
Qed.

Section Invariants.
Context {P : Platform}.

Lemma inv_processRow (js : option json) : keeps inv_kept (processRow js).
Proof.
  intros s a s' H [Hreg Hrows]. rewrite processRow_eq in H.
  destruct (collect js (m_keys (conn s))) as [vs [k|]] eqn:E;
    inversion H; subst; (split; [exact Hreg|]); [exact Hrows|].
  apply Forall_app. split; [exact Hrows|].
  constructor; [|constructor].
  destruct (collect_all js _ _ E) as [-> _].
  split; cbn; [now rewrite length_map | exact Hreg].
Qed.

Lemma inv_perform (op : operation) : keeps inv_kept (perform op).
Proof.
  destruct op as [|table gtid| |]; cbn [perform].
  - apply keeps_bind; [typeclasses eauto | | intros; apply keeps_ret; typeclasses eauto].
    apply (keeps_weaken registry_frame _ _ frame_inv_kept), frame_createConnection.
  - apply keeps_bind; [typeclasses eauto | | intros; apply keeps_ret; typeclasses eauto].
    apply (keeps_weaken registry_frame _ _ frame_inv_kept), frame_requestData.
  - apply keeps_bind; [typeclasses eauto | | intros; apply keeps_ret; typeclasses eauto].
    apply keeps_read;
      [typeclasses eauto | exact frame_inv_kept | exact inv_processSchema | exact inv_processRow].
  - apply (keeps_weaken registry_frame _ _ frame_inv_kept), frame_closeConnection.
Qed.

(** C8.  A new connection satisfies the invariant; every public operation,
    and each of [processSchema] and [processRow], takes a state that satisfies
    it to one that does; and in such a state the name list and the type list
    of the registry have the same length and every Row on the heap has as
    many values as names and as many names as types. *)
Theorem registry_and_row_lengths :
  (forall address port user password timeout w,
     Inv (start (new_Connection address port user password timeout) w)) /\
  (forall op s x s', Inv s -> perform op s = Some (x, s') -> Inv s') /\
  (forall js s x s', Inv s -> processSchema js s = Some (x, s') -> Inv s') /\
  (forall js s x s', Inv s -> processRow js s = Some (x, s') -> Inv s') /\
  (forall s, Inv s ->
     List.length (m_keys (conn s)) = List.length (m_types (conn s)) /\
     forall p r, deref s (Some p) = Some r ->
       List.length (InternalRow.m_values r) = List.length (InternalRow.m_keys r) /\
       List.length (InternalRow.m_keys r) = List.length (InternalRow.m_types r)).
Proof.
  split; [|split; [|split; [|split]]].
  - intros. split; [reflexivity | constructor].
  - intros op s x s' HI H. exact (inv_perform op s x s' H HI).
  - intros js s x s' HI H. exact (inv_processSchema js s x s' H HI).
  - intros js s x s' HI H. exact (inv_processRow js s x s' H HI).
  - intros s [Hreg Hrows]. split; [exact Hreg|].
    intros p r Hd. cbn in Hd. apply nth_error_In in Hd.
    rewrite Forall_forall in Hrows. exact (Hrows r Hd).
Qed.

End Invariants.

(** One [read] of the example stream keeps the invariant. *)
Lemma registry_and_row_lengths_example :
  Inv (start example_connection example_stream) /\
  exists s',
    perform Op_read (start example_connection example_stream) = Some (tt, s') /\ Inv s'.
Proof.
  assert (H0 : Inv (start example_connection example_stream))
    by exact (proj1 registry_and_row_lengths "127.0.0.1" 4001 "maxscale" "maxscale" 10
                example_stream).
  split; [exact H0|].
  destruct (perform Op_read (start example_connection example_stream)) as [[[] s']|] eqn:E.
  - exists s'. split; [reflexivity|].
    exact (proj1 (proj2 registry_and_row_lengths) Op_read _ tt s' H0 E).
  - exfalso. vm_compute in E. discriminate.
Defined.

(** ** Schema replacement and the rows already returned (C7) *)

Lemma heap_grows_deref (s s' : Machine) (p : nat) (r : InternalRow.t) :
  heap_grows s s' -> deref s (Some p) = Some r -> deref s' (Some p) = Some r.
Proof.
  intros [more H] Hd. cbn in *. rewrite H, nth_error_app1; [exact Hd|].
  apply nth_error_Some. congruence.
Qed.

Lemma frame_heap_grows (s s' : Machine) : registry_frame s s' -> heap_grows s s'.
Proof. intros (_ & _ & H). exists []. now rewrite app_nil_r. Qed.

Lemma heap_processSchema (js : option json) : keeps heap_grows (processSchema js).
Proof.
  intros s a s' H. rewrite processSchema_eq in H.
  destruct (schema_namevals (schema_fields js)); [|discriminate].
  inversion H; subst. exists []. cbn. now rewrite app_nil_r.
Qed.

Section Snapshot.
Context {P : Platform}.

Lemma heap_processRow (js : option json) : keeps heap_grows (processRow js).
Proof.
  intros s a s' H. rewrite processRow_eq in H.
  destruct (collect js (m_keys (conn s))) as [vs [k|]]; inversion H; subst; cbn.
  - exists []. cbn. now rewrite app_nil_r.
  - eexists. reflexivity.
Qed.

Lemma heap_read : keeps heap_grows read.
Proof.
  apply keeps_read;
    [typeclasses eauto | exact frame_heap_grows | exact heap_processSchema | exact heap_processRow].
Qed.

(** C7.  After schema [A] and then schema [B] the registry holds exactly the
    fields of [B], the same as after [B] alone.  A Row built under [A] is a
    copy of the registry's names and types at that moment together with the
    values, and it is the same Row after [B] has been announced; no
    [processSchema], and no later [read], changes a Row already on the heap. *)
Theorem schema_replacement_keeps_rows
    (A B js : option json) (s0 s1 s2 s3 : Machine) (a : nat) :
  processSchema A s0 = Some (tt, s1) ->
  processRow js s1 = Some (Some a, s2) ->
  processSchema B s2 = Some (tt, s3) ->
  (exists names,
     schema_namevals (schema_fields B) = Some names /\
     m_keys (conn s3) = names /\
     m_types (conn s3) = map schema_typeval (schema_fields B)) /\
  (forall s s', processSchema B s = Some (tt, s') ->
     m_keys (conn s') = m_keys (conn s3) /\ m_types (conn s') = m_types (conn s3)) /\
  (exists names,
     schema_namevals (schema_fields A) = Some names /\
     deref s2 (Some a) =
     Some (InternalRow.mk names (map schema_typeval (schema_fields A))
             (map (field_value js) names))) /\
  deref s3 (Some a) = deref s2 (Some a) /\
  (forall p, deref s3 p = deref s2 p) /\
  (forall s r s' p row,
     read s = Some (r, s') -> deref s (Some p) = Some row -> deref s' (Some p) = Some row).
Proof.
  intros HA Hrow HB.
  rewrite processSchema_eq in HA, HB.
  destruct (schema_namevals (schema_fields A)) as [namesA|] eqn:EA; [|discriminate].
  destruct (schema_namevals (schema_fields B)) as [namesB|] eqn:EB; [|discriminate].
  inversion HA; subst s1. inversion HB; subst s3. clear HA HB.
  rewrite processRow_eq in Hrow. cbn [with_registry conn m_keys set_types set_keys] in Hrow.
  destruct (collect js namesA) as [vs [k|]] eqn:Hc; [discriminate|].
  inversion Hrow; subst. clear Hrow.
  destruct (collect_all js _ _ Hc) as [-> _].
  repeat match goal with |- _ /\ _ => split end.
  - exists namesB. repeat split.
  - intros s s' H. rewrite processSchema_eq, EB in H. inversion H; subst. split; reflexivity.
  - exists namesA. split; [reflexivity|].
    cbn. rewrite nth_error_app2, Nat.sub_diag by lia. reflexivity.
  - reflexivity.
  - intros p. reflexivity.
  - intros s r s' p row Hread Hd.
    exact (heap_grows_deref s s' p row (heap_read s r s' Hread) Hd).
Qed.

End Snapshot.

(** The example schema, its Row, then another schema. *)
Lemma schema_replacement_keeps_rows_example :
  let s1 := example_machine in
  let row := InternalRow.mk ["domain"; "server_id"; "sequence"; "col1"]
               ["int"; "int"; "int"; "varchar(10)"] ["0"; "1"; "5"; "hello"] in
  let s2 := mkMachine (set_error "" (conn s1)) (world s1) [row] in
  let s3 := with_registry ["id"; "note"] ["long"; "char(50)"] s2 in
  processSchema (Some example_schema) (start example_connection example_world) = Some (tt, s1) /\
  processRow (Some example_row) s1 = Some (Some 0%nat, s2) /\
  processSchema (Some other_schema) s2 = Some (tt, s3) /\
  deref s2 (Some 0%nat) = Some row /\
  deref s3 (Some 0%nat) = deref s2 (Some 0%nat).
Proof.
  cbv zeta.
  set (s1 := example_machine).
  set (row := InternalRow.mk ["domain"; "server_id"; "sequence"; "col1"]
                ["int"; "int"; "int"; "varchar(10)"] ["0"; "1"; "5"; "hello"]).
  set (s2 := mkMachine (set_error "" (conn s1)) (world s1) [row]).
  set (s3 := with_registry ["id"; "note"] ["long"; "char(50)"] s2).
  assert (E1 : processSchema (Some example_schema) (start example_connection example_world)
               = Some (tt, s1)) by (vm_compute; reflexivity).
  assert (E2 : processRow (Some example_row) s1 = Some (Some 0%nat, s2))
    by (vm_compute; reflexivity).
  assert (E3 : processSchema (Some other_schema) s2 = Some (tt, s3))
    by (vm_compute; reflexivity).
  pose proof (schema_replacement_keeps_rows _ _ _ _ _ _ _ _ E1 E2 E3)
    as (_ & _ & _ & Hsame & _).
  repeat split; try assumption.
Defined.

(** ** [closeConnection] (C9) *)

#[local] Instance fd_kept_preorder : PreOrder fd_kept.
Proof.
  split.
  - intros s. reflexivity.
  - intros a b c H1 H2. unfold fd_kept in *. congruence.
Qed.



Lemma total_sys_call (e : syscall) : total (sys_call e).
Proof. unfold sys_call. repeat monad_step. Qed.

Lemma total_sys_poll (fd ev t : Z) : total (sys_poll fd ev t).
Proof. unfold sys_poll. repeat monad_step. Qed.

Lemma total_sys_read (fd : Z) (n : nat) : total (sys_read fd n).
Proof. unfold sys_read. repeat monad_step. Qed.

Lemma total_sys_write (fd : Z) (d : string) : total (sys_write fd d).
Proof. unfold sys_write. repeat monad_step. Qed.

Lemma total_sys_close (fd : Z) : total (sys_close fd).
Proof. unfold sys_close. repeat monad_step. Qed.

Section Close.
Context {P : Platform}.




Lemma total_wait_for_event (events : Z) : total (wait_for_event events).
Proof. unfold wait_for_event. repeat first [ apply total_sys_poll | monad_step ]. Qed.

Lemma total_write_retry (fuel : nat) (fd : Z) (data : string) :
  total (write_retry fuel fd data).
Proof.
  induction fuel as [|k IH]; cbn [write_retry];
    repeat first [ apply total_sys_write | apply IH | monad_step ].
Qed.

Lemma total_nointr_write (src : string) (size : nat) : total (nointr_write src size).
Proof.
  unfold nointr_write.
  repeat first [ apply total_wait_for_event | apply total_write_retry | monad_step ].
Qed.




End Close.


(** ** The authentication token (C3) *)

Section Emits.
Context (Q : syscall -> Prop).

Lemma emits_same_trace (s s' : Machine) :
  w_trace (world s') = w_trace (world s) -> emits Q s s'.
Proof. intros H. exists []. split; [now rewrite app_nil_r | constructor]. Qed.

Lemma emits_one (s s' : Machine) (e : syscall) :
  Q e -> w_trace (world s') = (w_trace (world s) ++ [e])%list -> emits Q s s'.
Proof. intros HQ H. exists [e]. split; [exact H | now constructor]. Qed.

Lemma emits_error (g : Connection -> string) :
  keeps (emits Q) (assign (fun c => set_error (g c) c)).
Proof. apply keeps_assign. intros s. now apply emits_same_trace. Qed.

Lemma emits_set_fd (fd : Z) : keeps (emits Q) (assign (set_fd fd)).
Proof. apply keeps_assign. intros s. now apply emits_same_trace. Qed.

Lemma emits_sys_call (e : syscall) : Q e -> keeps (emits Q) (sys_call e).
Proof.
  intros HQ s a s' H. unfold sys_call in H. cbn in H.
  destruct (w_calls (world s)) as [|[r|en] rest]; cbn in H; inversion H; subst;
    now apply (emits_one _ _ e).
Qed.

Lemma emits_sys_poll (fd ev t : Z) : Q (SysPoll fd ev t) -> keeps (emits Q) (sys_poll fd ev t).
Proof.
  intros HQ s a s' H. unfold sys_poll in H. cbn in H.
  destruct (w_polls (world s)) as [|[|r|en] rest]; cbn in H; inversion H; subst;
    now apply (emits_one _ _ (SysPoll fd ev t)).
Qed.

Lemma emits_sys_read (fd : Z) (n : nat) : Q (SysRead fd n) -> keeps (emits Q) (sys_read fd n).
Proof.
  intros HQ s a s' H. unfold sys_read in H. cbn in H.
  destruct (w_reads (world s)) as [|[r|en] rest]; cbn in H; inversion H; subst;
    now apply (emits_one _ _ (SysRead fd n)).
Qed.

Lemma emits_sys_write (fd : Z) (d : string) :
  Q (SysWrite fd d) -> keeps (emits Q) (sys_write fd d).
Proof.
  intros HQ s a s' H. unfold sys_write in H. cbn in H.
  destruct (w_writes (world s)) as [|[r|en] rest]; cbn in H; inversion H; subst;
    now apply (emits_one _ _ (SysWrite fd d)).
Qed.

Lemma emits_sys_close (fd : Z) : Q (SysClose fd) -> keeps (emits Q) (sys_close fd).
Proof.
  intros HQ s a s' H. unfold sys_close in H. cbn in H. inversion H; subst.
  now apply (emits_one _ _ (SysClose fd)).
Qed.

End Emits.

Section Token.
Context {P : Platform}.

Lemma auth_string_hex (user password : string) :
  generateAuthString user password = hex_encode (user ++ ":") ++ hex_encode (SHA1 password).
Proof.
  unfold generateAuthString. rewrite bin2hex_spec.
  rewrite <- (SHA1_length password), bin2hex_spec. reflexivity.
Qed.

Lemma doAuth_writes_token (s : Machine) (b : bool) (s' : Machine) :
  doAuth s = Some (b, s') ->
  emits (writes_only (generateAuthString (m_user (conn s)) (m_password (conn s)))) s s'.
Proof.
  intros H.
  set (tok := generateAuthString (m_user (conn s)) (m_password (conn s))).
  apply (io_doAuth_at (emits (writes_only tok)) (fun d => d = tok)) with (c := conn s) (b := b);
    try reflexivity; try exact H; intros.
  - apply emits_error.
  - now apply emits_sys_poll.
  - now apply emits_sys_read.
  - subst. now apply emits_sys_write.
Qed.

Ltac any_side :=
  intros;
  first [ exact I
        | apply emits_error
        | apply emits_sys_poll; exact I
        | apply emits_sys_read; exact I
        | apply emits_sys_write; exact I ].

Lemma write_retry_first (fuel : nat) (fd : Z) (data : string) (s : Machine) (rc : Z)
    (s' : Machine) :
  write_retry fuel fd data s = Some (rc, s') ->
  exists more, w_trace (world s') = (w_trace (world s) ++ SysWrite fd data :: more)%list.
Proof.
  assert (Hrest : forall k, keeps (emits any_call) (write_retry k fd data))
    by (intros k; apply (io_write_retry (emits any_call) (fun _ => True)); any_side).
  intros H.
  assert (Hstep : exists r s1,
            sys_write fd data s = Some (r, s1) /\
            w_trace (world s1) = (w_trace (world s) ++ [SysWrite fd data])%list /\
            emits any_call s1 s').
  { destruct fuel as [|k]; cbn [write_retry] in H; unfold bind at 1 in H;
      destruct (sys_write fd data s) as [[r s1]|] eqn:E; try discriminate;
      exists r, s1; (split; [reflexivity|]);
      (split;
       [ unfold sys_write in E; cbn in E;
         destruct (w_writes (world s)) as [|[x|en] rest]; cbn in E; inversion E; subst;
         reflexivity
       | ]);
      revert H; generalize s1 as t; revert rc s';
      intros rc s' t H; revert t rc s' H;
      match goal with |- forall t rc s', ?m t = Some (rc, s') -> _ =>
        change (keeps (emits any_call) m) end;
      repeat first [ apply Hrest | monad_step ]. }
  destruct Hstep as (r & s1 & _ & Ht & (more & Hmore & _)).
  exists more. rewrite Hmore, Ht, <- app_assoc. reflexivity.
Qed.

Lemma wait_for_event_ready (events : Z) (s : Machine) (revents : Z) (rest : list poll_reply) :
  w_polls (world s) = PollReady revents :: rest ->
  is_poll_error revents = false ->
  wait_for_event events s =
  Some (1, mkMachine (conn s)
             (with_polls rest
                (log (SysPoll (m_fd (conn s)) events (int_mul (m_timeout (conn s)) 1000)) (world s)))
             (heap s)).
Proof.
  intros Hp Herr. unfold wait_for_event, sys_poll, bind, this, env, set_env, ret.
  cbn [log w_polls world]. rewrite Hp. cbn. rewrite Herr. reflexivity.
Qed.

Lemma nointr_write_first (src : string) (s : Machine) (revents : Z) (rest : list poll_reply)
    (r : Z) (s' : Machine) :
  w_polls (world s) = PollReady revents :: rest ->
  is_poll_error revents = false ->
  nointr_write src (String.length src) s = Some (r, s') ->
  exists more,
    w_trace (world s') =
    (w_trace (world s) ++
     SysPoll (m_fd (conn s)) POLLOUT (int_mul (m_timeout (conn s)) 1000) ::
     SysWrite (m_fd (conn s)) src :: more)%list.
Proof.
  intros Hp Herr H. unfold nointr_write in H. rewrite take_length in H.
  unfold bind at 1 in H. rewrite (wait_for_event_ready _ _ _ _ Hp Herr) in H.
  cbn [Z.ltb Z.compare] in H. unfold bind at 1 in H. cbn [this conn] in H.
  unfold bind at 1 in H. cbn [env world] in H. unfold bind at 1 in H.
  match type of H with
  | context [write_retry ?f ?fd ?d ?st] =>
      destruct (write_retry f fd d st) as [[rc s1]|] eqn:E; [|discriminate];
      destruct (write_retry_first _ _ _ _ _ _ E) as [more1 Hm1]
  end.
  assert (Hrest : emits any_call s1 s').
  { revert H. generalize s1 as t. intros t H. revert t r s' H.
    match goal with |- forall t r s', ?m t = Some (r, s') -> _ =>
      change (keeps (emits any_call) m) end.
    repeat first
      [ apply emits_error
      | match goal with
        | |- keeps _ (assign (set_error ?e)) => apply (emits_error any_call (fun _ => e))
        end
      | monad_step ]. }
  destruct Hrest as (more2 & Hm2 & _).
  exists (more1 ++ more2)%list. rewrite Hm2, Hm1. cbn.
  rewrite <- !app_assoc. reflexivity.
Qed.

(** C3.  The token is a function of the pair: the lower-case hexadecimal
    encoding of [user ++ ":"] followed by that of the 20-byte SHA-1 digest of
    the password; it holds no line terminator.  Every [write] that [doAuth]
    issues carries exactly the token, with nothing after it; and when the
    socket is writable, the token is what [doAuth] writes first, after one
    [poll] (with the timeout in milliseconds when that fits an [int]). *)
Theorem auth_token_is_hex_of_user_and_digest (user password : string) :
  generateAuthString user password = hex_encode (user ++ ":") ++ hex_encode (SHA1 password) /\
  String.length (SHA1 password) = 20%nat /\
  String.length (generateAuthString user password)
    = (2 * (String.length user + 1) + 40)%nat /\
  str_has newline (generateAuthString user password) = false /\
  (forall s b s',
     m_user (conn s) = user -> m_password (conn s) = password ->
     doAuth s = Some (b, s') ->
     exists calls,
       w_trace (world s') = (w_trace (world s) ++ calls)%list /\
       Forall (writes_only (generateAuthString user password)) calls) /\
  (forall s b s' revents rest,
     m_user (conn s) = user -> m_password (conn s) = password ->
     w_polls (world s) = PollReady revents :: rest ->
     is_poll_error revents = false ->
     doAuth s = Some (b, s') ->
     exists ms more,
       w_trace (world s') =
       (w_trace (world s) ++
        SysPoll (m_fd (conn s)) POLLOUT ms ::
        SysWrite (m_fd (conn s)) (generateAuthString user password) :: more)%list /\
       (timeout_fits (conn s) -> ms = m_timeout (conn s) * 1000)).
Proof.
  assert (Hlen : forall x, String.length (hex_encode x) = (2 * String.length x)%nat).
  { induction x as [|c x IH]; simpl; [reflexivity | rewrite IH; lia]. }
  split; [apply auth_string_hex|].
  split; [apply SHA1_length|].
  split.
  { rewrite auth_string_hex, !length_append, !Hlen, length_append, SHA1_length.
    unfold SHA_DIGEST_LENGTH. simpl String.length. lia. }
  split.
  { rewrite auth_string_hex, str_has_append, !hex_encode_no_newline. reflexivity. }
  split.
  - intros s b s' <- <- H. exact (doAuth_writes_token s b s' H).
  - intros s b s' revents rest <- <- Hp Herr H.
    unfold doAuth in H. unfold bind at 1 in H. cbn [this] in H.
    unfold bind at 1 in H.
    match type of H with
    | context [nointr_write ?src ?n s] =>
        destruct (nointr_write src n s) as [[r s1]|] eqn:E; [|discriminate];
        destruct (nointr_write_first _ _ _ _ _ _ Hp Herr E) as [more1 Hm1]
    end.
    assert (Hrest : emits any_call s1 s').
    { revert H. generalize s1 as t. intros t H. revert t b s' H.
      match goal with |- forall t b s', ?m t = Some (b, s') -> _ =>
        change (keeps (emits any_call) m) end.
      repeat first
        [ apply (io_nointr_read (emits any_call)); any_side
        | apply emits_error
        | match goal with
          | |- keeps _ (assign (set_error ?e)) => apply (emits_error any_call (fun _ => e))
          end
        | monad_step ]. }
    destruct Hrest as (more2 & Hm2 & _).
    exists (int_mul (m_timeout (conn s)) 1000), (more1 ++ more2)%list.
    split; [|intros Hfit; apply int_mul_fits; exact Hfit].
    rewrite Hm2, Hm1. cbn [app].
    rewrite <- !app_assoc. reflexivity.
Qed.

End Token.

(** The handshake of user maxscale with password maxscale. *)
Lemma auth_token_example :
  let w := mkWorld [] [PollReady POLLOUT; PollReady POLLIN] [ReadData OK_RESPONSE]
             [Returns 58] 0 "" [] in
  generateAuthString "maxscale" "maxscale" = maxscale_token /\
  exists s',
    doAuth (session w) = Some (true, s') /\
    exists more,
      w_trace (world s') =
      (SysPoll 3 POLLOUT 10000 :: SysWrite 3 maxscale_token :: more)%list.
Proof.
  cbv zeta. split; [vm_compute; reflexivity|].
  set (w := mkWorld [] [PollReady POLLOUT; PollReady POLLIN] [ReadData OK_RESPONSE]
              [Returns 58] 0 "" []).
  destruct (doAuth (session w)) as [[[|] s']|] eqn:E;
    try (exfalso; vm_compute in E; discriminate).
  exists s'. split; [reflexivity|].
  destruct (proj2 (proj2 (proj2 (proj2 (proj2
              (auth_token_is_hex_of_user_and_digest "maxscale" "maxscale")))))
              (session w) true s' POLLOUT [PollReady POLLIN]
              eq_refl eq_refl eq_refl eq_refl E) as (ms & more & Ht & Hms).
  exists more. rewrite Ht, Hms; [reflexivity|].
  unfold timeout_fits, fits_int, INT_MIN, INT_MAX. cbn. lia.
Defined.

(** ** The error marker (C2) *)

Section ErrorMarker.
Context {P : Platform}.

Lemma is_err_prefix_spec (dest : string) :
  is_err_prefix dest = true <-> exists rest, dest = "ERR" ++ rest.
Proof.
  unfold is_err_prefix, char_at. split.
  - destruct dest as [|a [|b [|c rest]]]; cbn; [discriminate | | |].
    { destruct (Ascii.eqb a "E"); discriminate. }
    { destruct (Ascii.eqb a "E"), (Ascii.eqb b "R"); discriminate. }
    destruct (Ascii.eqb_spec a "E"); [|discriminate].
    destruct (Ascii.eqb_spec b "R"); [|discriminate].
    destruct (Ascii.eqb_spec c "R"); [|discriminate].
    subst. intros _. now exists rest.
  - intros [rest ->]. reflexivity.
Qed.

(** Whatever follows the marker, [readRow] fails at its third byte: the
    rest of the line stays in the socket and the message is the marker.  The
    three polls carry the timeout in milliseconds, which is required to fit
    an [int]. *)
Theorem readRow_stops_at_marker (c : Connection) (h : list InternalRow.t) (rest : string) :
  timeout_fits c ->
  readRow "" (mkMachine c (serving ("ERR" ++ rest)) h) =
  Some ((false, "ERR"),
        mkMachine (set_error "Server responded with an error: ERR" c)
          (mkWorld [] (ready POLLIN rest) (one_by_one rest) [] 0 ""
             [SysPoll (m_fd c) POLLIN (m_timeout c * 1000); SysRead (m_fd c) 1;
              SysPoll (m_fd c) POLLIN (m_timeout c * 1000); SysRead (m_fd c) 1;
              SysPoll (m_fd c) POLLIN (m_timeout c * 1000); SysRead (m_fd c) 1])
          h).
Proof.
  intros Hfit. rewrite <- (int_mul_fits _ _ Hfit). clear Hfit.
  destruct c. lazy -[int_mul Z.mul]. reflexivity.
Qed.

End ErrorMarker.

(** The line ["ERROR: unknown table"] on the connection of the example. *)
Lemma readRow_stops_at_marker_example :
  exists s',
    readRow "" (session (serving "ERROR: unknown table")) = Some ((false, "ERR"), s') /\
    getError (conn s') = "Server responded with an error: ERR" /\
    w_reads (world s') = one_by_one "OR: unknown table".
Proof.
  eexists. split; [|split].
  - apply (readRow_stops_at_marker (set_fd 3 example_connection) [] "OR: unknown table").
    unfold timeout_fits, fits_int, INT_MIN, INT_MAX. cbn. lia.
  - reflexivity.
  - reflexivity.
Defined.

(** C2 at the line ["ERR: no such table"]: decoding fails, but the message
    recorded is ["Server responded with an error: ERR"]; the text after the
    marker is not in it and is still unread. *)
Theorem readRow_error_line_loses_message :
  exists s',
    readRow "" (session (serving ("ERR: no such table" ++ LF))) = Some ((false, "ERR"), s') /\
    getError (conn s') = "Server responded with an error: ERR" /\
    contains "no such table" (getError (conn s')) = false /\
    w_reads (world s') = one_by_one (": no such table" ++ LF).
Proof.
  eexists (mkMachine _ _ _). split; [vm_compute; reflexivity|].
  repeat split.
Qed.

(** ** The recursion of [read] (C1) *)

Lemma polls_used_same_world (s s' : Machine) : world s' = world s -> polls_used s s'.
Proof. intros H. unfold polls_used, polls_left. rewrite H. lia. Qed.

Lemma polls_used_error (g : Connection -> string) :
  keeps polls_used (assign (fun c => set_error (g c) c)).
Proof. apply keeps_assign. intros s. now apply polls_used_same_world. Qed.

Lemma polls_used_sys_poll (fd ev t : Z) : keeps polls_used (sys_poll fd ev t).
Proof.
  intros s a s' H. unfold sys_poll in H. cbn in H. unfold polls_used, polls_left.
  destruct (w_polls (world s)) as [|[|r|en] rest] eqn:E; cbn in H; inversion H; subst;
    cbn; rewrite ?E; cbn; lia.
Qed.

Lemma polls_used_sys_read (fd : Z) (n : nat) : keeps polls_used (sys_read fd n).
Proof.
  intros s a s' H. unfold sys_read in H. cbn in H. unfold polls_used, polls_left.
  destruct (w_reads (world s)) as [|[r|en] rest]; cbn in H; inversion H; subst; cbn; lia.
Qed.

Section Recursion.
Context {P : Platform}.

Lemma polls_used_nointr_read (size : nat) : keeps polls_used (nointr_read size).
Proof.
  apply (io_nointr_read polls_used); intros;
    [apply polls_used_error | apply polls_used_sys_poll | apply polls_used_sys_read].
Qed.

Lemma polls_used_readRow_loop (fuel : nat) (dest : string) :
  keeps polls_used (readRow_loop fuel dest).
Proof.
  apply (io_readRow_loop polls_used); intros;
    [apply polls_used_error | apply polls_used_sys_poll | apply polls_used_sys_read].
Qed.

Lemma wait_for_event_positive (events : Z) (s : Machine) (ev : Z) (s' : Machine) :
  wait_for_event events s = Some (ev, s') -> 0 < ev ->
  (polls_left s' < polls_left s)%nat.
Proof.
  unfold wait_for_event, sys_poll, polls_left, bind, this, env, set_env, ret, assign, errno.
  cbn [log w_polls world].
  destruct (w_polls (world s)) as [|[|r|en] rest]; cbn;
    try (intros H Hev; inversion H; subst; lia).
  destruct (is_poll_error r); cbn; intros H Hev; inversion H; subst; cbn; lia.
Qed.

Lemma nointr_read_positive (size : nat) (s : Machine) (rc : Z) (got : string) (s' : Machine) :
  nointr_read size s = Some ((rc, got), s') -> rc <> 0 -> rc <> -1 ->
  (polls_left s' < polls_left s)%nat.
Proof.
  intros H H0 H1. unfold nointr_read in H. unfold bind at 1 in H.
  destruct (wait_for_event POLLIN s) as [[ev s1]|] eqn:E; [|discriminate].
  destruct (Z.ltb_spec 0 ev) as [Hev|Hev].
  - pose proof (wait_for_event_positive _ _ _ _ E Hev) as Hlt.
    assert (Hle : polls_used s1 s').
    { revert H. generalize s1 as t. intros t H.
      generalize (rc, got) as r, H. clear H. intros r. revert t r s'.
      match goal with |- forall t r s', ?m t = Some (r, s') -> _ =>
        change (keeps polls_used m) end.
      repeat first
        [ apply (io_read_retry polls_used); intros; apply polls_used_sys_read
        | apply polls_used_error
        | match goal with
          | |- keeps _ (assign (set_error ?e)) => apply (polls_used_error (fun _ => e))
          end
        | monad_step ]. }
    unfold polls_used in Hle. lia.
  - inversion H; subst. congruence.
Qed.

Lemma readRow_loop_line (fuel : nat) (dest : string) (s : Machine) (line : string)
    (s' : Machine) :
  readRow_loop fuel dest s = Some ((true, line), s') ->
  (polls_left s' < polls_left s)%nat.
Proof.
  intros H.
  assert (Hfirst : exists rc got s1,
            nointr_read 1 s = Some ((rc, got), s1) /\ rc <> 0 /\ rc <> -1 /\
            polls_used s1 s').
  { destruct fuel as [|k]; cbn [readRow_loop] in H; unfold bind at 1 in H;
      destruct (nointr_read 1 s) as [[[rc got] s1]|] eqn:E; try discriminate;
      exists rc, got, s1; (split; [reflexivity|]);
      destruct (Z.eqb_spec rc (-1)) as [|Hm]; try (cbn in H; discriminate);
      destruct (Z.eqb_spec rc 0) as [|Hz]; try (cbn in H; discriminate);
      (split; [exact Hz|]); (split; [exact Hm|]);
      destruct (Ascii.eqb (char_at got 0) newline);
      try (inversion H; subst; reflexivity);
      destruct (is_err_prefix (dest ++ String (char_at got 0) "")); cbn in H;
      try discriminate.
    - exact (polls_used_readRow_loop _ _ _ _ _ H). }
  destruct Hfirst as (rc & got & s1 & E & Hz & Hm & Hle).
  pose proof (nointr_read_positive _ _ _ _ _ E Hz Hm). unfold polls_used in Hle. lia.
Qed.

Lemma readRow_line (s : Machine) (line : string) (s' : Machine) :
  readRow "" s = Some ((true, line), s') -> (polls_left s' < polls_left s)%nat.
Proof. unfold readRow. cbn [bind env]. apply readRow_loop_line. Qed.

Lemma read_rec_eq (fuel : nat) (s : Machine) :
  read_rec fuel s =
  match readRow "" s with
  | Some ((true, row), s1) =>
      match json_loads (c_str row) with
      | inl js =>
          if is_schema (Some js) then
            match processSchema (Some js) (set_schema_in row s1) with
            | Some (_, s2) =>
                match fuel with
                | S k => read_rec k s2
                | O => Some (None, s2)
                end
            | None => None
            end
          else processRow (Some js) s1
      | inr text => Some (None, parse_error_in text s1)
      end
  | Some ((false, _), s1) => Some (None, s1)
  | None => None
  end.
Proof.
  destruct fuel as [|k]; cbn [read_rec]; unfold bind at 1;
    destruct (readRow "" s) as [[[[|] row] s1]|]; try reflexivity;
    destruct (json_loads (c_str row)) as [js|text]; try reflexivity;
    destruct (is_schema (Some js)); try reflexivity;
    unfold bind at 1; cbn [assign]; unfold bind at 1; fold (set_schema_in row s1);
    destruct (processSchema (Some js) (set_schema_in row s1)) as [[[] s2]|]; reflexivity.
Qed.

(** The fuel that [read] passes is enough: more changes nothing. *)
Lemma read_rec_fuel (k k' : nat) (s : Machine) :
  (polls_left s <= k)%nat -> (polls_left s <= k')%nat -> read_rec k s = read_rec k' s.
Proof.
  revert k' s. induction k as [|k IH]; intros k' s Hk Hk'; rewrite (read_rec_eq _ s);
    rewrite (read_rec_eq k' s);
    destruct (readRow "" s) as [[[[|] row] s1]|] eqn:E; try reflexivity;
    apply readRow_line in E;
    destruct (json_loads (c_str row)) as [js|text]; try reflexivity;
    destruct (is_schema (Some js)); try reflexivity;
    rewrite processSchema_eq;
    destruct (schema_namevals (schema_fields (Some js))) as [names|]; try reflexivity.
  - exfalso. lia.
  - destruct k' as [|k']; [exfalso; lia|].
    apply IH; unfold polls_left in *; cbn; lia.
Qed.

Lemma read_eq (s : Machine) : read s = read_rec (polls_left s) s.
Proof. reflexivity. Qed.

(** After a schema line, [read] stores the line, replaces the registry and
    reads again; that is undefined when [processSchema] is. *)
Lemma read_schema_line (s s1 : Machine) (line : string) (js : json) :
  readRow "" s = Some ((true, line), s1) ->
  json_loads (c_str line) = inl js ->
  is_schema (Some js) = true ->
  read s =
  match processSchema (Some js) (set_schema_in line s1) with
  | Some (_, s2) => read s2
  | None => None
  end.
Proof.
  intros Hrow Hjs Hsch. rewrite read_eq, read_rec_eq, Hrow, Hjs, Hsch.
  pose proof (readRow_line _ _ _ Hrow) as Hlt.
  rewrite processSchema_eq.
  destruct (schema_namevals (schema_fields (Some js))) as [names|]; [|reflexivity].
  rewrite read_eq.
  destruct (polls_left s) as [|k] eqn:Ek; [exfalso; lia|].
  apply read_rec_fuel; unfold polls_left in *; cbn; lia.
Qed.

(** Every Row that [read] returns was built by [processRow] from an object
    that is not schema-shaped. *)
Lemma read_rec_returns_data (fuel : nat) (s : Machine) (a : nat) (s' : Machine) :
  read_rec fuel s = Some (Some a, s') ->
  exists js s1, is_schema (Some js) = false /\ processRow (Some js) s1 = Some (Some a, s').
Proof.
  revert s. induction fuel as [|k IH]; intros s H; rewrite read_rec_eq in H;
    destruct (readRow "" s) as [[[[|] row] s1]|]; try discriminate;
    destruct (json_loads (c_str row)) as [js|text]; try discriminate;
    destruct (is_schema (Some js)) eqn:Es;
    try (now exists js, s1);
    destruct (processSchema (Some js) (set_schema_in row s1)) as [[[] s2]|];
    try discriminate.
  now apply IH in H.
Qed.

End Recursion.

Section ReadTheorems.
Context {P : Platform}.

(** A schema line is consumed by [read], not returned: when [processSchema]
    is defined on it, [read] continues with the next line in a state that
    holds the raw line as schema text and the new registry; and a Row that
    [read] returns was built from an object that is not schema-shaped. *)
Theorem read_skips_schema_lines :
  (forall s s1 s2 line js,
     readRow "" s = Some ((true, line), s1) ->
     json_loads (c_str line) = inl js ->
     is_schema (Some js) = true ->
     processSchema (Some js) (set_schema_in line s1) = Some (tt, s2) ->
     read s = read s2 /\
     getSchema (conn s2) = line /\
     (exists names,
        schema_namevals (schema_fields (Some js)) = Some names /\
        m_keys (conn s2) = names /\
        m_types (conn s2) = map schema_typeval (schema_fields (Some js)))) /\
  (forall s a s',
     read s = Some (Some a, s') ->
     exists js s1,
       is_schema (Some js) = false /\ processRow (Some js) s1 = Some (Some a, s')).
Proof.
  split.
  - intros s s1 s2 line js Hrow Hjs Hsch Hps.
    split; [rewrite (read_schema_line s s1 line js Hrow Hjs Hsch), Hps; reflexivity|].
    rewrite processSchema_eq in Hps.
    destruct (schema_namevals (schema_fields (Some js))) as [names|]; [|discriminate].
    inversion Hps; subst. split; [reflexivity|]. exists names. repeat split.
  - intros s a s' H. rewrite read_eq in H. exact (read_rec_returns_data _ _ _ _ H).
Qed.

End ReadTheorems.

(** The two lines of the specification's example, read by one call. *)
Theorem read_two_line_example :
  exists s' r,
    read (session example_stream) = Some (Some 0%nat, s') /\
    deref s' (Some 0%nat) = Some r /\
    InternalRow.value r "col1" = Some "hello" /\
    InternalRow.gtid r = Some "0-1-5" /\
    getSchema (conn s') = example_schema_line /\
    getError (conn s') = "".
Proof.
  eexists (mkMachine _ _ [_]). eexists.
  split; [vm_compute; reflexivity|].
  split; [reflexivity|].
  repeat split.
Qed.

(** C1 at a schema-shaped line whose first field has a number for a name:
    [processSchema] builds a [std::string] from the null pointer that
    [json_string_value] returns, and [read] is undefined instead of skipping
    the line. *)
Theorem read_schema_line_with_numeric_name :
  json_loads bad_schema_line
    = inl (JObject [("fields", JArray [JObject [("name", JInteger 1)]])]) /\
  is_schema (Some (JObject [("fields", JArray [JObject [("name", JInteger 1)]])])) = true /\
  schema_nameval (JObject [("name", JInteger 1)]) = None /\
  read (session (serving (bad_schema_line ++ LF ++ example_row_line ++ LF))) = None.
Proof.
  split; [vm_compute; reflexivity|].
  split; [reflexivity|].
  split; [reflexivity|].
  vm_compute. reflexivity.
Qed.

(** ** The bounds of the loops are never reached

    Each loop of the transport is given as many repetitions as the
    environment has answers left; with any larger number it computes the
    same. *)

Section Bounds.
Context {P : Platform}.

Lemma read_retry_fuel (k k' : nat) (fd : Z) (size : nat) (s : Machine) :
  (List.length (w_reads (world s)) <= k)%nat ->
  (List.length (w_reads (world s)) <= k')%nat ->
  read_retry k fd size s = read_retry k' fd size s.
Proof.
  revert k' s. induction k as [|k IH]; intros k' s Hk Hk'; destruct k' as [|k'];
    try reflexivity; cbn [read_retry]; unfold bind at 1; unfold bind at 2;
    unfold sys_read; cbn [bind env log w_reads world];
    destruct (w_reads (world s)) as [|[bytes|en] rest] eqn:E;
    cbn [bind set_env ret errno fst]; cbn in Hk, Hk'; try lia; try reflexivity;
    cbn [Z.ltb Z.compare andb].
  all: match goal with
       | |- (if ?c then _ else _) _ = _ => destruct c; [apply IH; cbn; lia | reflexivity]
       end.
Qed.

Lemma write_retry_fuel (k k' : nat) (fd : Z) (data : string) (s : Machine) :
  (List.length (w_writes (world s)) <= k)%nat ->
  (List.length (w_writes (world s)) <= k')%nat ->
  write_retry k fd data s = write_retry k' fd data s.
Proof.
  revert k' s. induction k as [|k IH]; intros k' s Hk Hk'; destruct k' as [|k'];
    try reflexivity; cbn [write_retry]; unfold bind at 1; unfold bind at 2;
    unfold sys_write; cbn [bind env log w_writes world];
    destruct (w_writes (world s)) as [|[r|en] rest] eqn:E;
    cbn [bind set_env ret errno]; cbn in Hk, Hk'; try lia; try reflexivity;
    cbn [Z.ltb Z.compare andb].
  all: match goal with
       | |- (if ?c then _ else _) _ = _ => destruct c; [apply IH; cbn; lia | reflexivity]
       end.
Qed.

Lemma readRow_loop_eq (fuel : nat) (dest : string) (s : Machine) :
  readRow_loop fuel dest s =
  match nointr_read 1 s with
  | Some ((rc, got), s1) =>
      if rc =? -1 then
        Some ((false, dest),
              mkMachine (set_error ("Failed to read row: " ++ strerror (w_errno (world s1)))
                           (conn s1)) (world s1) (heap s1))
      else if rc =? 0 then
        Some ((false, dest),
              mkMachine (set_error "Request timed out" (conn s1)) (world s1) (heap s1))
      else if Ascii.eqb (char_at got 0) newline then Some ((true, dest), s1)
      else
        let dest := dest ++ String (char_at got 0) EmptyString in
        if is_err_prefix dest then
          Some ((false, dest),
                mkMachine (set_error ("Server responded with an error: " ++ dest) (conn s1))
                  (world s1) (heap s1))
        else
          match fuel with
          | S k => readRow_loop k dest s1
          | O => Some ((false, dest), s1)
          end
  | None => None
  end.
Proof.
  destruct fuel as [|k]; cbn [readRow_loop]; unfold bind at 1;
    destruct (nointr_read 1 s) as [[[rc got] s1]|]; try reflexivity;
    destruct (rc =? -1); try reflexivity;
    destruct (rc =? 0); try reflexivity;
    destruct (Ascii.eqb (char_at got 0) newline); try reflexivity;
    cbv zeta; destruct (is_err_prefix (dest ++ String (char_at got 0) "")); reflexivity.
Qed.

Lemma readRow_loop_fuel (k k' : nat) (dest : string) (s : Machine) :
  (polls_left s <= k)%nat -> (polls_left s <= k')%nat ->
  readRow_loop k dest s = readRow_loop k' dest s.
Proof.
  revert k' dest s. induction k as [|k IH]; intros k' dest s Hk Hk';
    rewrite (readRow_loop_eq _ dest s); rewrite (readRow_loop_eq k' dest s);
    destruct (nointr_read 1 s) as [[[rc got] s1]|] eqn:E; try reflexivity;
    destruct (Z.eqb_spec rc (-1)) as [|Hm]; try reflexivity;
    destruct (Z.eqb_spec rc 0) as [|Hz]; try reflexivity;
    pose proof (nointr_read_positive _ _ _ _ _ E Hz Hm) as Hlt;
    try (exfalso; lia).
  destruct k' as [|k']; [exfalso; lia|].
  destruct (Ascii.eqb (char_at got 0) newline); [reflexivity|].
  cbv zeta. destruct (is_err_prefix (dest ++ String (char_at got 0) "")); [reflexivity|].
  apply IH; lia.
Qed.

End Bounds.

(** * Further properties of the code *)

(** ** Line framing in [readRow] *)

Lemma ready_append (events : Z) (a b : string) :
  ready events (a ++ b) = (ready events a ++ ready events b)%list.
Proof. induction a as [|c a IH]; simpl; [reflexivity | now rewrite IH]. Qed.

Lemma one_by_one_append (a b : string) :
  one_by_one (a ++ b) = (one_by_one a ++ one_by_one b)%list.
Proof. induction a as [|c a IH]; simpl; [reflexivity | now rewrite IH]. Qed.

Lemma ready_length (events : Z) (a : string) :
  List.length (ready events a) = String.length a.
Proof. induction a as [|c a IH]; simpl; [reflexivity | now rewrite IH]. Qed.

Lemma marker_free_prefix (dest : string) (b : ascii) (rest : string) :
  ~ starts_with_marker (dest ++ String b rest) ->
  is_err_prefix (dest ++ String b "") = false.
Proof.
  intros H. destruct (is_err_prefix (dest ++ String b "")) eqn:E; [|reflexivity].
  exfalso. apply H. apply is_err_prefix_spec in E. destruct E as [r E].
  exists (r ++ rest).
  replace (dest ++ String b rest) with ((dest ++ String b "") ++ rest)
    by (rewrite append_assoc; reflexivity).
  rewrite E. reflexivity.
Qed.

Section Framing.
Context {P : Platform}.

Lemma sys_read_data (fd : Z) (size : nat) (s : Machine) (bytes : string)
    (rs : list read_reply) :
  w_reads (world s) = ReadData bytes :: rs ->
  sys_read fd size s =
  Some ((Z.of_nat (String.length (take size bytes)), take size bytes),
        mkMachine (conn s) (with_reads rs (log (SysRead fd size) (world s))) (heap s)).
Proof.
  intros H. unfold sys_read, bind, env, set_env, ret.
  cbn [log w_reads world]. rewrite H. reflexivity.
Qed.

Lemma read_retry_data (fuel : nat) (fd : Z) (size : nat) (s : Machine) (bytes : string)
    (rs : list read_reply) :
  w_reads (world s) = ReadData bytes :: rs ->
  read_retry fuel fd size s =
  Some ((Z.of_nat (String.length (take size bytes)), take size bytes),
        mkMachine (conn s) (with_reads rs (log (SysRead fd size) (world s))) (heap s)).
Proof.
  intros H.
  assert (Hneg : (Z.of_nat (String.length (take size bytes)) <? 0) = false)
    by (apply Z.ltb_ge; lia).
  destruct fuel; cbn [read_retry]; unfold bind at 1;
    rewrite (sys_read_data fd size s bytes rs H); unfold bind at 1; cbn [errno fst];
    rewrite Hneg; reflexivity.
Qed.

Lemma nointr_read_byte (s : Machine) (b : ascii) (ps : list poll_reply)
    (rs : list read_reply) :
  w_polls (world s) = PollReady POLLIN :: ps ->
  w_reads (world s) = ReadData (String b "") :: rs ->
  nointr_read 1 s = Some ((1, String b ""), after_byte s).
Proof.
  intros Hp Hr. unfold nointr_read. unfold bind at 1.
  rewrite (wait_for_event_ready POLLIN s POLLIN ps Hp eq_refl).
  cbn [Z.ltb Z.compare]. unfold bind at 1. cbn [this]. unfold bind at 1. cbn [env].
  unfold bind at 1.
  rewrite (read_retry_data _ _ 1 _ (String b "") rs) by (cbn; exact Hr).
  unfold after_byte. rewrite Hp, Hr. reflexivity.
Qed.

Lemma after_bytes_frame (n : nat) (s : Machine) :
  conn (after_bytes n s) = conn s /\ heap (after_bytes n s) = heap s /\
  w_calls (world (after_bytes n s)) = w_calls (world s) /\
  w_writes (world (after_bytes n s)) = w_writes (world s) /\
  w_errno (world (after_bytes n s)) = w_errno (world s) /\
  w_stack (world (after_bytes n s)) = w_stack (world s).
Proof.
  revert s. induction n as [|n IH]; intros s; [repeat split|].
  cbn [after_bytes]. destruct (IH (after_byte s)) as (H1 & H2 & H3 & H4 & H5 & H6).
  rewrite H1, H2, H3, H4, H5, H6. repeat split.
Qed.

Lemma after_bytes_scripts (bytes : string) (s : Machine) (ps : list poll_reply)
    (rs : list read_reply) :
  w_polls (world s) = (ready POLLIN bytes ++ ps)%list ->
  w_reads (world s) = (one_by_one bytes ++ rs)%list ->
  w_polls (world (after_bytes (String.length bytes) s)) = ps /\
  w_reads (world (after_bytes (String.length bytes) s)) = rs.
Proof.
  revert s. induction bytes as [|b bytes IH]; intros s Hp Hr; [now split|].
  cbn [String.length after_bytes]. apply IH; cbn; [rewrite Hp | rewrite Hr]; reflexivity.
Qed.

(** The loop over bytes that neither end the line nor complete the marker. *)
Lemma readRow_loop_bytes (bytes dest : string) (k : nat) (s : Machine)
    (ps : list poll_reply) (rs : list read_reply) :
  w_polls (world s) = (ready POLLIN bytes ++ ps)%list ->
  w_reads (world s) = (one_by_one bytes ++ rs)%list ->
  str_has newline bytes = false ->
  ~ starts_with_marker (dest ++ bytes) ->
  readRow_loop (String.length bytes + k) dest s =
  readRow_loop k (dest ++ bytes) (after_bytes (String.length bytes) s).
Proof.
  revert dest s. induction bytes as [|b bytes IH]; intros dest s Hp Hr Hnl Hm.
  - cbn. now rewrite append_nil_r.
  - cbn [str_has] in Hnl. apply orb_false_iff in Hnl as [Hb Hnl].
    cbn [String.length Nat.add after_bytes].
    rewrite readRow_loop_eq.
    rewrite (nointr_read_byte s b (ready POLLIN bytes ++ ps) (one_by_one bytes ++ rs) Hp Hr).
    cbn [Z.eqb char_at String.get]. rewrite Hb. cbv zeta.
    rewrite (marker_free_prefix dest b bytes Hm).
    rewrite IH.
    + rewrite append_assoc. reflexivity.
    + cbn. now rewrite Hp.
    + cbn. now rewrite Hr.
    + exact Hnl.
    + rewrite append_assoc. exact Hm.
Qed.

Lemma wait_for_event_not_ready (events : Z) (s : Machine) :
  not_ready (w_polls (world s)) ->
  exists rc s1, wait_for_event events s = Some (rc, s1) /\ (0 <? rc) = false.
Proof.
  unfold wait_for_event, sys_poll, bind, this, env, set_env, ret, assign, errno.
  cbn [log w_polls world].
  destruct (w_polls (world s)) as [|[|rev|en] ps]; cbn; intros H;
    try rewrite H; cbn; eexists; eexists; split; reflexivity.
Qed.

Lemma sys_read_nothing (fd : Z) (size : nat) (s : Machine) :
  nothing_read (w_reads (world s)) ->
  exists rc s1,
    sys_read fd size s = Some ((rc, ""), s1) /\
    (rc = 0 \/ rc = -1 /\ w_errno (world s1) = EAGAIN).
Proof.
  unfold sys_read, bind, env, set_env, ret. cbn [log w_reads world].
  destruct (w_reads (world s)) as [|[bytes|en] rs]; cbn; intros H; subst.
  - eexists; eexists; split; [reflexivity | now left].
  - destruct size; eexists; eexists; (split; [reflexivity | now left]).
  - eexists; eexists; split; [reflexivity | right; split; reflexivity].
Qed.

(** Nothing arrives: [nointr_read] answers 0, whatever the reason. *)
Lemma nointr_read_stalls (size : nat) (s : Machine) :
  not_ready (w_polls (world s)) \/
  (exists rev ps, w_polls (world s) = PollReady rev :: ps /\ is_poll_error rev = false /\
                  nothing_read (w_reads (world s))) ->
  exists got s1, nointr_read size s = Some ((0, got), s1).
Proof.
  intros [H|(rev & ps & Hp & Herr & Hr)]; unfold nointr_read; unfold bind at 1.
  - destruct (wait_for_event_not_ready POLLIN s H) as (rc & s1 & -> & ->).
    eexists; eexists; reflexivity.
  - rewrite (wait_for_event_ready POLLIN s rev ps Hp Herr).
    cbn [Z.ltb Z.compare]. unfold bind at 1. cbn [this]. unfold bind at 1. cbn [env].
    unfold bind at 1.
    match goal with
    | |- context [read_retry ?f ?fd size ?st] =>
        destruct (sys_read_nothing fd size st Hr) as (rc & s1 & Hs & Hrc);
        assert (Hrr : read_retry f fd size st = Some ((rc, ""), s1))
    end.
    { match goal with |- read_retry ?f _ _ _ = _ => destruct f end;
        cbn [read_retry]; unfold bind at 1; rewrite Hs; unfold bind at 1; cbn [errno fst];
        destruct Hrc as [->|[-> ->]]; reflexivity. }
    rewrite Hrr. unfold bind at 1. cbn [errno].
    destruct Hrc as [->|[-> ->]]; cbn; eexists; eexists; reflexivity.
Qed.

Lemma readRow_line_framed (dest line : string) (s : Machine) (ps : list poll_reply)
    (rs : list read_reply) :
  w_polls (world s) = (ready POLLIN (line ++ LF) ++ ps)%list ->
  w_reads (world s) = (one_by_one (line ++ LF) ++ rs)%list ->
  str_has newline line = false ->
  ~ starts_with_marker (dest ++ line) ->
  exists s',
    readRow dest s = Some ((true, dest ++ line), s') /\
    conn s' = conn s /\ heap s' = heap s /\
    w_polls (world s') = ps /\ w_reads (world s') = rs /\
    w_writes (world s') = w_writes (world s) /\
    List.length (w_trace (world s')) =
      (List.length (w_trace (world s)) + 2 * (String.length line + 1))%nat.
Proof.
  intros Hp Hr Hnl Hm.
  rewrite ready_append, <- app_assoc in Hp. rewrite one_by_one_append, <- app_assoc in Hr.
  unfold readRow. cbn [bind env]. rewrite Hp, length_app, ready_length.
  rewrite (readRow_loop_bytes line dest _ s _ _ Hp Hr Hnl Hm).
  destruct (after_bytes_scripts line s _ _ Hp Hr) as [Hp1 Hr1].
  destruct (after_bytes_frame (String.length line) s) as (Hc & Hh & _ & Hw & _ & _).
  set (s1 := after_bytes (String.length line) s) in *.
  rewrite readRow_loop_eq.
  rewrite (nointr_read_byte s1 newline ps rs Hp1 Hr1).
  cbn [Z.eqb char_at String.get]. rewrite Ascii.eqb_refl.
  exists (after_byte s1). split; [reflexivity|].
  cbn [after_byte conn heap world with_reads with_polls log w_polls w_reads w_writes w_trace].
  rewrite Hc, Hh, Hp1, Hr1, Hw. repeat split.
  rewrite !length_app. cbn [List.length].
  assert (Ht : forall n t,
            List.length (w_trace (world (after_bytes n t)))
            = (List.length (w_trace (world t)) + 2 * n)%nat).
  { induction n as [|n IH]; intros t; cbn [after_bytes]; [lia|].
    rewrite IH. cbn. rewrite !length_app. cbn. lia. }
  unfold s1. rewrite Ht. lia.
Qed.

(** Line framing.  When the bytes of a line and its terminator are ready,
    the line holds no terminator and the accumulated text does not start with
    the error marker, [readRow] succeeds with the line appended to [dest]; it
    has used up exactly the answers for those bytes and has changed nothing of
    the connection, not even [m_error]. *)
Theorem readRow_returns_line (dest line : string) (s : Machine) (ps : list poll_reply)
    (rs : list read_reply) :
  w_polls (world s) = (ready POLLIN (line ++ LF) ++ ps)%list ->
  w_reads (world s) = (one_by_one (line ++ LF) ++ rs)%list ->
  str_has newline line = false ->
  ~ starts_with_marker (dest ++ line) ->
  exists s',
    readRow dest s = Some ((true, dest ++ line), s') /\
    conn s' = conn s /\ heap s' = heap s /\
    w_polls (world s') = ps /\ w_reads (world s') = rs /\
    w_writes (world s') = w_writes (world s) /\
    List.length (w_trace (world s')) =
      (List.length (w_trace (world s)) + 2 * (String.length line + 1))%nat.
Proof. exact (readRow_line_framed dest line s ps rs). Qed.

(** The input stops before the terminator: a timeout, a failed or
    error-flagged [poll], an end of file and [EAGAIN] all end [readRow] the
    same way, with the bytes read so far appended to [dest] and the message
    ["Request timed out"] in place of any other. *)
Theorem readRow_input_stops (dest bytes : string) (s : Machine) (ps : list poll_reply)
    (rs : list read_reply) :
  w_polls (world s) = (ready POLLIN bytes ++ ps)%list ->
  w_reads (world s) = (one_by_one bytes ++ rs)%list ->
  str_has newline bytes = false ->
  ~ starts_with_marker (dest ++ bytes) ->
  not_ready ps \/
  (exists rev ps', ps = PollReady rev :: ps' /\ is_poll_error rev = false /\ nothing_read rs) ->
  exists s',
    readRow dest s = Some ((false, dest ++ bytes), s') /\
    getError (conn s') = "Request timed out".
Proof.
  intros Hp Hr Hnl Hm Hstop.
  unfold readRow. cbn [bind env]. rewrite Hp, length_app, ready_length.
  rewrite (readRow_loop_bytes bytes dest _ s _ _ Hp Hr Hnl Hm).
  destruct (after_bytes_scripts bytes s _ _ Hp Hr) as [Hp1 Hr1].
  set (s1 := after_bytes (String.length bytes) s) in *.
  destruct (nointr_read_stalls 1 s1) as (got & s2 & E).
  { rewrite Hp1, Hr1. exact Hstop. }
  rewrite readRow_loop_eq, E. cbn [Z.eqb].
  eexists. split; reflexivity.
Qed.

(** A failure of [read(2)] other than [EINTR] and [EAGAIN] ends [readRow]
    with the text of that error. *)
Theorem readRow_read_failure (dest bytes : string) (s : Machine) (rev en : Z)
    (ps : list poll_reply) (rs : list read_reply) :
  w_polls (world s) = (ready POLLIN bytes ++ PollReady rev :: ps)%list ->
  w_reads (world s) = (one_by_one bytes ++ ReadFail en :: rs)%list ->
  str_has newline bytes = false ->
  ~ starts_with_marker (dest ++ bytes) ->
  is_poll_error rev = false ->
  en <> EINTR -> en <> EAGAIN ->
  exists s',
    readRow dest s = Some ((false, dest ++ bytes), s') /\
    getError (conn s') = "Failed to read row: " ++ strerror en.
Proof.
  intros Hp Hr Hnl Hm Herr Hi Ha.
  unfold readRow. cbn [bind env]. rewrite Hp, length_app, ready_length.
  rewrite (readRow_loop_bytes bytes dest _ s _ _ Hp Hr Hnl Hm).
  destruct (after_bytes_scripts bytes s _ _ Hp Hr) as [Hp1 Hr1].
  set (s1 := after_bytes (String.length bytes) s) in *.
  assert (E : exists s2,
            nointr_read 1 s1 = Some ((-1, ""), s2) /\ w_errno (world s2) = en).
  { unfold nointr_read. unfold bind at 1.
    rewrite (wait_for_event_ready POLLIN s1 rev ps Hp1 Herr).
    cbn [Z.ltb Z.compare]. unfold bind at 1. cbn [this]. unfold bind at 1. cbn [env].
    unfold bind at 1.
    apply Z.eqb_neq in Hi, Ha.
    match goal with
    | |- context [read_retry ?f ?fd 1%nat ?st] =>
        assert (Hrr : read_retry f fd 1 st =
                      Some ((-1, ""),
                            mkMachine (conn st)
                              (with_errno en (with_reads rs (log (SysRead fd 1) (world st))))
                              (heap st)))
    end.
    { match goal with |- read_retry ?f _ _ _ = _ => destruct f end;
        cbn [read_retry]; unfold bind at 1; unfold sys_read, bind, env, set_env, ret;
        cbn [log w_reads world with_polls]; rewrite Hr1; cbn; rewrite Hi; reflexivity. }
    rewrite Hrr. unfold bind at 1. cbn [errno world w_errno with_errno].
    unfold EAGAIN in Ha. unfold EWOULDBLOCK, EAGAIN. rewrite !Ha. cbn.
    eexists. split; reflexivity. }
  destruct E as (s2 & E & Hen).
  rewrite readRow_loop_eq, E. cbn [Z.eqb]. rewrite Hen.
  eexists. split; reflexivity.
Qed.

End Framing.

(** The data line of the example, framed. *)
Lemma readRow_returns_line_example :
  exists s',
    readRow "" (session (serving (example_row_line ++ LF))) = Some ((true, example_row_line), s') /\
    conn s' = conn (session (serving (example_row_line ++ LF))) /\
    w_polls (world s') = [] /\ w_reads (world s') = [].
Proof.
  destruct (readRow_returns_line "" example_row_line
              (session (serving (example_row_line ++ LF))) [] [])
    as (s' & H & Hc & _ & Hp & Hr & _).
  - cbn [session world serving w_polls]. now rewrite app_nil_r.
  - cbn [session world serving w_reads]. now rewrite app_nil_r.
  - vm_compute. reflexivity.
  - intros [r Hr]. vm_compute in Hr. discriminate.
  - exists s'. repeat split; assumption.
Defined.

(** Half a line, then silence. *)
Lemma readRow_input_stops_example :
  exists s',
    readRow "" (session (serving "{'domain':0,")) = Some ((false, "{'domain':0,"), s') /\
    getError (conn s') = "Request timed out".
Proof.
  apply (readRow_input_stops "" "{'domain':0," (session (serving "{'domain':0,")) [] []).
  - reflexivity.
  - reflexivity.
  - vm_compute. reflexivity.
  - intros [r Hr]. vm_compute in Hr. discriminate.
  - left. exact I.
Defined.

(** Half a line, then a connection reset. *)
Lemma readRow_read_failure_example :
  let w := mkWorld [] (ready POLLIN "{'a" ++ [PollReady POLLIN])
             (one_by_one "{'a" ++ [ReadFail 104]) [] 0 "" [] in
  exists s',
    readRow "" (session w) = Some ((false, "{'a"), s') /\
    getError (conn s') = "Failed to read row: " ++ strerror 104.
Proof.
  cbv zeta.
  apply (readRow_read_failure "" "{'a" _ POLLIN 104 [] []).
  - reflexivity.
  - reflexivity.
  - vm_compute. reflexivity.
  - intros [r Hr]. vm_compute in Hr. discriminate.
  - reflexivity.
  - discriminate.
  - discriminate.
Defined.

(** ** The result of [read] and the error message *)

Section ReadOutcome.
Context {P : Platform}.

Lemma readRow_loop_failure (fuel : nat) (dest : string) (s : Machine) (d : string)
    (s' : Machine) :
  (polls_left s <= fuel)%nat ->
  readRow_loop fuel dest s = Some ((false, d), s') ->
  m_error (conn s') <> "".
Proof.
  revert dest s. induction fuel as [|k IH]; intros dest s Hk H;
    rewrite readRow_loop_eq in H;
    destruct (nointr_read 1 s) as [[[rc got] s1]|] eqn:E; try discriminate;
    destruct (Z.eqb_spec rc (-1)) as [|Hm];
    try (inversion H; subst; cbn; discriminate);
    destruct (Z.eqb_spec rc 0) as [|Hz];
    try (inversion H; subst; cbn; discriminate);
    pose proof (nointr_read_positive _ _ _ _ _ E Hz Hm) as Hlt;
    destruct (Ascii.eqb (char_at got 0) newline); try discriminate;
    cbv zeta in H;
    destruct (is_err_prefix (dest ++ String (char_at got 0) ""));
    try (inversion H; subst; cbn; discriminate).
  - exfalso. lia.
  - eapply IH; [|exact H]. lia.
Qed.

Lemma read_rec_outcome (fuel : nat) (s : Machine) (r : Row) (s' : Machine) :
  (polls_left s <= fuel)%nat ->
  read_rec fuel s = Some (r, s') ->
  (r = None <-> m_error (conn s') <> "").
Proof.
  revert s. induction fuel as [|k IH]; intros s Hk H; rewrite read_rec_eq in H;
    destruct (readRow "" s) as [[[[|] row] s1]|] eqn:E; try discriminate.
  all: try (inversion H; subst; split; [intros _|reflexivity];
            exact (readRow_loop_failure _ _ _ _ _ (Nat.le_refl _) E)).
  all: pose proof (readRow_line _ _ _ E) as Hlt.
  all: destruct (json_loads (c_str row)) as [js|text];
       try (inversion H; subst; split; [intros _; cbn; discriminate | reflexivity]).
  all: destruct (is_schema (Some js)).
  all: try (rewrite processRow_eq in H;
            destruct (collect (Some js) (m_keys (conn s1))) as [vs [k0|]];
            inversion H; subst; cbn;
            split; [intros; discriminate | intros; congruence | intros; discriminate
                   | intros; congruence]).
  all: rewrite processSchema_eq in H;
       destruct (schema_namevals (schema_fields (Some js))) as [names|]; try discriminate.
  - exfalso. lia.
  - eapply IH; [|exact H]. unfold polls_left in *. cbn. lia.
Qed.

(** A null Row always comes with an error message and a Row never does:
    after [read] has returned, the Row is null exactly when [getError] is not
    empty. *)
Theorem read_null_row_iff_error (s : Machine) (r : Row) (s' : Machine) :
  read s = Some (r, s') -> (r = None <-> getError (conn s') <> "").
Proof.
  intros H. rewrite read_eq in H. exact (read_rec_outcome _ s r s' (Nat.le_refl _) H).
Qed.

End ReadOutcome.

(** One [read] of the example stream, and one more when it is used up. *)
Lemma read_null_row_iff_error_example :
  exists r s' r2 s2,
    read (session example_stream) = Some (r, s') /\ r <> None /\ getError (conn s') = "" /\
    read s' = Some (r2, s2) /\ r2 = None /\ getError (conn s2) = "Request timed out".
Proof.
  destruct (read (session example_stream)) as [[r s']|] eqn:E;
    [|exfalso; vm_compute in E; discriminate].
  destruct (read s') as [[r2 s2]|] eqn:E2;
    [|exfalso; vm_compute in E; inversion E; subst; vm_compute in E2; discriminate].
  exists r, s', r2, s2.
  pose proof (read_null_row_iff_error _ _ _ E) as H1.
  pose proof (read_null_row_iff_error _ _ _ E2) as H2.
  assert (Hr : r <> None) by (vm_compute in E; inversion E; discriminate).
  assert (Hr2 : r2 = None)
    by (vm_compute in E; inversion E; subst; vm_compute in E2; inversion E2; reflexivity).
  repeat split; try assumption.
  - destruct (string_dec (getError (conn s')) "") as [He|He]; [exact He|].
    exfalso. apply Hr. apply H1. exact He.
  - vm_compute in E; inversion E; subst; vm_compute in E2; inversion E2; reflexivity.
Defined.

(** ** A schema line and a data line, end to end *)

Section EndToEnd.
Context {P : Platform}.

(** When a schema line and then a data line are ready, one [read] consumes
    both: it returns a new Row that holds the names and types announced by the
    schema line and the converted values of the data line, leaves the schema
    line as schema text and the registry replaced, clears the error, and has
    used up exactly the answers for the two lines. *)
Theorem read_schema_then_row
    (s : Machine) (l1 l2 : string) (js1 js2 : json) (names : list string)
    (ps : list poll_reply) (rs : list read_reply) :
  w_polls (world s) = (ready POLLIN (l1 ++ LF) ++ ready POLLIN (l2 ++ LF) ++ ps)%list ->
  w_reads (world s) = (one_by_one (l1 ++ LF) ++ one_by_one (l2 ++ LF) ++ rs)%list ->
  str_has newline l1 = false -> ~ starts_with_marker l1 ->
  str_has newline l2 = false -> ~ starts_with_marker l2 ->
  json_loads (c_str l1) = inl js1 -> is_schema (Some js1) = true ->
  schema_namevals (schema_fields (Some js1)) = Some names ->
  json_loads (c_str l2) = inl js2 -> is_schema (Some js2) = false ->
  (forall k, In k names -> json_object_get (Some js2) k <> None) ->
  exists s',
    read s = Some (Some (List.length (heap s)), s') /\
    deref s' (Some (List.length (heap s))) =
      Some (InternalRow.mk names (map schema_typeval (schema_fields (Some js1)))
              (map (field_value (Some js2)) names)) /\
    getSchema (conn s') = l1 /\
    getError (conn s') = "" /\
    m_keys (conn s') = names /\
    m_types (conn s') = map schema_typeval (schema_fields (Some js1)) /\
    w_polls (world s') = ps /\ w_reads (world s') = rs.
Proof.
  intros Hp Hr Hn1 Hm1 Hn2 Hm2 Hj1 Hs1 Hnames Hj2 Hs2 Hall.
  destruct (readRow_line_framed "" l1 s _ _ Hp Hr Hn1 Hm1)
    as (s1 & E1 & Hc1 & Hh1 & Hp1 & Hr1 & _).
  cbn [append] in E1.
  rewrite (read_schema_line s s1 l1 js1 E1 Hj1 Hs1), processSchema_eq, Hnames.
  set (s2 := with_registry names (map schema_typeval (schema_fields (Some js1)))
               (set_schema_in l1 s1)).
  destruct (readRow_line_framed "" l2 s2 ps rs Hp1 Hr1 Hn2 Hm2)
    as (s3 & E2 & Hc3 & Hh3 & Hp3 & Hr3 & _).
  cbn [append] in E2.
  rewrite read_eq, (read_rec_row _ s2 s3 l2 js2 E2 Hj2 Hs2), processRow_eq.
  rewrite Hc3. cbn [s2 with_registry conn m_keys set_types set_keys].
  rewrite (collect_complete (Some js2) names Hall).
  assert (Hheap : heap s3 = heap s) by (rewrite Hh3; cbn; exact Hh1).
  rewrite Hheap.
  eexists. split; [reflexivity|].
  cbn. rewrite nth_error_app2, Nat.sub_diag by lia.
  repeat split; assumption.
Qed.

End EndToEnd.

(** The two lines of the example. *)
Lemma read_schema_then_row_example :
  exists s',
    read (session example_stream) = Some (Some 0%nat, s') /\
    deref s' (Some 0%nat) =
      Some (InternalRow.mk ["domain"; "server_id"; "sequence"; "col1"]
              ["int"; "int"; "int"; "varchar(10)"] ["0"; "1"; "5"; "hello"]) /\
    getSchema (conn s') = example_schema_line.
Proof.
  destruct (read_schema_then_row (session example_stream) example_schema_line
              example_row_line example_schema example_row
              ["domain"; "server_id"; "sequence"; "col1"] [] [])
    as (s' & H & Hd & Hs & _).
  - cbn [session world example_stream serving w_polls].
    rewrite app_nil_r, <- ready_append, append_assoc. reflexivity.
  - cbn [session world example_stream serving w_reads].
    rewrite app_nil_r, <- one_by_one_append, append_assoc. reflexivity.
  - vm_compute. reflexivity.
  - intros [r Hr]. vm_compute in Hr. discriminate.
  - vm_compute. reflexivity.
  - intros [r Hr]. vm_compute in Hr. discriminate.
  - vm_compute. reflexivity.
  - reflexivity.
  - reflexivity.
  - vm_compute. reflexivity.
  - reflexivity.
  - intros k [<-|[<-|[<-|[<-|[]]]]]; discriminate.
  - exists s'. repeat split; assumption.
Defined.

(** ** What each operation may change, and which calls it makes *)

#[local] Instance conn_kept_preorder {A : Type} (proj : Connection -> A) :
  PreOrder (conn_kept proj).
Proof.
  split.
  - intros s. reflexivity.
  - intros a b c H1 H2. unfold conn_kept in *. congruence.
Qed.

Lemma conn_kept_env {A : Type} (proj : Connection -> A) (s : Machine) (w : World) :
  conn_kept proj s (mkMachine (conn s) w (heap s)).
Proof. reflexivity. Qed.

Lemma conn_kept_processSchema {A : Type} (proj : Connection -> A) (js : option json) :
  (forall l c, proj (set_keys l c) = proj c) ->
  (forall l c, proj (set_types l c) = proj c) ->
  keeps (conn_kept proj) (processSchema js).
Proof.
  intros Hk Ht s a s' H. rewrite processSchema_eq in H.
  destruct (schema_namevals (schema_fields js)); [|discriminate].
  inversion H; subst. unfold conn_kept, with_registry. cbn [conn]. now rewrite Ht, Hk.
Qed.

Section ReadKeepsMore.
Context {P : Platform}.
Context (R : Machine -> Machine -> Prop) `{!PreOrder R}.
Hypothesis R_readRow : forall dest, keeps R (readRow dest).
Hypothesis R_text : forall row, keeps R (assign (set_schema row)).
Hypothesis R_error : forall g, keeps R (assign (fun c => set_error (g c) c)).
Hypothesis R_schema : forall js, keeps R (processSchema js).
Hypothesis R_row : forall js, keeps R (processRow js).

Lemma keeps_read_rec_more (fuel : nat) : keeps R (read_rec fuel).
Proof.
  induction fuel as [|k IH]; cbn [read_rec];
    repeat first
      [ apply R_readRow | apply R_text | apply R_error
      | match goal with
        | |- keeps _ (assign (set_error ?e)) => apply (R_error (fun _ => e))
        end
      | apply R_schema | apply R_row | apply IH
      | monad_step ].
Qed.

Lemma keeps_read_more : keeps R read.
Proof. unfold read. repeat first [ apply keeps_read_rec_more | monad_step ]. Qed.

End ReadKeepsMore.

Section Changes.
Context {P : Platform}.

Lemma conn_kept_processRow {A : Type} (proj : Connection -> A) (js : option json) :
  (forall e c, proj (set_error e c) = proj c) ->
  keeps (conn_kept proj) (processRow js).
Proof.
  intros He s a s' H. rewrite processRow_eq in H.
  destruct (collect js (m_keys (conn s))) as [vs [k|]]; inversion H; subst;
    unfold conn_kept; cbn [conn]; apply He.
Qed.

Ltac kept_side He :=
  intros;
  try first [ exact I
        | apply keeps_assign; intros ?; unfold conn_kept; cbn [conn]; apply He
        | apply keeps_assign; intros ?; reflexivity
        | apply blind_sys_call; [typeclasses eauto | apply conn_kept_env]
        | apply blind_sys_poll; [typeclasses eauto | apply conn_kept_env]
        | apply blind_sys_read; [typeclasses eauto | apply conn_kept_env]
        | apply blind_sys_write; [typeclasses eauto | apply conn_kept_env]
        | apply blind_sys_close; [typeclasses eauto | apply conn_kept_env] ].

Lemma conn_kept_readRow {A : Type} (proj : Connection -> A) (dest : string) :
  (forall e c, proj (set_error e c) = proj c) ->
  keeps (conn_kept proj) (readRow dest).
Proof. intros He. apply (io_readRow (conn_kept proj)); kept_side He. Qed.

Lemma conn_kept_requestData {A : Type} (proj : Connection -> A) (table gtid : string) :
  (forall e c, proj (set_error e c) = proj c) ->
  keeps (conn_kept proj) (requestData table gtid).
Proof.
  intros He. apply (io_requestData (conn_kept proj) (fun _ => True)); kept_side He.
Qed.

Lemma conn_kept_createConnection {A : Type} (proj : Connection -> A) :
  (forall e c, proj (set_error e c) = proj c) ->
  (forall fd c, proj (set_fd fd c) = proj c) ->
  keeps (conn_kept proj) createConnection.
Proof.
  intros He Hf. apply (io_createConnection (conn_kept proj) (fun _ => True)); kept_side He.
  apply keeps_assign; intros ?; unfold conn_kept; cbn [conn]; apply Hf.
Qed.

Lemma conn_kept_closeConnection {A : Type} (proj : Connection -> A) :
  (forall e c, proj (set_error e c) = proj c) ->
  (forall fd c, proj (set_fd fd c) = proj c) ->
  keeps (conn_kept proj) closeConnection.
Proof.
  intros He Hf. apply (io_closeConnection (conn_kept proj) (fun _ => True)); kept_side He.
  apply keeps_assign; intros ?; unfold conn_kept; cbn [conn]; apply Hf.
Qed.

Lemma conn_kept_read {A : Type} (proj : Connection -> A) :
  (forall e c, proj (set_error e c) = proj c) ->
  (forall l c, proj (set_schema l c) = proj c) ->
  (forall l c, proj (set_keys l c) = proj c) ->
  (forall l c, proj (set_types l c) = proj c) ->
  keeps (conn_kept proj) read.
Proof.
  intros He Hs Hk Ht. apply keeps_read_more; [typeclasses eauto | ..]; intros.
  - now apply conn_kept_readRow.
  - apply keeps_assign; intros ?; unfold conn_kept; cbn [conn]; apply Hs.
  - apply keeps_assign; intros ?; unfold conn_kept; cbn [conn]; apply He.
  - now apply conn_kept_processSchema.
  - now apply conn_kept_processRow.
Qed.

(** No operation changes what the constructor received (address, port,
    user, password, timeout).  [createConnection], [requestData] and
    [closeConnection] change nothing but [m_fd] and [m_error]: the schema
    text, the registry and the rows stay.  [read] and [requestData] leave
    [m_fd] alone. *)
Theorem operations_change_only_their_fields (op : operation) (s : Machine) (x : unit)
    (s' : Machine) :
  perform op s = Some (x, s') ->
  identity (conn s') = identity (conn s) /\
  (op <> Op_read ->
   session_data (conn s') = session_data (conn s) /\ heap s' = heap s) /\
  (op = Op_read \/ (exists table gtid, op = Op_requestData table gtid) ->
   m_fd (conn s') = m_fd (conn s)).
Proof.
  intros H.
  assert (Hperform : forall (A : Type) (m : M A) t y t',
            (m ;; ret tt) t = Some (y, t') -> exists a, m t = Some (a, t')).
  { intros A m t y t' Hm. unfold bind in Hm. destruct (m t) as [[a t1]|]; [|discriminate].
    inversion Hm; subst. now exists a. }
  destruct op as [|table gtid| |]; cbn [perform] in H.
  - apply Hperform in H as [a H]. split; [|split].
    + exact (conn_kept_createConnection identity ltac:(reflexivity) ltac:(reflexivity) _ _ _ H).
    + intros _. split.
      * exact (conn_kept_createConnection session_data ltac:(reflexivity) ltac:(reflexivity)
                 _ _ _ H).
      * exact (proj2 (proj2 (frame_createConnection _ _ _ H))).
    + intros [Hr|(t & g & Hr)]; discriminate.
  - apply Hperform in H as [a H]. split; [|split].
    + exact (conn_kept_requestData identity _ _ ltac:(reflexivity) _ _ _ H).
    + intros _. split.
      * exact (conn_kept_requestData session_data _ _ ltac:(reflexivity) _ _ _ H).
      * exact (proj2 (proj2 (frame_requestData _ _ _ _ _ H))).
    + intros _. exact (conn_kept_requestData m_fd _ _ ltac:(reflexivity) _ _ _ H).
  - apply Hperform in H as [a H]. split; [|split].
    + exact (conn_kept_read identity ltac:(reflexivity) ltac:(reflexivity)
               ltac:(reflexivity) ltac:(reflexivity) _ _ _ H).
    + intros Hne. congruence.
    + intros _.
      exact (conn_kept_read m_fd ltac:(reflexivity) ltac:(reflexivity)
               ltac:(reflexivity) ltac:(reflexivity) _ _ _ H).
  - split; [|split].
    + exact (conn_kept_closeConnection identity ltac:(reflexivity) ltac:(reflexivity) _ _ _ H).
    + intros _. split.
      * exact (conn_kept_closeConnection session_data ltac:(reflexivity) ltac:(reflexivity)
                 _ _ _ H).
      * exact (proj2 (proj2 (frame_closeConnection _ _ _ H))).
    + intros [Hr|(t & g & Hr)]; discriminate.
Qed.

End Changes.

(** One failed [createConnection]: the socket is in [m_fd], the rest stays. *)
Lemma operations_change_only_their_fields_example :
  let w := mkWorld [Returns 3; Fails 111] [] [] [] 0 "" [] in
  exists s',
    perform Op_createConnection (start example_connection w) = Some (tt, s') /\
    identity (conn s') = identity example_connection /\
    session_data (conn s') = session_data example_connection /\
    heap s' = [].
Proof.
  cbv zeta.
  destruct (perform Op_createConnection
              (start example_connection (mkWorld [Returns 3; Fails 111] [] [] [] 0 "" [])))
    as [[[] s']|] eqn:E; [|exfalso; vm_compute in E; discriminate].
  exists s'.
  destruct (operations_change_only_their_fields _ _ _ _ E) as (H1 & H2 & _).
  destruct (H2 ltac:(discriminate)) as [H3 H4].
  repeat split; assumption.
Defined.

Section ReadCalls.
Context {P : Platform}.

Lemma emits_processSchema (Q : syscall -> Prop) (js : option json) :
  keeps (emits Q) (processSchema js).
Proof.
  intros s a s' H. rewrite processSchema_eq in H.
  destruct (schema_namevals (schema_fields js)); [|discriminate].
  inversion H; subst. now apply emits_same_trace.
Qed.

Lemma emits_processRow (Q : syscall -> Prop) (js : option json) :
  keeps (emits Q) (processRow js).
Proof.
  intros s a s' H. rewrite processRow_eq in H.
  destruct (collect js (m_keys (conn s))) as [vs [k|]]; inversion H; subst;
    now apply emits_same_trace.
Qed.

(** [read] only waits and reads: every system call it makes is a [poll] or
    a [read]; it never writes to the socket nor closes it. *)
Theorem read_only_polls_and_reads (s : Machine) (r : Row) (s' : Machine) :
  read s = Some (r, s') ->
  exists calls,
    w_trace (world s') = (w_trace (world s) ++ calls)%list /\ Forall input_call calls.
Proof.
  revert s r s'. change (keeps (emits input_call) read).
  apply keeps_read_more; [typeclasses eauto | ..]; intros.
  - apply (io_readRow (emits input_call)); intros;
      [apply emits_error | now apply emits_sys_poll | now apply emits_sys_read].
  - apply keeps_assign. intros t. now apply emits_same_trace.
  - apply emits_error.
  - apply emits_processSchema.
  - apply emits_processRow.
Qed.

End ReadCalls.

(** The calls of one [read] of the example stream. *)
Lemma read_only_polls_and_reads_example :
  exists r s' calls,
    read (session example_stream) = Some (r, s') /\
    w_trace (world s') = calls /\ Forall input_call calls.
Proof.
  destruct (read (session example_stream)) as [[r s']|] eqn:E;
    [|exfalso; vm_compute in E; discriminate].
  destruct (read_only_polls_and_reads _ _ _ E) as (calls & Ht & Hc).
  exists r, s', calls. repeat split; assumption.
Defined.

(** ** [requestData] *)

Lemma request_line_eq (table gtid : string) :
  (if negb (Nat.eqb (String.length gtid) 0)
   then ((REQUEST_MSG ++ table) ++ " ") ++ gtid
   else REQUEST_MSG ++ table)
  = request_line table gtid.
Proof.
  destruct gtid as [|c gtid]; cbn [String.length Nat.eqb negb request_line].
  - reflexivity.
  - unfold REQUEST_MSG. now rewrite !append_assoc.
Qed.

Section Request.
Context {P : Platform}.

Lemma wait_for_event_not_ready_trace (events : Z) (s : Machine) :
  not_ready (w_polls (world s)) ->
  exists rc s1,
    wait_for_event events s = Some (rc, s1) /\ (0 <? rc) = false /\
    w_trace (world s1) =
      (w_trace (world s) ++ [SysPoll (m_fd (conn s)) events (int_mul (m_timeout (conn s)) 1000)])%list.
Proof.
  unfold wait_for_event, sys_poll, bind, this, env, set_env, ret, assign, errno.
  cbn [log w_polls world].
  destruct (w_polls (world s)) as [|[|rev|en] ps]; cbn; intros H;
    try rewrite H; cbn; eexists; eexists; repeat split; reflexivity.
Qed.

(** [requestData] sends ["REQUEST-DATA <table>"], followed by a space and
    the GTID when one is given: every call it makes is a [poll] or a [write]
    of exactly that line.  It returns false only after a failed [write], with
    the text of that error; when the socket does not become writable (timeout
    or failed [poll]) it returns true although nothing was sent: its only
    call is one [poll], with the timeout in milliseconds when that fits an
    [int]. *)
Theorem requestData_sends_request_line (table gtid : string) (s : Machine) (b : bool)
    (s' : Machine) :
  requestData table gtid s = Some (b, s') ->
  (exists calls,
     w_trace (world s') = (w_trace (world s) ++ calls)%list /\
     Forall (output_call (request_line table gtid)) calls) /\
  (b = false ->
   getError (conn s') = "Failed to write request: " ++ strerror (w_errno (world s'))) /\
  (not_ready (w_polls (world s)) ->
   b = true /\
   exists ms,
     w_trace (world s') = (w_trace (world s) ++ [SysPoll (m_fd (conn s)) POLLOUT ms])%list /\
     (timeout_fits (conn s) -> ms = m_timeout (conn s) * 1000)).
Proof.
  unfold requestData. cbv zeta. rewrite request_line_eq.
  set (msg := request_line table gtid). intros H.
  split; [|split].
  - revert s b s' H.
    match goal with |- forall s b s', ?m s = Some (b, s') -> _ =>
      change (keeps (emits (output_call msg)) m) end.
    repeat first
      [ apply (io_nointr_write (emits (output_call msg)) (fun d => d = msg));
        [ intros; apply emits_error
        | intros; now apply emits_sys_poll
        | intros; subst; now apply emits_sys_write
        | apply take_length ]
      | apply emits_error
      | match goal with
        | |- keeps _ (assign (set_error ?e)) =>
            apply (emits_error (output_call msg) (fun _ => e))
        end
      | monad_step ].
  - intros ->. unfold bind at 1 in H.
    destruct (nointr_write msg (String.length msg) s) as [[wr s1]|]; [|discriminate].
    destruct (wr =? -1); inversion H; subst. reflexivity.
  - intros Hnr. unfold bind at 1 in H. unfold nointr_write in H. unfold bind at 1 in H.
    destruct (wait_for_event_not_ready_trace POLLOUT s Hnr) as (rc & s1 & E & Hrc & Ht).
    rewrite E, Hrc in H. cbn in H. inversion H; subst. split; [reflexivity|].
    exists (int_mul (m_timeout (conn s)) 1000).
    split; [exact Ht | intros Hfit; apply int_mul_fits; exact Hfit].
Qed.

End Request.

(** A request with a GTID on a writable socket, and one on a socket that
    never becomes writable. *)
Lemma requestData_sends_request_line_example :
  let w := mkWorld [] [PollReady POLLOUT] [] [Returns 27] 0 "" [] in
  (exists s',
     requestData "test.t1" "0-1-5" (session w) = Some (true, s') /\
     w_trace (world s') =
       [SysPoll 3 POLLOUT 10000; SysWrite 3 "REQUEST-DATA test.t1 0-1-5"]) /\
  (exists s',
     requestData "test.t1" "" (session (serving "")) = Some (true, s') /\
     w_trace (world s') = [SysPoll 3 POLLOUT 10000]).
Proof.
  cbv zeta. split.
  - eexists (mkMachine _ _ _). split; vm_compute; reflexivity.
  - destruct (requestData "test.t1" "" (session (serving ""))) as [[b s']|] eqn:E;
      [|exfalso; vm_compute in E; discriminate].
    destruct (requestData_sends_request_line _ _ _ _ _ E) as (_ & _ & H).
    destruct (H I) as (-> & ms & Ht & Hms). exists s'. split; [reflexivity|].
    rewrite Ht, Hms; [reflexivity|].
    unfold timeout_fits, fits_int, INT_MIN, INT_MAX. cbn. lia.
Defined.

(** ** [closeConnection] on an open descriptor *)

Section CloseOpen.
Context {P : Platform}.

(** With an open descriptor [closeConnection] always returns: it polls and
    writes nothing but ["CLOSE"], then closes the descriptor as its last call,
    whether or not the notification could be written, and sets [m_fd] to
    -1. *)
Theorem closeConnection_closes_descriptor (s : Machine) :
  m_fd (conn s) <> -1 ->
  exists s' calls,
    closeConnection s = Some (tt, s') /\
    w_trace (world s') = (w_trace (world s) ++ calls ++ [SysClose (m_fd (conn s))])%list /\
    Forall (output_call CLOSE_MSG) calls /\
    m_fd (conn s') = -1.
Proof.
  intros Hfd. unfold closeConnection. cbn [bind this].
  apply Z.eqb_neq in Hfd. rewrite Hfd. cbn [negb].
  destruct (total_nointr_write CLOSE_MSG (String.length CLOSE_MSG) s) as (r & s1 & E).
  assert (Hw : emits (output_call CLOSE_MSG) s s1).
  { assert (Hk : keeps (emits (output_call CLOSE_MSG))
                   (nointr_write CLOSE_MSG (String.length CLOSE_MSG))); [|exact (Hk s r s1 E)].
    apply (io_nointr_write (emits (output_call CLOSE_MSG)) (fun d => d = CLOSE_MSG));
      [ intros; apply emits_error
      | intros; now apply emits_sys_poll
      | intros; subst; now apply emits_sys_write
      | reflexivity ]. }
  destruct Hw as (calls & Ht & Hc).
  unfold bind at 1. rewrite E. cbn.
  eexists. exists calls. split; [reflexivity|]. cbn.
  rewrite Ht, <- app_assoc. repeat split. exact Hc.
Qed.

End CloseOpen.

(** Closing a session whose peer has hung up. *)
Lemma closeConnection_closes_descriptor_example :
  let w := mkWorld [] [PollReady (Z.lor POLLOUT POLLHUP)] [] [] 0 "" [] in
  exists s' calls,
    closeConnection (session w) = Some (tt, s') /\
    w_trace (world s') = (calls ++ [SysClose 3])%list /\
    Forall (output_call CLOSE_MSG) calls /\
    m_fd (conn s') = -1.
Proof.
  cbv zeta.
  exact (closeConnection_closes_descriptor
           (session (mkWorld [] [PollReady (Z.lor POLLOUT POLLHUP)] [] [] 0 "" []))
           ltac:(discriminate)).
Defined.

(** ** [closeConnection] twice (C9) *)

Section CloseTheorem.
Context {P : Platform}.






End CloseTheorem.


(** ** The verdict of the handshake steps *)

Lemma length_take (n : nat) (a : string) :
  String.length (take n a) = Nat.min n (String.length a).
Proof.
  revert a. induction n as [|n IH]; intros [|c a]; cbn; try reflexivity.
  now rewrite IH.
Qed.

Lemma take_all (n : nat) (a : string) : (String.length a <= n)%nat -> take n a = a.
Proof.
  revert a. induction n as [|n IH]; intros [|c a] H; cbn in *; try reflexivity; try lia.
  rewrite IH by lia. reflexivity.
Qed.

Lemma take_append_le (n : nat) (a b : string) :
  (n <= String.length a)%nat -> take n (a ++ b) = take n a.
Proof.
  revert a. induction n as [|n IH]; intros [|c a] H; cbn in *; try reflexivity; try lia.
  rewrite IH by lia. reflexivity.
Qed.

Lemma take_take (n m : nat) (a : string) : (n <= m)%nat -> take n (take m a) = take n a.
Proof.
  revert m a. induction n as [|n IH]; intros [|m] [|c a] H; cbn; try reflexivity; try lia.
  rewrite IH by lia. reflexivity.
Qed.

Lemma c_str_append_nul (a b : string) : c_str (a ++ String NUL b) = c_str (a).
Proof.
  induction a as [|c a IH]; cbn; [reflexivity|].
  destruct (Ascii.eqb c NUL); [reflexivity | now rewrite IH].
Qed.

Section Handshake.
Context {P : Platform}.

Lemma nointr_write_returns (src : string) (size : nat) (s : Machine) (rev n : Z)
    (ps : list poll_reply) (ws : list call_reply) :
  w_polls (world s) = PollReady rev :: ps -> is_poll_error rev = false ->
  w_writes (world s) = Returns n :: ws -> 0 <= n ->
  nointr_write src size s =
  Some (n, mkMachine (conn s)
             (with_writes ws
                (log (SysWrite (m_fd (conn s)) (take size src))
                   (with_polls ps
                      (log (SysPoll (m_fd (conn s)) POLLOUT (int_mul (m_timeout (conn s)) 1000))
                         (world s)))))
             (heap s)).
Proof.
  intros Hp Herr Hw Hn. unfold nointr_write. unfold bind at 1.
  rewrite (wait_for_event_ready POLLOUT s rev ps Hp Herr).
  cbn [Z.ltb Z.compare]. unfold bind at 1. cbn [this]. unfold bind at 1. cbn [env].
  unfold bind at 1.
  assert (Hneg : (n <? 0) = false) by (apply Z.ltb_ge; lia).
  match goal with
  | |- context [write_retry ?f ?fd ?d ?st] =>
      assert (Hwr : write_retry f fd d st =
                    Some (n, mkMachine (conn st) (with_writes ws (log (SysWrite fd d) (world st)))
                               (heap st)))
  end.
  { match goal with |- write_retry ?f _ _ _ = _ => destruct f end;
      cbn [write_retry]; unfold bind at 1; unfold sys_write, bind, env, set_env, ret, errno;
      cbn [log w_writes world with_polls]; rewrite Hw; cbn [fst]; rewrite Hneg; reflexivity. }
  rewrite Hwr. unfold bind at 1. cbn [errno]. rewrite Hneg. cbn [andb].
  destruct (Z.ltb_spec 0 n); cbn [conn heap world]; [reflexivity|].
  replace n with 0 by lia. reflexivity.
Qed.

Lemma nointr_read_data (size : nat) (s : Machine) (rev : Z) (bytes : string)
    (ps : list poll_reply) (rs : list read_reply) :
  w_polls (world s) = PollReady rev :: ps -> is_poll_error rev = false ->
  w_reads (world s) = ReadData bytes :: rs ->
  nointr_read size s =
  Some ((Z.of_nat (String.length (take size bytes)), take size bytes),
        mkMachine (conn s)
          (with_reads rs
             (log (SysRead (m_fd (conn s)) size)
                (with_polls ps
                   (log (SysPoll (m_fd (conn s)) POLLIN (int_mul (m_timeout (conn s)) 1000))
                      (world s)))))
          (heap s)).
Proof.
  intros Hp Herr Hr. unfold nointr_read. unfold bind at 1.
  rewrite (wait_for_event_ready POLLIN s rev ps Hp Herr).
  cbn [Z.ltb Z.compare]. unfold bind at 1. cbn [this]. unfold bind at 1. cbn [env].
  unfold bind at 1.
  rewrite (read_retry_data _ _ size _ bytes rs) by (cbn; exact Hr).
  unfold bind at 1. cbn [errno].
  set (len := String.length (take size bytes)).
  assert (Hm : (Z.of_nat len =? -1) = false) by (apply Z.eqb_neq; lia).
  rewrite Hm. cbn [andb conn heap world].
  destruct (Z.ltb_spec 0 (Z.of_nat len)); [reflexivity|].
  assert (Hz : len = O) by lia.
  replace (take size bytes) with "".
  - rewrite Hz. reflexivity.
  - unfold len in Hz. destruct (take size bytes); [reflexivity | discriminate].
Qed.

End Handshake.

Section Verdict.
Context {P : Platform}.

Lemma memcmp_reply (resp rest : string) :
  (3 <= String.length resp)%nat ->
  memcmp_differs (take READBUF_SIZE resp ++ rest) OK_RESPONSE (String.length OK_RESPONSE)
  = negb (String.eqb (take 3 resp) OK_RESPONSE).
Proof.
  intros H. unfold memcmp_differs. change (String.length OK_RESPONSE) with 3%nat.
  rewrite take_append_le by (rewrite length_take; unfold READBUF_SIZE; lia).
  rewrite take_take by (unfold READBUF_SIZE; lia).
  reflexivity.
Qed.

Lemma after_exchange_eq (sent : string) (s : Machine) (r1 r2 : poll_reply) (n : call_reply)
    (resp : read_reply) (ps : list poll_reply) (ws : list call_reply) (rs : list read_reply) :
  w_polls (world s) = r1 :: r2 :: ps ->
  w_writes (world s) = n :: ws ->
  w_reads (world s) = resp :: rs ->
  after_exchange sent s =
  with_reads rs
    (log (SysRead (m_fd (conn s)) READBUF_SIZE)
       (with_polls ps
          (log (SysPoll (m_fd (conn s)) POLLIN (int_mul (m_timeout (conn s)) 1000))
             (with_writes ws
                (log (SysWrite (m_fd (conn s)) sent)
                   (with_polls (r2 :: ps)
                      (log (SysPoll (m_fd (conn s)) POLLOUT (int_mul (m_timeout (conn s)) 1000))
                         (world s)))))))).
Proof.
  intros Hp Hw Hr. unfold after_exchange.
  cbn [log with_polls with_writes with_reads w_polls w_writes w_reads].
  rewrite Hp, Hw, Hr. reflexivity.
Qed.

Ltac exchange_tac Hp He1 He2 Hw Hn Hr Hlen :=
  unfold bind at 1;
  match goal with
  | |- context [nointr_write ?a ?b ?s] =>
      rewrite (nointr_write_returns a b s _ _ _ _ Hp He1 Hw Hn), take_length
  end;
  match type of Hn with
  | 0 <= ?n => let Hm := fresh "Hm" in
               assert (Hm : (n =? -1) = false) by (apply Z.eqb_neq; lia); rewrite Hm
  end;
  unfold bind at 1; unfold stack_buffer at 1, bind at 1, env at 1, ret at 1;
  unfold bind at 1;
  match goal with
  | |- context [nointr_read READBUF_SIZE ?s1] =>
      match type of Hr with
      | _ = ReadData ?resp :: ?rs =>
          rewrite (nointr_read_data READBUF_SIZE s1 _ resp _ rs)
            by (try reflexivity; assumption)
      end
  end;
  cbv beta iota; cbn [conn heap];
  match type of Hr with
  | _ = ReadData ?resp :: ?rs =>
      let Hm1 := fresh "Hm" in
      assert (Hm1 : (Z.of_nat (String.length (take READBUF_SIZE resp)) =? -1) = false)
        by (apply Z.eqb_neq; lia);
      rewrite Hm1, (memcmp_reply resp _ Hlen);
      unfold exchange_reply;
      rewrite (after_exchange_eq _ _ _ _ _ _ _ _ _ Hp Hw Hr);
      destruct (String.eqb (take 3 resp) OK_RESPONSE); cbn [negb]; [reflexivity|];
      rewrite length_take;
      let Hlt := fresh "Hlt" in
      let Hz := fresh "Hz" in
      destruct (Nat.ltb_spec (String.length resp) READBUF_SIZE) as [Hlt|Hlt];
      [ rewrite Nat.min_r by lia;
        assert (Hz : (Z.of_nat (String.length resp) <? Z.of_nat READBUF_SIZE) = true)
          by (apply Z.ltb_lt; lia);
        rewrite Hz, Nat2Z.id, (take_all READBUF_SIZE resp) by lia;
        rewrite take_append_le, take_length, c_str_append_nul by lia;
        reflexivity
      | rewrite Nat.min_l by lia;
        assert (Hz : (Z.of_nat READBUF_SIZE <? Z.of_nat READBUF_SIZE) = false)
          by (apply Z.ltb_ge; lia);
        rewrite Hz; reflexivity ]
  end.

Lemma doAuth_reply (s : Machine) (r1 r2 n : Z) (resp : string)
    (ps : list poll_reply) (ws : list call_reply) (rs : list read_reply) :
  w_polls (world s) = PollReady r1 :: PollReady r2 :: ps ->
  is_poll_error r1 = false -> is_poll_error r2 = false ->
  w_writes (world s) = Returns n :: ws -> 0 <= n ->
  w_reads (world s) = ReadData resp :: rs ->
  (3 <= String.length resp)%nat ->
  doAuth s =
  exchange_reply "Authentication failed: "
    (generateAuthString (m_user (conn s)) (m_password (conn s))) resp s.
Proof.
  intros Hp He1 He2 Hw Hn Hr Hlen.
  unfold doAuth. unfold bind at 1. cbn [this]. cbv zeta.
  exchange_tac Hp He1 He2 Hw Hn Hr Hlen.
Qed.

Lemma doRegistration_reply (s : Machine) (r1 r2 n : Z) (resp : string)
    (ps : list poll_reply) (ws : list call_reply) (rs : list read_reply) :
  w_polls (world s) = PollReady r1 :: PollReady r2 :: ps ->
  is_poll_error r1 = false -> is_poll_error r2 = false ->
  w_writes (world s) = Returns n :: ws -> 0 <= n ->
  w_reads (world s) = ReadData resp :: rs ->
  (3 <= String.length resp)%nat ->
  doRegistration s = exchange_reply "Registration failed: " (REGISTER_MSG ++ "JSON") resp s.
Proof.
  intros Hp He1 He2 Hw Hn Hr Hlen.
  unfold doRegistration. cbv zeta.
  exchange_tac Hp He1 He2 Hw Hn Hr Hlen.
Qed.

(** The verdict of the authentication step.  Once the token has been handed
    to [write] (however many of its bytes were accepted) and a reply of at
    least three bytes arrives in one [read], [doAuth] succeeds exactly when
    the reply starts with the three bytes of [OK_RESPONSE], whatever follows
    them, and then changes nothing of the connection; any other reply shorter
    than the buffer is reported after the prefix "Authentication failed: ", up
    to its first zero byte; a reply that fills the buffer and is not an
    acceptance has no defined outcome, the terminator being stored one past
    the end of the buffer. *)
Theorem doAuth_verdict (s : Machine) (r1 r2 n : Z) (resp : string)
    (ps : list poll_reply) (ws : list call_reply) (rs : list read_reply) :
  w_polls (world s) = PollReady r1 :: PollReady r2 :: ps ->
  is_poll_error r1 = false -> is_poll_error r2 = false ->
  w_writes (world s) = Returns n :: ws -> 0 <= n ->
  w_reads (world s) = ReadData resp :: rs ->
  (3 <= String.length resp)%nat ->
  (accepts resp ->
     exists s', doAuth s = Some (true, s') /\ conn s' = conn s) /\
  (~ accepts resp -> (String.length resp < READBUF_SIZE)%nat ->
     exists s', doAuth s = Some (false, s') /\
                getError (conn s') = "Authentication failed: " ++ c_str resp) /\
  (~ accepts resp -> (READBUF_SIZE <= String.length resp)%nat ->
     doAuth s = None).
Proof.
  intros Hp He1 He2 Hw Hn Hr Hlen.
  rewrite (doAuth_reply s r1 r2 n resp ps ws rs Hp He1 He2 Hw Hn Hr Hlen).
  unfold exchange_reply, accepts.
  destruct (String.eqb_spec (take 3 resp) OK_RESPONSE) as [Heq|Hne].
  - split; [|split]; [|contradiction..].
    intros _. eexists. split; reflexivity.
  - split; [contradiction|]. split; intros _ Hl.
    + assert (Hb : (String.length resp <? READBUF_SIZE)%nat = true) by (apply Nat.ltb_lt; lia).
      rewrite Hb. eexists. split; reflexivity.
    + assert (Hb : (String.length resp <? READBUF_SIZE)%nat = false) by (apply Nat.ltb_ge; lia).
      rewrite Hb. reflexivity.
Qed.

Lemma sys_call_returns (e : syscall) (s : Machine) (r : Z) (rest : list call_reply) :
  w_calls (world s) = Returns r :: rest ->
  sys_call e s = Some (r, mkMachine (conn s) (with_calls rest (log e (world s))) (heap s)).
Proof.
  intros H. unfold sys_call, bind, env, set_env, ret. cbn [log w_calls world].
  rewrite H. reflexivity.
Qed.

Lemma accepts_length (reply : string) : accepts reply -> (3 <= String.length reply)%nat.
Proof.
  unfold accepts. destruct reply as [|a [|b [|c r]]]; cbn; try discriminate. lia.
Qed.

(** A complete handshake.  With a timeout whose milliseconds fit an [int],
    a valid address, a socket, [connect] and
    both [fcntl] calls succeeding, four polls that report readiness without
    an error flag, both writes taken and the first reply accepting,
    [createConnection] makes exactly the twelve calls of [handshake_calls],
    in that order, and uses up exactly their answers.  It returns [true]
    exactly when the second reply accepts as well, and then has changed
    nothing of the connection but [m_fd]; otherwise the second reply is
    reported after "Registration failed: " and the descriptor stays
    recorded in [m_fd], open. *)
Theorem createConnection_handshake (s : Machine) (fd co fl sf : Z) (cs : list call_reply)
    (p1 p2 p3 p4 : Z) (ps : list poll_reply) (n1 n2 : Z) (ws : list call_reply)
    (resp1 resp2 : string) (rs : list read_reply) :
  inet_aton (c_str (m_address (conn s))) = true ->
  w_calls (world s) = Returns fd :: Returns co :: Returns fl :: Returns sf :: cs ->
  fd <> -1 -> co <> -1 -> fl <> -1 -> sf <> -1 ->
  w_polls (world s) = PollReady p1 :: PollReady p2 :: PollReady p3 :: PollReady p4 :: ps ->
  Forall (fun p => is_poll_error p = false) [p1; p2; p3; p4] ->
  w_writes (world s) = Returns n1 :: Returns n2 :: ws -> 0 <= n1 -> 0 <= n2 ->
  w_reads (world s) = ReadData resp1 :: ReadData resp2 :: rs ->
  accepts resp1 ->
  (3 <= String.length resp2 < READBUF_SIZE)%nat ->
  timeout_fits (conn s) ->
  exists b s',
    createConnection s = Some (b, s') /\
    (b = true <-> accepts resp2) /\
    w_trace (world s') = (w_trace (world s) ++ handshake_calls (conn s) fd fl)%list /\
    (w_calls (world s'), w_polls (world s'), w_writes (world s'), w_reads (world s'))
      = (cs, ps, ws, rs) /\
    m_fd (conn s') = fd /\
    (accepts resp2 -> conn s' = set_fd fd (conn s)) /\
    (~ accepts resp2 -> getError (conn s') = "Registration failed: " ++ c_str resp2).
Proof.
  intros Haddr Hc Hfd Hco Hfl Hsf Hp He Hw Hn1 Hn2 Hr Ha1 Hl2 Hfit.
  inversion He as [|? ? He1 Hq1]; subst. inversion Hq1 as [|? ? He2 Hq2]; subst.
  inversion Hq2 as [|? ? He3 Hq3]; subst. inversion Hq3 as [|? ? He4 _]; subst.
  clear He Hq1 Hq2 Hq3.
  apply Z.eqb_neq in Hfd, Hco, Hfl, Hsf.
  unfold createConnection. unfold bind at 1. cbn [this]. rewrite Haddr. cbn [negb].
  unfold bind at 1. rewrite (sys_call_returns _ s fd _ Hc).
  rewrite Hfd. unfold bind at 1. cbn [ret]. unfold bind at 1. cbn [assign].
  cbn [conn world heap].
  unfold bind at 1. erewrite sys_call_returns by reflexivity.
  rewrite Hco.
  unfold bind at 1. erewrite sys_call_returns by reflexivity.
  rewrite Hfl. cbn [conn world heap].
  unfold bind at 1. unfold bind at 1. erewrite sys_call_returns by reflexivity.
  cbn [ret]. rewrite Hsf. cbn [negb conn world heap].
  match goal with |- context [bind doAuth _ ?st] => set (s1 := st) end.
  assert (Hp1 : w_polls (world s1) =
                PollReady p1 :: PollReady p2 :: PollReady p3 :: PollReady p4 :: ps)
    by exact Hp.
  assert (Hw1 : w_writes (world s1) = Returns n1 :: Returns n2 :: ws) by exact Hw.
  assert (Hr1 : w_reads (world s1) = ReadData resp1 :: ReadData resp2 :: rs) by exact Hr.
  unfold bind at 1.
  rewrite (doAuth_reply s1 p1 p2 n1 resp1 _ _ _ Hp1 He1 He2 Hw1 Hn1 Hr1 (accepts_length _ Ha1)).
  unfold exchange_reply at 1. rewrite Ha1, String.eqb_refl.
  rewrite (after_exchange_eq _ s1 _ _ _ _ _ _ _ Hp1 Hw1 Hr1).
  match goal with |- context [doRegistration ?st] => set (s2 := st) end.
  assert (Hp2 : w_polls (world s2) = PollReady p3 :: PollReady p4 :: ps) by reflexivity.
  assert (Hw2 : w_writes (world s2) = Returns n2 :: ws) by reflexivity.
  assert (Hr2 : w_reads (world s2) = ReadData resp2 :: rs) by reflexivity.
  rewrite (doRegistration_reply s2 p3 p4 n2 resp2 _ _ _ Hp2 He3 He4 Hw2 Hn2 Hr2 (proj1 Hl2)).
  unfold exchange_reply.
  rewrite (after_exchange_eq _ s2 _ _ _ _ _ _ _ Hp2 Hw2 Hr2).
  assert (Hb : (String.length resp2 <? READBUF_SIZE)%nat = true) by (apply Nat.ltb_lt; lia).
  rewrite Hb. unfold accepts.
  destruct (String.eqb_spec (take 3 resp2) OK_RESPONSE) as [Heq|Hne];
    eexists; eexists; (split; [reflexivity|]).
  - clear Hp1 Hw1 Hr1 Hp2 Hw2 Hr2. subst s2 s1.
    cbn [conn world heap log with_reads with_polls with_writes with_calls
         w_trace w_calls w_polls w_writes w_reads m_fd m_timeout m_user m_password
         m_address m_port set_fd set_error getError m_error].
    split; [tauto|].
    split; [unfold handshake_calls; rewrite (int_mul_fits _ _ Hfit), <- !app_assoc;
            reflexivity|].
    repeat split. intros Hx. contradiction.
  - clear Hp1 Hw1 Hr1 Hp2 Hw2 Hr2. subst s2 s1.
    cbn [conn world heap log with_reads with_polls with_writes with_calls
         w_trace w_calls w_polls w_writes w_reads m_fd m_timeout m_user m_password
         m_address m_port set_fd set_error getError m_error].
    split; [split; [discriminate | contradiction]|].
    split; [unfold handshake_calls; rewrite (int_mul_fits _ _ Hfit), <- !app_assoc;
            reflexivity|].
    repeat split. intros Hx. contradiction.
Qed.

End Verdict.

Lemma doAuth_verdict_example :
  let w := mkWorld [] [PollReady POLLOUT; PollReady POLLIN] [ReadData "ERR access denied"]
             [Returns 58] 0 "" [] in
  exists s',
    doAuth (session w) = Some (false, s') /\
    getError (conn s') = "Authentication failed: ERR access denied".
Proof.
  cbv zeta.
  apply (proj1 (proj2
    (doAuth_verdict
       (session (mkWorld [] [PollReady POLLOUT; PollReady POLLIN]
                   [ReadData "ERR access denied"] [Returns 58] 0 "" []))
       POLLOUT POLLIN 58 "ERR access denied" [] [] []
       eq_refl eq_refl eq_refl eq_refl ltac:(lia) eq_refl ltac:(cbn; lia)))).
  - discriminate.
  - apply Nat.ltb_lt. vm_compute. reflexivity.
Defined.

Lemma createConnection_handshake_example :
  let w := mkWorld [Returns 3; Returns 0; Returns 2; Returns 0]
             [PollReady POLLOUT; PollReady POLLIN; PollReady POLLOUT; PollReady POLLIN]
             [ReadData OK_RESPONSE; ReadData OK_RESPONSE]
             [Returns 58; Returns 44] 0 "" [] in
  exists s',
    createConnection (start example_connection w) = Some (true, s') /\
    conn s' = set_fd 3 example_connection /\
    w_trace (world s') = handshake_calls example_connection 3 2.
Proof.
  cbv zeta.
  destruct (createConnection_handshake
              (start example_connection
                 (mkWorld [Returns 3; Returns 0; Returns 2; Returns 0]
                    [PollReady POLLOUT; PollReady POLLIN; PollReady POLLOUT; PollReady POLLIN]
                    [ReadData OK_RESPONSE; ReadData OK_RESPONSE]
                    [Returns 58; Returns 44] 0 "" []))
              3 0 2 0 [] POLLOUT POLLIN POLLOUT POLLIN [] 58 44 [] OK_RESPONSE OK_RESPONSE [])
    as (b & s' & E & Hb & Ht & _ & _ & Hc & _);
    try reflexivity; try lia; try (split; [apply Nat.leb_le | apply Nat.ltb_lt]; vm_compute; reflexivity).
  - repeat constructor.
  - unfold timeout_fits, fits_int, INT_MIN, INT_MAX. cbn. lia.
  - exists s'. rewrite E.
    assert (b = true) as -> by (apply Hb; reflexivity).
    split; [reflexivity|]. split; [apply Hc; reflexivity | exact Ht].
Defined.

(** ** Failures leave a message *)

Lemma reports_bind {A : Type} (m : M A) (k : A -> M bool) :
  (forall x, reports (k x)) -> reports (bind m k).
Proof.
  intros Hk s s' H. unfold bind in H.
  destruct (m s) as [[x s1]|]; [|discriminate].
  exact (Hk x s1 s' H).
Qed.

Lemma reports_ret_true : reports (ret true).
Proof. intros s s' H. discriminate. Qed.

Lemma reports_undefined : reports undefined.
Proof. intros s s' H. discriminate. Qed.

Lemma reports_message (f : Connection -> Connection) (b : bool) :
  (forall c, m_error (f c) <> "") -> reports (assign f ;; ret b).
Proof.
  intros Hf s s' H. cbn in H. inversion H; subst. apply Hf.
Qed.

Lemma reports_then (m m2 : M bool) :
  reports m -> reports m2 -> reports (a <- m ;; if a then m2 else ret false).
Proof.
  intros H1 H2 s s' H. unfold bind in H.
  destruct (m s) as [[[|] s1]|] eqn:E; [| |discriminate].
  - exact (H2 s1 s' H).
  - inversion H; subst. exact (H1 s s' E).
Qed.

Ltac reports_step :=
  match goal with
  | |- reports (assign _ ;; ret _) => apply reports_message; intros ?; cbn; discriminate
  | |- reports (_ <- doAuth ;; _) => apply reports_then
  | |- reports (bind _ _) => apply reports_bind; intros ?
  | |- reports (ret true) => apply reports_ret_true
  | |- reports undefined => apply reports_undefined
  | |- reports (let '(_, _) := ?x in _) => destruct x
  | |- reports (if ?c then _ else _) => destruct c
  end.

Section Reports.
Context {P : Platform}.

Lemma reports_doAuth : reports doAuth.
Proof. unfold doAuth. repeat reports_step. Qed.

Lemma reports_doRegistration : reports doRegistration.
Proof. unfold doRegistration. repeat reports_step. Qed.

Lemma reports_requestData (table gtid : string) : reports (requestData table gtid).
Proof. unfold requestData. repeat reports_step. Qed.

Lemma reports_createConnection : reports createConnection.
Proof.
  unfold createConnection.
  repeat first [ apply reports_doAuth | apply reports_doRegistration | reports_step ].
Qed.

(** Every failure of the two operations that return a flag is explained:
    when [createConnection] or [requestData] returns [false], [getError] is
    not empty.  An address that [inet_aton] rejects makes [createConnection]
    fail before any system call, the descriptor left as it was. *)
Theorem failures_leave_a_message (s : Machine) :
  (forall s', createConnection s = Some (false, s') -> getError (conn s') <> "") /\
  (forall table gtid s',
     requestData table gtid s = Some (false, s') -> getError (conn s') <> "") /\
  (inet_aton (c_str (m_address (conn s))) = false ->
   createConnection s =
   Some (false, mkMachine (set_error ("Invalid address: " ++ m_address (conn s)) (conn s))
                  (world s) (heap s))).
Proof.
  split; [|split].
  - intros s'. apply reports_createConnection.
  - intros table gtid s'. apply reports_requestData.
  - intros H. unfold createConnection. cbn [bind this]. rewrite H. reflexivity.
Qed.

End Reports.

(** ** A line that is not JSON *)

Section BadLine.
Context {P : Platform}.

(** A complete line that the decoder rejects is used up and reported: [read]
    returns the null row with the decoder's text after "Failed to parse
    JSON: ", and leaves the schema, the registry, the rows and the rest of
    the stream as they were, so that the next [read] starts at the next
    line. *)
Theorem read_rejects_bad_line (s : Machine) (line text : string)
    (ps : list poll_reply) (rs : list read_reply) :
  w_polls (world s) = (ready POLLIN (line ++ LF) ++ ps)%list ->
  w_reads (world s) = (one_by_one (line ++ LF) ++ rs)%list ->
  str_has newline line = false -> ~ starts_with_marker line ->
  json_loads (c_str line) = inr text ->
  exists s',
    read s = Some (None, s') /\
    getError (conn s') = "Failed to parse JSON: " ++ c_str text /\
    session_data (conn s') = session_data (conn s) /\
    heap s' = heap s /\
    w_polls (world s') = ps /\ w_reads (world s') = rs.
Proof.
  intros Hp Hr Hn Hm Hj.
  destruct (readRow_line_framed "" line s ps rs Hp Hr Hn Hm)
    as (s1 & E1 & Hc1 & Hh1 & Hp1 & Hr1 & _).
  cbn [append] in E1.
  rewrite read_eq, read_rec_eq, E1, Hj.
  eexists. split; [reflexivity|].
  unfold parse_error_in, session_data. cbn. rewrite Hc1. repeat split; assumption.
Qed.

End BadLine.

Lemma read_rejects_bad_line_example :
  exists s' text,
    read (session (serving ("{'a':" ++ LF ++ example_row_line ++ LF))) = Some (None, s') /\
    getError (conn s') = "Failed to parse JSON: " ++ text /\
    w_reads (world s') = one_by_one (example_row_line ++ LF).
Proof.
  destruct (json_loads (c_str "{'a':")) as [js|text] eqn:Hj; [discriminate|].
  destruct (read_rejects_bad_line
              (session (serving ("{'a':" ++ LF ++ example_row_line ++ LF)))
              "{'a':" text
              (ready POLLIN (example_row_line ++ LF)) (one_by_one (example_row_line ++ LF)))
    as (s' & E & He & _ & _ & _ & Hr); try reflexivity.
  - intros [rest H]. discriminate.
  - exact Hj.
  - exists s', (c_str text). repeat split; assumption.
Defined.

(** ** The GTID of a row *)

Section Gtid.
Context {P : Platform}.

Lemma processRow_row (js : option json) (s s' : Machine) (a : nat) (r : InternalRow.t) :
  processRow js s = Some (Some a, s') ->
  deref s' (Some a) = Some r ->
  r = InternalRow.mk (m_keys (conn s)) (m_types (conn s))
        (map (field_value js) (m_keys (conn s))) /\
  (forall k, In k (m_keys (conn s)) -> json_object_get js k <> None).
Proof.
  intros Hrow Hderef. rewrite processRow_eq in Hrow.
  destruct (collect js (m_keys (conn s))) as [vs [k|]] eqn:Hc; [discriminate|].
  inversion Hrow; subst. clear Hrow.
  cbn [deref heap] in Hderef.
  rewrite nth_error_app2, Nat.sub_diag in Hderef by lia.
  inversion Hderef; subst. clear Hderef.
  destruct (collect_all js _ _ Hc) as [-> Hall]. split; [reflexivity | exact Hall].
Qed.

Lemma value_of_mapped (f : string -> string) (keys types : list string) (name : string) :
  InternalRow.value (InternalRow.mk keys types (map f keys)) name =
  if in_dec string_dec name keys then Some (f name) else None.
Proof.
  unfold InternalRow.value. cbn [InternalRow.m_keys InternalRow.m_values].
  destruct (in_dec string_dec name keys) as [Hin|Hn].
  - rewrite nth_error_map, (find_present name keys Hin). reflexivity.
  - rewrite (find_absent name keys Hn). apply nth_error_None. rewrite length_map. lia.
Qed.

(** The GTID of a row that [processRow] built from the object [js].  When
    the three names "domain", "server_id" and "sequence" are among the keys,
    [gtid] is the text of those three members of [js], joined by "-"; when
    one of them is not, [gtid] indexes the values at their size, outside the
    vector. *)
Theorem gtid_of_row (js : option json) (s s' : Machine) (a : nat) (r : InternalRow.t) :
  processRow js s = Some (Some a, s') ->
  deref s' (Some a) = Some r ->
  (In "domain" (InternalRow.m_keys r) -> In "server_id" (InternalRow.m_keys r) ->
   In "sequence" (InternalRow.m_keys r) ->
   exists d i n,
     json_object_get js "domain" = Some d /\
     json_object_get js "server_id" = Some i /\
     json_object_get js "sequence" = Some n /\
     InternalRow.gtid r =
       Some (json_to_string d ++ "-" ++ json_to_string i ++ "-" ++ json_to_string n)) /\
  (~ (In "domain" (InternalRow.m_keys r) /\ In "server_id" (InternalRow.m_keys r) /\
      In "sequence" (InternalRow.m_keys r)) ->
   InternalRow.gtid r = None).
Proof.
  intros Hrow Hderef.
  destruct (processRow_row js s s' a r Hrow Hderef) as [-> Hall].
  cbn [InternalRow.m_keys]. unfold InternalRow.gtid. rewrite !value_of_mapped.
  split.
  - intros Hd Hi Hn.
    destruct (in_dec string_dec "domain" (m_keys (conn s))) as [_|]; [|contradiction].
    destruct (in_dec string_dec "server_id" (m_keys (conn s))) as [_|]; [|contradiction].
    destruct (in_dec string_dec "sequence" (m_keys (conn s))) as [_|]; [|contradiction].
    pose proof (Hall _ Hd) as Xd. pose proof (Hall _ Hi) as Xi. pose proof (Hall _ Hn) as Xn.
    unfold field_value.
    destruct (json_object_get js "domain") as [d|]; [|contradiction].
    destruct (json_object_get js "server_id") as [i|]; [|contradiction].
    destruct (json_object_get js "sequence") as [n|]; [|contradiction].
    exists d, i, n. repeat split. cbn [append]. rewrite !append_assoc. reflexivity.
  - intros Hnot.
    destruct (in_dec string_dec "domain" (m_keys (conn s))) as [H1|]; [|reflexivity].
    destruct (in_dec string_dec "server_id" (m_keys (conn s))) as [H2|]; [|reflexivity].
    destruct (in_dec string_dec "sequence" (m_keys (conn s))) as [H3|]; [|reflexivity].
    exfalso. apply Hnot. repeat split; assumption.
Qed.

End Gtid.

Lemma gtid_of_row_example :
  exists s' r,
    processRow (Some example_row) example_machine = Some (Some 0%nat, s') /\
    deref s' (Some 0%nat) = Some r /\
    InternalRow.gtid r = Some "0-1-5".
Proof.
  eexists. eexists.
  assert (H1 : processRow (Some example_row) example_machine =
               Some (Some 0%nat,
                     mkMachine (set_error "" (conn example_machine)) (world example_machine)
                       [InternalRow.mk (m_keys (conn example_machine))
                          (m_types (conn example_machine)) ["0"; "1"; "5"; "hello"]]))
    by (vm_compute; reflexivity).
  split; [exact H1|]. split; [reflexivity|].
  destruct (proj1 (gtid_of_row _ _ _ _ _ H1 eq_refl)) as (d & i & n & Hd & Hi & Hn & Hg).
  - cbn. tauto.
  - cbn. tauto.
  - cbn. tauto.
  - rewrite Hg. cbn in Hd, Hi, Hn.
    inversion Hd; inversion Hi; inversion Hn; subst. reflexivity.
Defined.

(** ** The fields of the registry as a map *)

Lemma map_find_assign (k k' v : string) (fields : ValueMap) :
  map_find k (map_assign k' v fields) = if String.eqb k' k then Some v else map_find k fields.
Proof.
  induction fields as [|[k0 v0] rest IH]; cbn [map_assign map_find]; [reflexivity|].
  destruct (String.compare k' k0) eqn:E; cbn [map_find].
  - apply String.compare_eq_iff in E. subst k0. destruct (String.eqb k' k); reflexivity.
  - reflexivity.
  - rewrite IH. destruct (String.eqb_spec k0 k) as [->|Hne]; [|reflexivity].
    destruct (String.eqb_spec k' k) as [->|_]; [|reflexivity].
    pose proof (String.compare_antisym k k) as A. rewrite E in A. discriminate.
Qed.

Lemma getFields_loop_spec (c : Connection) (n i : nat) (fields : ValueMap) :
  (i + n)%nat = List.length (m_keys c) ->
  (List.length (m_keys c) <= List.length (m_types c))%nat ->
  exists m,
    getFields_loop n i c fields = Some m /\
    (forall k, (forall j, (i <= j)%nat -> nth_error (m_keys c) j <> Some k) ->
       map_find k m = map_find k fields) /\
    (forall j k t, (i <= j)%nat ->
       nth_error (m_keys c) j = Some k -> nth_error (m_types c) j = Some t ->
       (forall j', (j < j')%nat -> nth_error (m_keys c) j' <> Some k) ->
       map_find k m = Some t).
Proof.
  revert i fields. induction n as [|n IH]; intros i fields Hi Hlen.
  - exists fields. split; [reflexivity|]. split; [reflexivity|].
    intros j k t Hj Hk. exfalso.
    assert (nth_error (m_keys c) j <> None) by congruence.
    apply nth_error_Some in H. lia.
  - cbn [getFields_loop].
    destruct (nth_error (m_keys c) i) as [k0|] eqn:Ek;
      [|apply nth_error_None in Ek; lia].
    destruct (nth_error (m_types c) i) as [t0|] eqn:Et;
      [|apply nth_error_None in Et; lia].
    destruct (IH (S i) (map_assign k0 t0 fields)) as (m & E & Hout & Hin); [lia | lia |].
    exists m. split; [exact E|]. split.
    + intros k Hk. rewrite Hout by (intros j Hj; apply Hk; lia).
      rewrite map_find_assign.
      destruct (String.eqb_spec k0 k) as [->|_]; [|reflexivity].
      exfalso. exact (Hk i (Nat.le_refl i) Ek).
    + intros j k t Hj Hjk Hjt Hlast.
      destruct (Nat.eq_dec j i) as [->|Hne].
      * rewrite Hout by (intros j' Hj'; apply Hlast; lia).
        rewrite map_find_assign.
        assert (k0 = k) by congruence. assert (t0 = t) by congruence. subst.
        rewrite String.eqb_refl. reflexivity.
      * apply (Hin j k t); [lia | assumption..].
Qed.

Lemma getFields_loop_short (c : Connection) (n i : nat) (fields : ValueMap) :
  (i + n)%nat = List.length (m_keys c) ->
  (List.length (m_types c) < List.length (m_keys c))%nat ->
  (i <= List.length (m_types c))%nat ->
  getFields_loop n i c fields = None.
Proof.
  revert i fields. induction n as [|n IH]; intros i fields Hi Hlen Hle; [lia|].
  cbn [getFields_loop].
  destruct (nth_error (m_keys c) i) as [k0|]; [|reflexivity].
  destruct (nth_error (m_types c) i) as [t0|] eqn:Et; [|reflexivity].
  assert (nth_error (m_types c) i <> None) by congruence.
  apply nth_error_Some in H. apply IH; lia.
Qed.

(** [getFields] on a registry whose two lists have the same length, which
    every operation keeps: a name that is not a key has no entry, and a key
    is mapped to the type at the last index that holds it, so that of two
    fields with the same name the later one wins.  With fewer types than
    keys the loop would index the types past their end. *)
Theorem getFields_maps_keys_to_types (c : Connection) :
  (registry_ok c ->
   exists fields,
     getFields c = Some fields /\
     (forall k, ~ In k (m_keys c) -> map_find k fields = None) /\
     (forall i k t,
        nth_error (m_keys c) i = Some k -> nth_error (m_types c) i = Some t ->
        (forall j, (i < j)%nat -> nth_error (m_keys c) j <> Some k) ->
        map_find k fields = Some t)) /\
  ((List.length (m_types c) < List.length (m_keys c))%nat -> getFields c = None).
Proof.
  split.
  - intros Hok. unfold registry_ok in Hok. unfold getFields.
    destruct (getFields_loop_spec c (List.length (m_keys c)) 0 [])
      as (m & E & Hout & Hin); [reflexivity | lia |].
    exists m. split; [exact E|]. split.
    + intros k Hk. rewrite Hout; [reflexivity|].
      intros j _ Hj. apply Hk. eapply nth_error_In. exact Hj.
    + intros i k t. apply Hin. lia.
  - intros Hlt. unfold getFields. apply getFields_loop_short; [reflexivity | exact Hlt | lia].
Qed.

Lemma getFields_maps_keys_to_types_example :
  let c := set_types ["int"; "varchar(10)"; "bigint"]
             (set_keys ["id"; "note"; "id"] example_connection) in
  getFields c = Some [("id", "bigint"); ("note", "varchar(10)")] /\
  exists fields, getFields c = Some fields /\ map_find "id" fields = Some "bigint".
Proof.
  cbv zeta. split; [reflexivity|].
  destruct (proj1 (getFields_maps_keys_to_types
                     (set_types ["int"; "varchar(10)"; "bigint"]
                        (set_keys ["id"; "note"; "id"] example_connection)))
              eq_refl) as (fields & E & _ & H).
  exists fields. split; [exact E|].
  apply (H 2%nat "id" "bigint"); try reflexivity.
  intros j Hj. do 3 (destruct j as [|j]; [lia|]). cbn. destruct j; discriminate.
Defined.

(** ** Interrupted transfers *)

Section Interrupts.
Context {P : Platform}.

Lemma read_retry_interrupted (k fuel : nat) (fd : Z) (size : nat) (s : Machine)
    (bytes : string) (rs : list read_reply) :
  (k <= fuel)%nat ->
  w_reads (world s) = (repeat (ReadFail EINTR) k ++ ReadData bytes :: rs)%list ->
  exists w,
    read_retry fuel fd size s =
      Some ((Z.of_nat (String.length (take size bytes)), take size bytes),
            mkMachine (conn s) w (heap s)) /\
    w_reads w = rs /\ w_polls w = w_polls (world s) /\
    w_writes w = w_writes (world s) /\ w_calls w = w_calls (world s) /\
    w_trace w = (w_trace (world s) ++ repeat (SysRead fd size) (S k))%list.
Proof.
  revert fuel s. induction k as [|k IH]; intros fuel s Hk Hr.
  - rewrite (read_retry_data fuel fd size s bytes rs Hr).
    eexists. split; [reflexivity|]. repeat split.
  - destruct fuel as [|fuel]; [lia|].
    cbn [read_retry]. unfold bind at 1.
    unfold sys_read at 1, bind at 1, env at 1. cbn [log w_reads world].
    rewrite Hr. cbn [repeat app]. unfold bind at 1. cbn [set_env ret].
    unfold bind at 1. cbn [errno world w_errno with_errno fst].
    change (-1 <? 0) with true. rewrite Z.eqb_refl. cbn [andb].
    match goal with |- context [read_retry fuel fd size ?st] => set (s1 := st) end.
    destruct (IH fuel s1) as (w & E & H1 & H2 & H3 & H4 & H5); [lia | reflexivity |].
    exists w. split; [exact E|]. repeat split; try assumption.
    rewrite H5. cbn. rewrite <- app_assoc. reflexivity.
Qed.

Lemma write_retry_interrupted (k fuel : nat) (fd : Z) (data : string) (s : Machine)
    (n : Z) (ws : list call_reply) :
  (k <= fuel)%nat -> 0 <= n ->
  w_writes (world s) = (repeat (Fails EINTR) k ++ Returns n :: ws)%list ->
  exists w,
    write_retry fuel fd data s = Some (n, mkMachine (conn s) w (heap s)) /\
    w_writes w = ws /\ w_polls w = w_polls (world s) /\
    w_reads w = w_reads (world s) /\ w_calls w = w_calls (world s) /\
    w_trace w = (w_trace (world s) ++ repeat (SysWrite fd data) (S k))%list.
Proof.
  revert fuel s. induction k as [|k IH]; intros fuel s Hk Hn Hw.
  - assert (Hneg : (n <? 0) = false) by (apply Z.ltb_ge; lia).
    exists (with_writes ws (log (SysWrite fd data) (world s))).
    split; [|repeat split].
    destruct fuel; cbn [write_retry]; unfold bind at 1;
      unfold sys_write, bind, env, set_env, ret, errno;
      cbn [log w_writes world]; cbn in Hw; rewrite Hw; cbn [fst]; rewrite Hneg; reflexivity.
  - destruct fuel as [|fuel]; [lia|].
    cbn [write_retry]. unfold bind at 1.
    unfold sys_write at 1, bind at 1, env at 1. cbn [log w_writes world].
    rewrite Hw. cbn [repeat app]. unfold bind at 1. cbn [set_env ret].
    unfold bind at 1. cbn [errno world w_errno with_errno].
    change (-1 <? 0) with true. rewrite Z.eqb_refl. cbn [andb].
    match goal with |- context [write_retry fuel fd data ?st] => set (s1 := st) end.
    destruct (IH fuel s1) as (w & E & H1 & H2 & H3 & H4 & H5); [lia | lia | reflexivity |].
    exists w. split; [exact E|]. repeat split; try assumption.
    rewrite H5. cbn. rewrite <- app_assoc. reflexivity.
Qed.

(** A transfer that a signal interrupts is repeated at once (the timeout in
    milliseconds fitting an [int]): after one
    [poll] that reports readiness, [k] reads that fail with [EINTR] and one
    that delivers [bytes], [nointr_read] returns the bytes, having polled
    once and read [k + 1] times, with no message recorded; and likewise
    [nointr_write] for [k] interrupted writes and one that is taken. *)
Theorem transfers_retry_interrupts (s : Machine) (rev : Z) (ps : list poll_reply) (k : nat) :
  w_polls (world s) = PollReady rev :: ps ->
  is_poll_error rev = false ->
  timeout_fits (conn s) ->
  (forall size bytes rs,
     w_reads (world s) = (repeat (ReadFail EINTR) k ++ ReadData bytes :: rs)%list ->
     exists s',
       nointr_read size s =
         Some ((Z.of_nat (String.length (take size bytes)), take size bytes), s') /\
       conn s' = conn s /\
       w_polls (world s') = ps /\ w_reads (world s') = rs /\
       w_trace (world s') =
         (w_trace (world s) ++
          SysPoll (m_fd (conn s)) POLLIN (m_timeout (conn s) * 1000)
          :: repeat (SysRead (m_fd (conn s)) size) (S k))%list) /\
  (forall src size n ws,
     0 <= n ->
     w_writes (world s) = (repeat (Fails EINTR) k ++ Returns n :: ws)%list ->
     exists s',
       nointr_write src size s = Some (n, s') /\
       conn s' = conn s /\
       w_polls (world s') = ps /\ w_writes (world s') = ws /\
       w_trace (world s') =
         (w_trace (world s) ++
          SysPoll (m_fd (conn s)) POLLOUT (m_timeout (conn s) * 1000)
          :: repeat (SysWrite (m_fd (conn s)) (take size src)) (S k))%list).
Proof.
  intros Hp Herr Hfit. rewrite <- (int_mul_fits _ _ Hfit). split.
  - intros size bytes rs Hr.
    unfold nointr_read. unfold bind at 1.
    rewrite (wait_for_event_ready POLLIN s rev ps Hp Herr).
    cbn [Z.ltb Z.compare]. unfold bind at 1. cbn [this]. unfold bind at 1. cbn [env].
    unfold bind at 1. cbn [conn world].
    match goal with |- context [read_retry ?f ?fd size ?st] =>
      destruct (read_retry_interrupted k f fd size st bytes rs)
        as (w & E & H1 & H2 & H3 & H4 & H5)
    end.
    { cbn [world with_polls log w_reads]. rewrite Hr, length_app, repeat_length. lia. }
    { exact Hr. }
    rewrite E. unfold bind at 1. cbn [errno].
    set (len := String.length (take size bytes)).
    assert (Hm : (Z.of_nat len =? -1) = false) by (apply Z.eqb_neq; lia).
    rewrite Hm. cbn [andb conn heap world].
    assert (Hres : (if 0 <? Z.of_nat len
                    then ret (0 + Z.of_nat len, take size bytes)
                    else ret (0, take size bytes))
                   (mkMachine (conn s) w (heap s))
                   = Some ((Z.of_nat len, take size bytes), mkMachine (conn s) w (heap s))).
    { destruct (Z.ltb_spec 0 (Z.of_nat len)); [reflexivity|].
      replace (Z.of_nat len) with 0 by lia. reflexivity. }
    rewrite Hres. eexists. split; [reflexivity|].
    cbn [conn world]. rewrite H1, H2, H5. cbn. rewrite <- app_assoc. repeat split.
  - intros src size n ws Hn Hw.
    unfold nointr_write. unfold bind at 1.
    rewrite (wait_for_event_ready POLLOUT s rev ps Hp Herr).
    cbn [Z.ltb Z.compare]. unfold bind at 1. cbn [this]. unfold bind at 1. cbn [env].
    unfold bind at 1. cbn [conn world].
    match goal with |- context [write_retry ?f ?fd ?d ?st] =>
      destruct (write_retry_interrupted k f fd d st n ws)
        as (w & E & H1 & H2 & H3 & H4 & H5)
    end.
    { cbn [world with_polls log w_writes]. rewrite Hw, length_app, repeat_length. lia. }
    { exact Hn. }
    { exact Hw. }
    rewrite E. unfold bind at 1. cbn [errno].
    assert (Hneg : (n <? 0) = false) by (apply Z.ltb_ge; lia).
    rewrite Hneg. cbn [andb conn heap world].
    assert (Hres : (if 0 <? n then ret (0 + n) else ret 0) (mkMachine (conn s) w (heap s))
                   = Some (n, mkMachine (conn s) w (heap s))).
    { destruct (Z.ltb_spec 0 n); [reflexivity|]. replace n with 0 by lia. reflexivity. }
    rewrite Hres. eexists. split; [reflexivity|].
    cbn [conn world]. rewrite H1, H2, H5. cbn. rewrite <- app_assoc. repeat split.
Qed.

End Interrupts.

Lemma transfers_retry_interrupts_example :
  let w := mkWorld [] [PollReady POLLIN] [ReadFail EINTR; ReadFail EINTR; ReadData "x"]
             [] 0 "" [] in
  exists s',
    nointr_read 1 (session w) = Some ((1, "x"), s') /\
    getError (conn s') = "" /\
    w_trace (world s') = [SysPoll 3 POLLIN 10000; SysRead 3 1; SysRead 3 1; SysRead 3 1].
Proof.
  cbv zeta.
  destruct (proj1 (transfers_retry_interrupts
                     (session (mkWorld [] [PollReady POLLIN]
                                 [ReadFail EINTR; ReadFail EINTR; ReadData "x"] [] 0 "" []))
                     POLLIN [] 2 eq_refl eq_refl
                     ltac:(unfold timeout_fits, fits_int, INT_MIN, INT_MAX; cbn; lia))
              1%nat "x" [] eq_refl)
    as (s' & E & Hc & _ & _ & Ht).
  exists s'. split; [exact E|]. split; [rewrite Hc; reflexivity | exact Ht].
Defined.

(** ** The token determines the credentials *)

Lemma hex_digit_inj (n m : N) :
  (n < 16)%N -> (m < 16)%N -> hex_digit n = hex_digit m -> n = m.
Proof.
  intros Hn Hm H. unfold hex_digit in H.
  apply (f_equal N_of_ascii) in H.
  rewrite !N_ascii_embedding in H
    by (destruct (n <? 10)%N, (m <? 10)%N; lia).
  destruct (N.ltb_spec n 10), (N.ltb_spec m 10); lia.
Qed.

Lemma hex_pair_inj (a b : ascii) :
  hex_digit (N_of_ascii a / 16) = hex_digit (N_of_ascii b / 16) ->
  hex_digit (N_of_ascii a mod 16) = hex_digit (N_of_ascii b mod 16) ->
  a = b.
Proof.
  intros Hhi Hlo.
  pose proof (N_ascii_bounded a) as Ba. pose proof (N_ascii_bounded b) as Bb.
  apply hex_digit_inj in Hhi;
    [| apply N.Div0.div_lt_upper_bound; lia | apply N.Div0.div_lt_upper_bound; lia].
  apply hex_digit_inj in Hlo; [| apply N.mod_lt; lia | apply N.mod_lt; lia].
  assert (H : N_of_ascii a = N_of_ascii b).
  { rewrite (N.div_mod (N_of_ascii a) 16), (N.div_mod (N_of_ascii b) 16) by lia.
    rewrite Hhi, Hlo. reflexivity. }
  apply (f_equal ascii_of_N) in H. now rewrite !ascii_N_embedding in H.
Qed.

Lemma hex_encode_inj (a b : string) : hex_encode a = hex_encode b -> a = b.
Proof.
  revert b. induction a as [|x a IH]; intros [|y b] H; cbn [hex_encode] in H;
    try reflexivity; try discriminate.
  inversion H as [[Hhi Hlo Hrest]].
  rewrite (hex_pair_inj x y Hhi Hlo), (IH b Hrest). reflexivity.
Qed.

Lemma hex_encode_append (a b : string) : hex_encode (a ++ b) = hex_encode a ++ hex_encode b.
Proof.
  induction a as [|x a IH]; [reflexivity|]. cbn [append hex_encode]. now rewrite IH.
Qed.

Lemma hex_encode_length (a : string) :
  String.length (hex_encode a) = (2 * String.length a)%nat.
Proof.
  induction a as [|x a IH]; [reflexivity|]. cbn [hex_encode String.length]. rewrite IH. lia.
Qed.

Lemma append_inj_suffix (a a' b b' : string) :
  String.length b = String.length b' -> a ++ b = a' ++ b' -> a = a' /\ b = b'.
Proof.
  intros Hl. revert a'. induction a as [|x a IH]; intros [|y a'] H; cbn [append] in H.
  - split; [reflexivity | exact H].
  - exfalso. apply (f_equal String.length) in H. rewrite H in Hl.
    cbn [String.length] in Hl. rewrite length_append in Hl. lia.
  - exfalso. apply (f_equal String.length) in H. rewrite <- H in Hl.
    cbn [String.length] in Hl. rewrite length_append in Hl. lia.
  - inversion H as [[Hx Hrest]]. destruct (IH a' Hrest) as [-> ->]. split; reflexivity.
Qed.

Section TokenDetermines.
Context {P : Platform}.

(** The token is twice as long as the user name, the colon and the digest
    together, and it determines both the user name and the digest: two
    tokens are equal only for the same user and passwords of the same
    digest. *)
Theorem auth_token_determines_credentials (user password user' password' : string) :
  String.length (generateAuthString user password)
    = (2 * (String.length user + 1 + SHA_DIGEST_LENGTH))%nat /\
  (generateAuthString user password = generateAuthString user' password' ->
   user = user' /\ SHA1 password = SHA1 password').
Proof.
  rewrite !auth_string_hex, <- !hex_encode_append. split.
  - rewrite hex_encode_length, !length_append, SHA1_length. reflexivity.
  - intros H. apply hex_encode_inj in H.
    apply append_inj_suffix in H; [|now rewrite !SHA1_length].
    destruct H as [Hu Hd]. split; [|exact Hd].
    apply append_inj_suffix in Hu; [|reflexivity]. exact (proj1 Hu).
Qed.

End TokenDetermines.

(** ** The description of poll events *)

Lemma is_poll_error_flags (e : Z) :
  is_poll_error e = flag_set e POLLERR || flag_set e POLLHUP || flag_set e POLLNVAL.
Proof.
  unfold is_poll_error, flag_set. rewrite !Z.land_lor_distr_r.
  destruct (Z.eqb_spec (Z.land e POLLERR) 0) as [->|H1];
    destruct (Z.eqb_spec (Z.land e POLLHUP) 0) as [->|H2];
    destruct (Z.eqb_spec (Z.land e POLLNVAL) 0) as [->|H3]; cbn [negb orb Z.lor];
    try reflexivity;
    apply negb_true_iff, Z.eqb_neq; rewrite ?Z.lor_0_r, ?Z.lor_0_l;
    try assumption; intros H; apply Z.lor_eq_0_iff in H; destruct H as [H H'];
    try apply Z.lor_eq_0_iff in H; tauto.
Qed.

(** [event_to_string] names exactly the flags that are set in the event,
    each name followed by a space, and an event that [is_poll_error] flags
    never has the empty description. *)
Theorem event_to_string_names_flags (event : Z) :
  Forall (fun '(flag, name) => contains name (event_to_string event) = flag_set event flag)
    [ (POLLIN, "POLLIN "); (POLLPRI, "POLLPRI "); (POLLOUT, "POLLOUT ");
      (POLLRDHUP, "POLLRDHUP "); (POLLERR, "POLLERR "); (POLLHUP, "POLLHUP ");
      (POLLNVAL, "POLLNVAL ") ] /\
  (is_poll_error event = true -> event_to_string event <> "").
Proof.
  split.
  - repeat (apply Forall_cons); [..|apply Forall_nil]; cbv beta iota;
      unfold event_to_string;
      generalize (flag_set event POLLIN) (flag_set event POLLPRI) (flag_set event POLLOUT)
                 (flag_set event POLLRDHUP) (flag_set event POLLERR) (flag_set event POLLHUP)
                 (flag_set event POLLNVAL);
      intros [] [] [] [] [] [] []; vm_compute; reflexivity.
  - rewrite is_poll_error_flags. unfold event_to_string.
    generalize (flag_set event POLLIN) (flag_set event POLLPRI) (flag_set event POLLOUT)
               (flag_set event POLLRDHUP) (flag_set event POLLERR) (flag_set event POLLHUP)
               (flag_set event POLLNVAL).
    intros [] [] [] [] [] [] []; cbn; intros; discriminate.
Qed.
